(** * mailroom: campaign scheduling, commit hooks and broadcast fan-out

    A shallow embedding of three pieces of the mailroom code base and the
    properties its specification states about them:

    - [models.CampaignEvent.ScheduleForTime] (campaign scheduling),
    - [hooks.CommitLanguageChangesHook.Apply] (session commit hook),
    - [broadcasts.CreateBroadcastBatches] and [broadcasts.SendBroadcastBatch]
      (broadcast fan-out and batch sending).

    The file first gives every definition (the model of the parts of Go's
    [time] package the scheduler calls, then the three embeddings and the
    concrete inputs used later), and then the lemmas and theorems. *)

From Stdlib Require Import ZArith Lia List.
From stdpp Require Import gmap strings list.

(* ===================================================================== *)
(** * Part I: definitions *)
(* ===================================================================== *)

(** ** Go's [time] package, as far as [ScheduleForTime] uses it

    [time.Time] is an instant (seconds and nanoseconds) together with the
    [*time.Location] it is presented in.  The library's internal arithmetic
    is taken on unbounded [Z]; the [int64] wrap-around of [time.Duration]
    products, which the scheduler computes itself, is written out
    ([wrap64]). *)
Module GoTime.
Local Open Scope Z_scope.

(** [int64] wrap-around (two's complement). *)
Definition wrap64 (z : Z) : Z := (z + 2 ^ 63) mod 2 ^ 64 - 2 ^ 63.

(** [time.Duration] is an [int64] count of nanoseconds. *)
Definition Duration := Z.
Definition Nanosecond : Duration := 1.
Definition Microsecond : Duration := 1000 * Nanosecond.
Definition Millisecond : Duration := 1000 * Microsecond.
Definition Second : Duration := 1000 * Millisecond.
Definition Minute : Duration := 60 * Second.
Definition Hour : Duration := 60 * Minute.

(** The product of two durations, as [a * b] on [int64] computes it. *)
Definition dur_mul (a b : Duration) : Duration := wrap64 (a * b).

Definition secondsPerMinute : Z := 60.
Definition secondsPerHour : Z := 60 * secondsPerMinute.
Definition secondsPerDay : Z := 24 * secondsPerHour.
Definition daysPer400Years : Z := 365 * 400 + 97.
Definition daysPer100Years : Z := 365 * 100 + 24.
Definition daysPer4Years : Z := 365 * 4 + 1.

(** The library's three epochs: the absolute zero year, year 1 (internal)
    and 1970 (Unix). *)
Definition absoluteZeroYear : Z := -292277022399.
Definition absoluteToInternal : Z := -9223371966579724800.
Definition internalToAbsolute : Z := - absoluteToInternal.
Definition unixToInternal : Z :=
  (1969 * 365 + 1969 / 4 - 1969 / 100 + 1969 / 400) * secondsPerDay.
Definition internalToUnix : Z := - unixToInternal.

(** A zone transition: from Unix second [when] on, the zone with UTC offset
    [offset] (in seconds) is in force.  (Go keeps an index into a zone table
    here; the table entry's offset is stored directly.) *)
Record zoneTrans := { when : Z; offset : Z }.

(** [time.Location]: the offset in force before the first transition and the
    transitions, sorted by [when]. *)
Record Location := { first_offset : Z; tx : list zoneTrans }.

Definition UTC : Location := {| first_offset := 0; tx := [] |}.

(** [time.FixedZone]: a location that always uses the given offset. *)
Definition FixedZone (off : Z) : Location := {| first_offset := off; tx := [] |}.

Definition alpha : Z := - 2 ^ 63.
Definition omega : Z := 2 ^ 63 - 1.

(** [Location.lookup]: the offset in force at Unix second [sec] and the
    half-open interval [start, end) of seconds over which it stays in force
    (the transition with the largest [when <= sec]). *)
Fixpoint lookup_tx (txs : list zoneTrans) (sec cur_off cur_start : Z)
  : Z * Z * Z :=
  match txs with
  | [] => (cur_off, cur_start, omega)
  | t :: rest =>
      if sec <? when t then (cur_off, cur_start, when t)
      else lookup_tx rest sec (offset t) (when t)
  end.

Definition lookup (l : Location) (sec : Z) : Z * Z * Z :=
  lookup_tx (tx l) sec (first_offset l) alpha.

Definition zone_offset (l : Location) (sec : Z) : Z := (lookup l sec).1.1.

(** [time.Time]: Unix seconds, nanoseconds within the second
    ([0 <= nsec < 1e9]) and the presentation location. *)
Record Time := { unixSec : Z; nsec : Z; loc : Location }.

(** [Time.In]: the same instant, presented in [l]. *)
Definition In (t : Time) (l : Location) : Time :=
  {| unixSec := unixSec t; nsec := nsec t; loc := l |}.

(** [Time.abs]: seconds since the absolute epoch of the wall clock that
    [t] shows in its location. *)
Definition abs (t : Time) : Z :=
  unixSec t + zone_offset (loc t) (unixSec t)
  + (unixToInternal + internalToAbsolute).

Definition isLeap (year : Z) : bool :=
  (Z.rem year 4 =? 0) && (negb (Z.rem year 100 =? 0) || (Z.rem year 400 =? 0)).

(** [daysBefore[m]]: days of a non-leap year before month [m+1]. *)
Definition daysBefore (m : Z) : Z :=
  nth (Z.to_nat m) [0; 31; 59; 90; 120; 151; 181; 212; 243; 273; 304; 334; 365] 0.

(** [absDate(abs, true)]: year, month (January = 1) and day of the month of
    an absolute second count. *)
Definition absDate (a : Z) : Z * Z * Z :=
  let d := a / secondsPerDay in
  (* 400-year cycles *)
  let n := d / daysPer400Years in
  let y := 400 * n in
  let d := d - daysPer400Years * n in
  (* 100-year cycles; the last one is a day longer *)
  let n := d / daysPer100Years in
  let n := n - Z.shiftr n 2 in
  let y := y + 100 * n in
  let d := d - daysPer100Years * n in
  (* 4-year cycles *)
  let n := d / daysPer4Years in
  let y := y + 4 * n in
  let d := d - daysPer4Years * n in
  (* years within a 4-year cycle; the last one is a day longer *)
  let n := d / 365 in
  let n := n - Z.shiftr n 2 in
  let y := y + n in
  let d := d - 365 * n in
  let year := y + absoluteZeroYear in
  let yday := d in
  if isLeap year && (yday =? 31 + 29 - 1) then (year, 2, 29)
  else
    let day := if isLeap year && (yday >? 31 + 29 - 1) then yday - 1 else yday in
    let month := day / 31 in
    let end_ := daysBefore (month + 1) in
    let '(month, begin) :=
      if day >=? end_ then (month + 1, end_) else (month, daysBefore month) in
    (year, month + 1, day - begin + 1).

Definition Year (t : Time) : Z := (absDate (abs t)).1.1.
Definition Month (t : Time) : Z := (absDate (abs t)).1.2.
Definition Day (t : Time) : Z := (absDate (abs t)).2.
Definition Hour_of (t : Time) : Z := (abs t mod secondsPerDay) / secondsPerHour.
Definition Minute_of (t : Time) : Z := (abs t mod secondsPerHour) / secondsPerMinute.
Definition Second_of (t : Time) : Z := abs t mod secondsPerMinute.
Definition Nanosecond_of (t : Time) : Z := nsec t.

(** [absClock]: hour, minute and second within the day. *)
Definition Clock (t : Time) : Z * Z * Z :=
  let sec := abs t mod secondsPerDay in
  let hour := sec / secondsPerHour in
  let sec := sec - hour * secondsPerHour in
  let min := sec / secondsPerMinute in
  let sec := sec - min * secondsPerMinute in
  (hour, min, sec).

(** [Time.Add]: the instant [d] nanoseconds later. *)
Definition Add (t : Time) (d : Duration) : Time :=
  let dsec := Z.quot d 1000000000 in
  let ns := nsec t + Z.rem d 1000000000 in
  let '(dsec, ns) :=
    if ns >=? 1000000000 then (dsec + 1, ns - 1000000000)
    else if ns <? 0 then (dsec - 1, ns + 1000000000)
    else (dsec, ns) in
  {| unixSec := unixSec t + dsec; nsec := ns; loc := loc t |}.

(** [Time.Truncate]: [t] rounded down to a multiple of [d] since the zero
    time (year 1, UTC); [t] itself when [d <= 0]. *)
Definition Truncate (t : Time) (d : Duration) : Time :=
  if d <=? 0 then t
  else
    let r := ((unixSec t + unixToInternal) * 1000000000 + nsec t) mod d in
    Add t (- r).

(** [Time.Before]. *)
Definition Before (t u : Time) : bool :=
  (unixSec t <? unixSec u) || ((unixSec t =? unixSec u) && (nsec t <? nsec u)).

(** [norm]: carry [lo] into [hi] so that [0 <= lo < base]. *)
Definition norm (hi lo base : Z) : Z * Z :=
  let '(hi, lo) :=
    if lo <? 0 then
      let n := Z.quot (- lo - 1) base + 1 in (hi - n, lo + n * base)
    else (hi, lo) in
  if lo >=? base then
    let n := Z.quot lo base in (hi + n, lo - n * base)
  else (hi, lo).

(** Days from the absolute epoch to the first day of month [month] (1..12)
    of [year]. *)
Definition daysSinceEpoch (year month : Z) : Z :=
  let y := year - absoluteZeroYear in
  let n := y / 400 in
  let y := y - 400 * n in
  let d := daysPer400Years * n in
  let n := y / 100 in
  let y := y - 100 * n in
  let d := d + daysPer100Years * n in
  let n := y / 4 in
  let y := y - 4 * n in
  let d := d + daysPer4Years * n in
  let d := d + 365 * y in
  let d := d + daysBefore (month - 1) in
  if isLeap year && (month >=? 3) then d + 1 else d.

(** The second half of [time.Date]: the instant whose wall clock in [l]
    shows [unix] (the wall clock read as if it were UTC).  The offset found
    at [unix] is used when the result falls inside that zone's interval;
    otherwise the offset of the neighbouring zone is taken. *)
Definition resolve_zone (l : Location) (unix : Z) : Z :=
  let '(off, start, end_) := lookup l unix in
  if off =? 0 then unix
  else
    let utc := unix - off in
    let off :=
      if utc <? start then zone_offset l (start - 1)
      else if utc >=? end_ then zone_offset l end_
      else off in
    unix - off.

(** [time.Date]. *)
Definition Date (year month day hour min sec ns : Z) (l : Location) : Time :=
  let m := month - 1 in
  let '(year, m) := norm year m 12 in
  let month := m + 1 in
  let '(sec, ns) := norm sec ns 1000000000 in
  let '(min, sec) := norm min sec 60 in
  let '(hour, min) := norm hour min 60 in
  let '(day, hour) := norm day hour 24 in
  let d := daysSinceEpoch year month + (day - 1) in
  let a := d * secondsPerDay
           + (hour * secondsPerHour + min * secondsPerMinute + sec) in
  let unix := a + (absoluteToInternal + internalToUnix) in
  {| unixSec := resolve_zone l unix; nsec := ns; loc := l |}.

(** [Time.AddDate]. *)
Definition AddDate (t : Time) (years months days : Z) : Time :=
  let '(hour, min, sec) := Clock t in
  Date (Year t + years) (Month t + months) (Day t + days)
       hour min sec (nsec t) (loc t).

End GoTime.

(** A small result type for Go's [(value, error)] returns. *)
Inductive result (A : Type) : Type :=
  | Ok (a : A)
  | Err (msg : string).
Arguments Ok {A} a.
Arguments Err {A} msg.

(** ** models: campaign events *)
Module Campaigns.
Import GoTime.
Local Open Scope Z_scope.

(** [type OffsetUnit string] and its four constants. *)
Definition OffsetUnit := string.
Definition OffsetMinute : OffsetUnit := "M"%string.
Definition OffsetHour : OffsetUnit := "H"%string.
Definition OffsetDay : OffsetUnit := "D"%string.
Definition OffsetWeek : OffsetUnit := "W"%string.

(** The constant for not having a set delivery hour. *)
Definition NilDeliveryHour : Z := -1.

Definition CreatedOnKey : string := "created_on"%string.

(** [CampaignEvent]: the fields the scheduler reads.  [Offset] and
    [DeliveryHour] are Go [int]s (64 bits wide on the deployed platform). *)
Record CampaignEvent := {
  ID : Z;
  RelativeToKey : string;
  Offset : Z;
  Unit : OffsetUnit;
  DeliveryHour : Z;
  FlowID : Z
}.

(** Lines 185-189 of [ScheduleForTime]: round to the next minute, floored at
    0 s/ns, if we are not already at 0. *)
Definition roundToMinute (start : Time) : Time :=
  if (Second_of start >? 0) || (Nanosecond_of start >? 0)
  then Truncate (Add start (Second * 60)) Minute
  else start.

(** Lines 191-203: the [switch] on the unit; [None] is the [default] branch.
    The durations are [int64] products, [e.Offset()*7] is an [int] product. *)
Definition applyOffset (e : CampaignEvent) (scheduled : Time) : option Time :=
  if String.eqb (Unit e) OffsetMinute then
    Some (Add scheduled (dur_mul Minute (Offset e)))
  else if String.eqb (Unit e) OffsetHour then
    Some (Add scheduled (dur_mul Hour (Offset e)))
  else if String.eqb (Unit e) OffsetDay then
    Some (AddDate scheduled 0 0 (Offset e))
  else if String.eqb (Unit e) OffsetWeek then
    Some (AddDate scheduled 0 0 (wrap64 (Offset e * 7)))
  else None.

(** Lines 205-208: set the delivery hour if there is one. *)
Definition applyDeliveryHour (e : CampaignEvent) (tz : Location)
    (scheduled : Time) : Time :=
  if negb (DeliveryHour e =? NilDeliveryHour) then
    Date (Year scheduled) (Month scheduled) (Day scheduled)
         (DeliveryHour e) 0 0 0 tz
  else scheduled.

(** The instant [ScheduleForTime] compares with [now]: [None] for an
    unknown unit. *)
Definition scheduledInstant (e : CampaignEvent) (tz : Location)
    (start : Time) : option Time :=
  applyDeliveryHour e tz <$> applyOffset e (roundToMinute (In start tz)).

(** [CampaignEvent.ScheduleForTime]: [Ok None] is the source's [nil, nil]. *)
Definition ScheduleForTime (e : CampaignEvent) (tz : Location)
    (now start : Time) : result (option Time) :=
  (* convert to our timezone *)
  let start := In start tz in
  (* round to next minute, floored at 0 s/ns if we aren't already at 0 *)
  let scheduled := roundToMinute start in
  (* create our offset *)
  match applyOffset e scheduled with
  | None => Err ("unknown offset unit: " +:+ Unit e)
  | Some scheduled =>
      (* now set our delivery hour if set *)
      let scheduled := applyDeliveryHour e tz scheduled in
      (* if this is in the past, this is a no op *)
      if Before scheduled now then Ok None else Ok (Some scheduled)
  end.

End Campaigns.

(** ** Go's [range] over a map

    The order in which [range] visits a map is unspecified.  A [RangeOrder]
    is one possible choice of the runtime: for every set and every map some
    enumeration of its entries.  Everything proved below holds for all of
    them. *)
Record RangeOrder := {
  range_set : forall `{Countable K}, gset K -> list K;
  range_set_perm : forall `{Countable K} (s : gset K),
    range_set s ≡ₚ elements s;
  range_map : forall `{Countable K} {V : Type}, gmap K V -> list (K * V);
  range_map_perm : forall `{Countable K} {V : Type} (m : gmap K V),
    range_map m ≡ₚ map_to_list m
}.

(** One such order: the one stdpp enumerates in. *)
Definition canonicalOrder : RangeOrder := {|
  range_set := fun K _ _ s => elements s;
  range_set_perm := fun K _ _ s => reflexivity (elements s);
  range_map := fun K _ _ V m => map_to_list m;
  range_map_perm := fun K _ _ V m => reflexivity (map_to_list m)
|}.

(** Another one: the reverse of it. *)
Definition reverseOrder : RangeOrder := {|
  range_set := fun K _ _ s => reverse (elements s);
  range_set_perm := fun K _ _ s => reverse_Permutation (elements s);
  range_map := fun K _ _ V m => reverse (map_to_list m);
  range_map_perm := fun K _ _ V m => reverse_Permutation (map_to_list m)
|}.

(** A call either returns or panics. *)
Inductive outcome (A : Type) : Type :=
  | Returns (a : A)
  | Panics (msg : string).
Arguments Returns {A} a.
Arguments Panics {A} msg.

(** ** hooks: the contact-language commit hook *)
Module Hooks.
Local Open Scope Z_scope.

(** The events of the flow engine that matter here: the one this hook is
    registered for, and two others. *)
Inductive Event :=
  | ContactLanguageChangedEvent (Language : string)
  | ContactNameChangedEvent (Name : string)
  | OtherEvent (type : string).

(** [models.Session], by the accessors the hook and its handler call. *)
Record Session := { SessionID : Z; ContactID : Z; ContactUUID : string }.

(** A pointer to a [models.Session]: the address of a session. *)
Definition SessionPtr := positive.

(** The map from session pointers to their events that [Apply] receives;
    every key is shown with the session it points to. *)
Abbreviation Sessions := (gmap SessionPtr (Session * list Event)).

(** The struct used for the bulk update. *)
Record languageUpdate := { lu_ContactID : Z; lu_Language : string }.

Definition updateContactLanguageSQL : string :=
  "UPDATE contacts_contact c SET language = r.language, modified_on = NOW() FROM (VALUES(:id, :language)) AS r(id, language) WHERE c.id = r.id::int"%string.

(** The last element of [e], asserted to be a contact-language-changed
    event (line 29): the index expression [e[len(e)-1]] panics on an empty
    slice, the type assertion on any other event. *)
Definition lastLanguageChange (e : list Event)
  : outcome string :=
  let i := Z.of_nat (length e) - 1 in
  if i <? 0 then Panics "index out of range"
  else
    match e !! Z.to_nat i with
    | None => Panics "index out of range"
    | Some (ContactLanguageChangedEvent lang) => Returns lang
    | Some _ => Panics "interface conversion"
    end.

(** The loop of [Apply] (lines 26-31) over the sessions in the order
    [range] yields them. *)
Fixpoint buildUpdates (l : list (SessionPtr * (Session * list Event)))
    (updates : list languageUpdate) : outcome (list languageUpdate) :=
  match l with
  | [] => Returns updates
  | (_, (s, e)) :: rest =>
      match lastLanguageChange e with
      | Panics msg => Panics msg
      | Returns lang =>
          buildUpdates rest
            (updates ++ [ {| lu_ContactID := ContactID s; lu_Language := lang |} ])
      end
  end.

Definition languageUpdates (ro : RangeOrder) (sessions : Sessions)
  : outcome (list languageUpdate) :=
  buildUpdates (range_map ro sessions) [].

Section Apply.
(** [models.BulkSQL] is not part of the sources at hand; it is taken as it
    is called: a label, a statement and the rows, returning an error or
    [nil]. *)
Variable BulkSQL : string -> string -> list languageUpdate -> option string.

(** [CommitLanguageChangesHook.Apply]. *)
Definition Apply (ro : RangeOrder) (sessions : Sessions)
  : outcome (option string) :=
  match languageUpdates ro sessions with
  | Panics msg => Panics msg
  | Returns updates =>
      Returns (BulkSQL "updating contact language" updateContactLanguageSQL updates)
  end.
End Apply.

(** Modelled from the spec: [Session.AddPreCommitEvent], which the handler
    calls and which is not part of the sources at hand.  "While executing, a
    session appends each produced event to the list associated with that
    event's kind-hook, keyed by the session." *)
Definition AddPreCommitEvent (p : SessionPtr) (s : Session) (ev : Event)
    (sessions : Sessions) : Sessions :=
  <[p := (s, (default (s, []) (sessions !! p)).2 ++ [ev])]> sessions.

End Hooks.

(** ** broadcasts: fan-out into batches and sending a batch *)
Module Broadcasts.

Definition ContactID := Z.
Definition GroupID := Z.
Definition OrgID := Z.
Definition BroadcastID := Z.
Definition URN := string.

Definition startBatchSize : nat := 100.

(** Modelled from the spec: the two queues of package [queue], "a
    low-latency handler queue and a bulk batch queue". *)
Inductive Queue := BatchQueue | HandlerQueue.

(** Modelled from the spec: the task type the batches are queued under and
    the one priority the fan-out uses. *)
Definition SendBroadcastBatchType : string := "send_broadcast_batch"%string.
Inductive Priority := DefaultPriority | HighPriority.

(** Modelled from the spec: [models.Broadcast], "explicit contact id list,
    explicit group id list, explicit address list". *)
Record Broadcast := {
  BroadcastID_of : BroadcastID;
  OrgID_of : OrgID;
  ContactIDs : list ContactID;
  GroupIDs : list GroupID;
  URNs : list URN
}.

(** Modelled from the spec: [models.BroadcastBatch], "a bounded list of
    contact ids, optionally a map of contact id to address (only on the
    terminal batch), and an is-last flag". *)
Record BroadcastBatch := {
  batch_BroadcastID : BroadcastID;
  batch_OrgID : OrgID;
  batch_ContactIDs : list ContactID;
  batch_URNs : option (gmap ContactID URN);
  IsLast : bool
}.

(** Modelled from the spec: [Broadcast.CreateBatch] and the two setters of a
    batch. *)
Definition CreateBatch (bcast : Broadcast) (contacts : list ContactID)
  : BroadcastBatch :=
  {| batch_BroadcastID := BroadcastID_of bcast;
     batch_OrgID := OrgID_of bcast;
     batch_ContactIDs := contacts;
     batch_URNs := None;
     IsLast := false |}.

Definition SetIsLast (b : BroadcastBatch) (v : bool) : BroadcastBatch :=
  {| batch_BroadcastID := batch_BroadcastID b;
     batch_OrgID := batch_OrgID b;
     batch_ContactIDs := batch_ContactIDs b;
     batch_URNs := batch_URNs b;
     IsLast := v |}.

Definition SetURNs (b : BroadcastBatch) (u : gmap ContactID URN)
  : BroadcastBatch :=
  {| batch_BroadcastID := batch_BroadcastID b;
     batch_OrgID := batch_OrgID b;
     batch_ContactIDs := batch_ContactIDs b;
     batch_URNs := Some u;
     IsLast := IsLast b |}.

(** Org and session assets and created messages are opaque here. *)
Record OrgAssets := { assets_org : OrgID }.
Record SessionAssets := { session_assets_org : OrgID }.
Record Msg := { msg_contact : ContactID; msg_urn : option URN }.

(** What the collaborators answer: the database, the asset cache, the task
    queue and courier.  An error is its message. *)
Record Env := {
  ContactIDsForGroupIDs : list GroupID -> list ContactID * option string;
  GetOrgAssets : OrgID -> result OrgAssets;
  GetSessionAssets : OrgAssets -> result SessionAssets;
  ContactIDsFromURNs :
    OrgAssets -> SessionAssets -> list URN -> result (gmap URN ContactID);
  AddTask :
    Queue -> string -> OrgID -> BroadcastBatch -> Priority -> option string;
  CreateBroadcastMessages :
    OrgAssets -> SessionAssets -> BroadcastBatch -> result (list Msg);
  QueueMessages : list Msg -> option string;
  MarkBroadcastSent : BroadcastID -> option string
}.

(** What a run does to the outside, in order.  [QueuedTask] is a call of
    [queue.AddTask] with these arguments: the task is handed to the queue,
    and is on it afterwards only if the queue answered without error. *)
Inductive effect :=
  | QueuedTask (q : Queue) (taskType : string) (org : OrgID)
      (batch : BroadcastBatch) (priority : Priority)
  | LoggedError (msg err : string)
  | QueuedToCourier (msgs : list Msg)
  | MarkedBroadcastSent (id : BroadcastID).

(** [errors.Wrapf(err, msg)]. *)
Definition Wrapf (err msg : string) : string := msg +:+ ": " +:+ err.

(** Lines 85-92: one round of the loop over [urnMap]. *)
Definition urnStep
    (acc : gset ContactID * gmap ContactID URN * gmap ContactID URN)
    (entry : URN * ContactID)
  : gset ContactID * gmap ContactID URN * gmap ContactID URN :=
  let '(contactIDs, repeatedContacts, urnContacts) := acc in
  let '(u, id) := entry in
  let '(contactIDs, repeatedContacts) :=
    if bool_decide (id ∈ contactIDs)
    then (contactIDs ∖ {[id]}, <[id := u]> repeatedContacts)
    else (contactIDs, repeatedContacts) in
  (contactIDs, repeatedContacts, <[id := u]> urnContacts).

(** The variables the closure [queueBatch] and the batching loop update. *)
Record BatchState := {
  contacts : list ContactID;
  err : option string;
  effects : list effect
}.

Section Batching.
Variable ro : RangeOrder.
Variable env : Env.
Variable bcast : Broadcast.
Variable q : Queue.
Variable repeatedContacts urnContacts : gmap ContactID URN.

(** Lines 100-121: the closure [queueBatch]. *)
Definition queueBatch (isLast : bool) (st : BatchState) : BatchState :=
  (* if this is our last batch include those contacts that overlap with our urns *)
  let contacts :=
    if isLast then contacts st ++ (range_map ro repeatedContacts).*1
    else contacts st in
  let batch := CreateBatch bcast contacts in
  (* also set our URNs *)
  let batch :=
    if isLast then SetURNs (SetIsLast batch true) urnContacts else batch in
  let err :=
    AddTask env q SendBroadcastBatchType (OrgID_of bcast) batch DefaultPriority in
  let logged :=
    match err with
    | Some e => [LoggedError "error while queuing broadcast batch" e]
    | None => []
    end in
  {| contacts := [];
     err := err;
     effects :=
       effects st
       ++ QueuedTask q SendBroadcastBatchType (OrgID_of bcast) batch DefaultPriority
       :: logged |}.

(** Lines 124-129: one round of the loop that builds up the batches. *)
Definition batchStep (st : BatchState) (c : ContactID) : BatchState :=
  let st :=
    if (length (contacts st) =? startBatchSize)%nat
    then queueBatch false st else st in
  {| contacts := contacts st ++ [c]; err := err st; effects := effects st |}.
End Batching.

(** [CreateBroadcastBatches]: the error returned and the effects, in
    order. *)
Definition CreateBroadcastBatches (ro : RangeOrder) (env : Env)
    (bcast : Broadcast) : option string * list effect :=
  (* we are building a set of contact ids, start with the explicit ones *)
  let contactIDs : gset ContactID :=
    foldl (fun s id => {[id]} ∪ s) ∅ (ContactIDs bcast) in
  let '(groupContactIDs, err) := ContactIDsForGroupIDs env (GroupIDs bcast) in
  let contactIDs := foldl (fun s id => {[id]} ∪ s) contactIDs groupContactIDs in
  match GetOrgAssets env (OrgID_of bcast) with
  | Err err => (Some (Wrapf err "error getting org assets"), [])
  | Ok org =>
  match GetSessionAssets env org with
  | Err err => (Some (Wrapf err "error getting session assets"), [])
  | Ok sa =>
  (* get the contact ids for our URNs *)
  match ContactIDsFromURNs env org sa (URNs bcast) with
  | Err err => (Some (Wrapf err "error getting contact ids for urns"), [])
  | Ok urnMap =>
      (* two or fewer contacts? queue to our handler queue for sending *)
      let q := if (size contactIDs <=? 2)%nat then HandlerQueue else BatchQueue in
      (* we want to remove contacts that are also present in URN sends *)
      let '(contactIDs, repeatedContacts, urnContacts) :=
        foldl urnStep (contactIDs, ∅, ∅) (range_map ro urnMap) in
      (* build up batches of contacts to start *)
      let st :=
        foldl (batchStep ro env bcast q repeatedContacts urnContacts)
          {| contacts := []; err := None; effects := [] |}
          (range_set ro contactIDs) in
      (* queue our last batch *)
      let st := queueBatch ro env bcast q repeatedContacts urnContacts true st in
      (None, effects st)
  end end end.

(** [SendBroadcastBatch]: the error returned and the effects, in order.  The
    deferred function runs after the body, whichever [return] it left by. *)
Definition SendBroadcastBatch (env : Env) (bcast : BroadcastBatch)
  : option string * list effect :=
  let body : option string * list effect :=
    match GetOrgAssets env (batch_OrgID bcast) with
    | Err err => (Some (Wrapf err "error getting org assets"), [])
    | Ok org =>
    match GetSessionAssets env org with
    | Err err => (Some (Wrapf err "error getting session assets"), [])
    | Ok sa =>
    (* create this batch of messages *)
    match CreateBroadcastMessages env org sa bcast with
    | Err err => (Some (Wrapf err "error creating broadcast messages"), [])
    | Ok msgs =>
        (* and queue them to courier for sending *)
        match QueueMessages env msgs with
        | Some err =>
            (Some (Wrapf err "error queuing broadcast messages"),
             [QueuedToCourier msgs])
        | None => (None, [QueuedToCourier msgs])
        end
    end end end in
  (* always set our broadcast as sent if it is our last *)
  let deferred :=
    if IsLast bcast then
      MarkedBroadcastSent (batch_BroadcastID bcast)
      :: match MarkBroadcastSent env (batch_BroadcastID bcast) with
         | Some err => [LoggedError "error marking broadcast as sent" err]
         | None => []
         end
    else [] in
  (body.1, body.2 ++ deferred).

End Broadcasts.

(** ** Vocabulary of the specification

    The notions the specification's sentences use, defined on the
    embeddings above. *)
Module BroadcastSpec.
Import Broadcasts.

(** The batches a run handed to the task queue, with the queue of each, in
    order. *)
Definition queuedBatches (effs : list effect) : list (Queue * BroadcastBatch) :=
  omap (fun e =>
          match e with
          | QueuedTask q _ _ b _ => Some (q, b)
          | _ => None
          end) effs.

(** The set [C] of the spec: explicit and group-expanded contact ids,
    deduplicated. *)
Definition targetContacts (env : Env) (bcast : Broadcast) : gset ContactID :=
  list_to_set (ContactIDs bcast ++ (ContactIDsForGroupIDs env (GroupIDs bcast)).1).

(** The map from address to owning contact, when the three lookups that
    lead to it succeed. *)
Definition resolvedURNs (env : Env) (bcast : Broadcast)
  : option (gmap URN ContactID) :=
  match GetOrgAssets env (OrgID_of bcast) with
  | Err _ => None
  | Ok org =>
      match GetSessionAssets env org with
      | Err _ => None
      | Ok sa =>
          match ContactIDsFromURNs env org sa (URNs bcast) with
          | Err _ => None
          | Ok urnMap => Some urnMap
          end
      end
  end.

(** The contacts reached through an explicit address. *)
Definition urnRecipients (urnMap : gmap URN ContactID) : gset ContactID :=
  map_img urnMap.

(** The total resolved recipient count: explicit contacts, group-expanded
    contacts and address-resolved contacts together. *)
Definition totalRecipients (env : Env) (bcast : Broadcast) : nat :=
  size (targetContacts env bcast
        ∪ from_option urnRecipients ∅ (resolvedURNs env bcast)).

(** What queueing one batch leaves behind: the task, and a log entry when
    the queue refused it. *)
Definition attempt (env : Env) (q : Queue) (org : OrgID) (b : BroadcastBatch)
  : list effect :=
  QueuedTask q SendBroadcastBatchType org b DefaultPriority
  :: match AddTask env q SendBroadcastBatchType org b DefaultPriority with
     | Some e => [LoggedError "error while queuing broadcast batch" e]
     | None => []
     end.

(** The effects of queueing each of [fulls] as a non-terminal batch. *)
Definition attempts (env : Env) (bcast : Broadcast) (q : Queue)
    (fulls : list (list ContactID)) : list effect :=
  fulls ≫= (fun cs => attempt env q (OrgID_of bcast) (CreateBatch bcast cs)).

(** The contacts a list of map entries resolves to. *)
Definition ids (l : list (URN * ContactID)) : gset ContactID :=
  list_to_set l.*2.

(** The queue the fan-out picks (line 81). *)
Definition chosenQueue (env : Env) (bcast : Broadcast) : Queue :=
  if (size (targetContacts env bcast) <=? 2)%nat then HandlerQueue else BatchQueue.

(** The terminal batch: the contacts given, the address map, is-last set. *)
Definition terminalBatch (bcast : Broadcast) (cs : list ContactID)
    (urnContacts : gmap ContactID URN) : BroadcastBatch :=
  SetURNs (SetIsLast (CreateBatch bcast cs) true) urnContacts.

(** How often [c] occurs in [l]. *)
Definition occurrences (c : ContactID) (l : list ContactID) : nat :=
  length (filter (fun x => x = c) l).

(** How often a run marked the broadcast [id] as sent. *)
Definition isMarkedSent (id : BroadcastID) (e : effect) : bool :=
  match e with
  | MarkedBroadcastSent i => (i =? id)%Z
  | _ => false
  end.

Definition markedSent (id : BroadcastID) (effs : list effect) : nat :=
  length (List.filter (isMarkedSent id) effs).

End BroadcastSpec.

Module ScheduleSpec.
Import GoTime Campaigns.
Local Open Scope Z_scope.

(** Nanoseconds since the Unix epoch: the instant of [t], whatever the
    location it is presented in. *)
Definition instant (t : Time) : Z := unixSec t * 1000000000 + nsec t.

(** The invariant of [time.Time]: the nanoseconds are within the second. *)
Definition valid (t : Time) : Prop := 0 <= nsec t < 1000000000.

(** The time at instant [n], presented in [l]. *)
Definition atInstant (l : Location) (n : Z) : Time :=
  {| unixSec := n / 1000000000; nsec := n mod 1000000000; loc := l |}.

(** [t] has no seconds and no sub-second component. *)
Definition onMinuteBoundary (t : Time) : Prop :=
  Second_of t = 0 /\ Nanosecond_of t = 0.

(** The first whole minute strictly after instant [n]. *)
Definition nextWholeMinute (n : Z) : Z :=
  60000000000 * (n / 60000000000 + 1).

(** "Round up": advance to the next whole minute if the time has a nonzero
    seconds or sub-second component, else leave it. *)
Definition roundUpToMinute (t : Time) : Time :=
  if decide (onMinuteBoundary t) then t
  else atInstant (loc t) (nextWholeMinute (instant t)).

(** The wall clock that [t] shows in its location, as seconds since
    1970-01-01 00:00:00 on that clock. *)
Definition wallSeconds (t : Time) : Z :=
  unixSec t + zone_offset (loc t) (unixSec t).

(** The time whose wall clock in [l] shows [wall] (as [time.Date] resolves
    it), with [ns] nanoseconds. *)
Definition atWallClock (l : Location) (wall ns : Z) : Time :=
  {| unixSec := resolve_zone l wall; nsec := ns; loc := l |}.

(** [t] moved by [n] calendar days: the same wall-clock time of day, [n]
    days later on the calendar of [t]'s location. *)
Definition plusCalendarDays (t : Time) (n : Z) : Time :=
  atWallClock (loc t) (wallSeconds t + 86400 * n) (nsec t).

(** "Apply the offset": add [offset] minutes or hours, or [offset] (or
    [offset * 7] for weeks) calendar days. *)
Definition plusOffset (unit : OffsetUnit) (offset : Z) (t : Time) : option Time :=
  if decide (unit = OffsetMinute) then
    Some (atInstant (loc t) (instant t + offset * 60000000000))
  else if decide (unit = OffsetHour) then
    Some (atInstant (loc t) (instant t + offset * 3600000000000))
  else if decide (unit = OffsetDay) then Some (plusCalendarDays t offset)
  else if decide (unit = OffsetWeek) then Some (plusCalendarDays t (offset * 7))
  else None.

(** The products the scheduler computes for this event stay within
    [int64]: the duration of a minute or hour offset in nanoseconds, and the
    day count of a week offset. *)
Definition noOverflow (e : CampaignEvent) : Prop :=
  (Unit e = OffsetMinute -> - 2 ^ 63 <= Minute * Offset e < 2 ^ 63)
  /\ (Unit e = OffsetHour -> - 2 ^ 63 <= Hour * Offset e < 2 ^ 63)
  /\ (Unit e = OffsetWeek -> - 2 ^ 63 <= Offset e * 7 < 2 ^ 63).

(** The calendar date and the wall-clock time a time shows. *)
Definition dateOf (t : Time) : Z * Z * Z := (Year t, Month t, Day t).

(** The wall-clock second count of [hour]:00:00 on the date [t] shows. *)
Definition wallAtHour (t : Time) (hour : Z) : Z :=
  wallSeconds t - wallSeconds t mod 86400 + hour * 3600.

(** The wall clock [wall] exists in [l] where [time.Date] resolves it: the
    zone in force at the resolved instant shows [wall].  It fails only when
    [wall] falls into the gap of a zone transition. *)
Definition wallClockExists (l : Location) (wall : Z) : Prop :=
  resolve_zone l wall + zone_offset l (resolve_zone l wall) = wall.

(** Proof device: [f] holds of [D], [D + 1], ..., [fuel] numbers in all. *)
Fixpoint allFrom (fuel : nat) (D : Z) (f : Z -> bool) : bool :=
  match fuel with
  | O => true
  | S k => f D && allFrom k (D + 1) f
  end.

(** Proof device: [absDate] after its first two steps, from the years [y]
    of the whole 400-year cycles and the day [d] within the cycle. *)
Definition civilFrom (y d : Z) : Z * Z * Z :=
  let n := d / daysPer100Years in
  let n := n - Z.shiftr n 2 in
  let y := y + 100 * n in
  let d := d - daysPer100Years * n in
  let n := d / daysPer4Years in
  let y := y + 4 * n in
  let d := d - daysPer4Years * n in
  let n := d / 365 in
  let n := n - Z.shiftr n 2 in
  let y := y + n in
  let d := d - 365 * n in
  let year := y + absoluteZeroYear in
  let yday := d in
  if isLeap year && (yday =? 31 + 29 - 1) then (year, 2, 29)
  else
    let day := if isLeap year && (yday >? 31 + 29 - 1) then yday - 1 else yday in
    let month := day / 31 in
    let end_ := daysBefore (month + 1) in
    let '(month, begin) :=
      if day >=? end_ then (month + 1, end_) else (month, daysBefore month) in
    (year, month + 1, day - begin + 1).

(** Proof device: day number [D] converts to a date that is well formed and
    converts back to [D]. *)
Definition dateRoundTrips (D : Z) : bool :=
  let '(y, m, d) := absDate (D * secondsPerDay) in
  (1 <=? m) && (m <=? 12) && (1 <=? d) && (d <=? 31)
  && (daysSinceEpoch y m + (d - 1) =? D).

End ScheduleSpec.

Module HookSpec.
Import Hooks.

(** The value of the last event of a list, when that event is a
    contact-language change. *)
Definition lastValue (e : list Event) : option string :=
  match last e with
  | Some (ContactLanguageChangedEvent lang) => Some lang
  | _ => None
  end.

(** The precondition of [Apply]: the list is not empty and its last element
    is a contact-language-changed event. *)
Definition endsWithLanguageChange (e : list Event) : Prop :=
  is_Some (lastValue e).

(** A session "accumulated one or more language-change events": its list
    holds the events for the values [langs], in order, and there is at least
    one. *)
Definition languageChanges (langs : list string) : list Event :=
  ContactLanguageChangedEvent <$> langs.

(** The one mutation row a session stands for: its contact and the last
    value. *)
Definition rowOf (entry : SessionPtr * (Session * list Event)) : languageUpdate :=
  {| lu_ContactID := ContactID entry.2.1;
     lu_Language := default ""%string (lastValue entry.2.2) |}.

End HookSpec.

(** ** Concrete inputs used by the examples below *)
Module Examples.
Import Broadcasts.
Local Open Scope Z_scope.

(** Collaborators that all succeed: the groups expand to [groupMembers], the
    addresses resolve as [urnMap] says. *)
Definition okEnv (groupMembers : list ContactID) (urnMap : gmap URN ContactID)
  : Env := {|
  ContactIDsForGroupIDs := fun _ => (groupMembers, None);
  GetOrgAssets := fun o => Ok {| assets_org := o |};
  GetSessionAssets := fun a => Ok {| session_assets_org := assets_org a |};
  ContactIDsFromURNs := fun _ _ _ => Ok urnMap;
  AddTask := fun _ _ _ _ _ => None;
  CreateBroadcastMessages :=
    fun _ _ b => Ok ((fun c => {| msg_contact := c; msg_urn := None |})
                       <$> batch_ContactIDs b);
  QueueMessages := fun _ => None;
  MarkBroadcastSent := fun _ => None
|}.

(** The same, with a task queue that refuses every task. *)
Definition queueDownEnv (groupMembers : list ContactID)
    (urnMap : gmap URN ContactID) : Env := {|
  ContactIDsForGroupIDs := ContactIDsForGroupIDs (okEnv groupMembers urnMap);
  GetOrgAssets := GetOrgAssets (okEnv groupMembers urnMap);
  GetSessionAssets := GetSessionAssets (okEnv groupMembers urnMap);
  ContactIDsFromURNs := ContactIDsFromURNs (okEnv groupMembers urnMap);
  AddTask := fun _ _ _ _ _ => Some "connection refused"%string;
  CreateBroadcastMessages := CreateBroadcastMessages (okEnv groupMembers urnMap);
  QueueMessages := QueueMessages (okEnv groupMembers urnMap);
  MarkBroadcastSent := MarkBroadcastSent (okEnv groupMembers urnMap)
|}.

(** A broadcast to three addresses and nobody else. *)
Definition threeAddresses : gmap URN ContactID :=
  list_to_map [("tel:+250788000001", 11); ("tel:+250788000002", 12);
               ("tel:+250788000003", 13)]%string.

Definition addressOnlyBroadcast : Broadcast := {|
  BroadcastID_of := 40; OrgID_of := 1;
  ContactIDs := []; GroupIDs := [];
  URNs := ["tel:+250788000001"; "tel:+250788000002"; "tel:+250788000003"]%string
|}.

(** A broadcast to one group. *)
Definition groupBroadcast : Broadcast := {|
  BroadcastID_of := 41; OrgID_of := 1;
  ContactIDs := []; GroupIDs := [7]; URNs := []
|}.

(** A broadcast to a group and to an address of one of its members. *)
Definition overlapBroadcast : Broadcast := {|
  BroadcastID_of := 42; OrgID_of := 1;
  ContactIDs := [1]; GroupIDs := [7]; URNs := ["tel:+250788000002"]%string
|}.

Definition overlapAddresses : gmap URN ContactID :=
  {[ "tel:+250788000002"%string := 2 ]}.

(** The contact ids 1..250. *)
Definition contacts250 : list ContactID := Z.of_nat <$> seq 1 250.

(** A campaign event relative to the contact's creation, with the given
    unit, offset and delivery hour. *)
Definition event (unit : Campaigns.OffsetUnit) (offset hour : Z)
  : Campaigns.CampaignEvent :=
  {| Campaigns.ID := 1; Campaigns.RelativeToKey := Campaigns.CreatedOnKey;
     Campaigns.Offset := offset; Campaigns.Unit := unit;
     Campaigns.DeliveryHour := hour; Campaigns.FlowID := 1 |}.

(** A time given by its Unix second, on the second, in a location and in
    UTC. *)
Definition inLoc (l : GoTime.Location) (sec : Z) : GoTime.Time :=
  {| GoTime.unixSec := sec; GoTime.nsec := 0; GoTime.loc := l |}.

Definition utc (sec : Z) : GoTime.Time := inLoc GoTime.UTC sec.

(** America/New_York during 2024: UTC-5 until 2024-03-10 07:00 UTC, UTC-4
    until 2024-11-03 06:00 UTC, then UTC-5 again. *)
Definition newYork2024 : GoTime.Location :=
  {| GoTime.first_offset := -18000;
     GoTime.tx := [ {| GoTime.when := 1710054000; GoTime.offset := -14400 |};
                    {| GoTime.when := 1730613600; GoTime.offset := -18000 |} ] |}.

(** A session of contact 77 that emitted the language changes to "eng",
    "fra" and "kin", in that order. *)
Definition session1 : Hooks.Session :=
  {| Hooks.SessionID := 1; Hooks.ContactID := 77; Hooks.ContactUUID := "c-77" |}.

Definition threeChanges : Hooks.Sessions :=
  Hooks.AddPreCommitEvent 1%positive session1 (Hooks.ContactLanguageChangedEvent "kin")
    (Hooks.AddPreCommitEvent 1%positive session1 (Hooks.ContactLanguageChangedEvent "fra")
       (Hooks.AddPreCommitEvent 1%positive session1
          (Hooks.ContactLanguageChangedEvent "eng") ∅)).

(** A session with an empty event list, and one whose last event is of
    another kind. *)
Definition emptyEvents : Hooks.Sessions := {[ 1%positive := (session1, []) ]}.

Definition nameChangeLast : Hooks.Sessions :=
  {[ 1%positive := (session1, [Hooks.ContactLanguageChangedEvent "eng";
                                Hooks.ContactNameChangedEvent "Ann"]) ]}.

(** A session whose list starts with a name change and ends with the
    language change to "fra". *)
Definition mixedEvents : Hooks.Sessions :=
  {[ 1%positive := (session1, [Hooks.ContactNameChangedEvent "Ann";
                                Hooks.ContactLanguageChangedEvent "fra"]) ]}.

End Examples.

(* ===================================================================== *)
(** * Part I, continued: the rest of the cited files *)
(* ===================================================================== *)

(** ** broadcasts: the two task handlers *)
Module Handlers.
Import Broadcasts.

(** Modelled from the spec: the task type of a whole broadcast, "dispatch is
    registered per type string (e.g. send_broadcast, send_broadcast_batch)". *)
Definition SendBroadcastType : string := "send_broadcast"%string.

(** [queue.Task]: the type tag, the org and the serialized body. *)
Record Task := { TaskType : string; task_OrgID : OrgID; TaskBody : string }.

Section Handlers.
(** [json.Unmarshal] into a broadcast and into a batch: the decoders of
    [models] are not part of the sources at hand and are taken as they are
    called. *)
Variable unmarshalBroadcast : string -> result Broadcast.
Variable unmarshalBatch : string -> result BroadcastBatch.

(** [handleSendBroadcast] (the time limit set on the context is not
    modelled). *)
Definition handleSendBroadcast (ro : RangeOrder) (env : Env) (task : Task)
  : option string * list effect :=
  (* decode our task body *)
  if negb (String.eqb (TaskType task) SendBroadcastType) then
    (Some ("unknown event type passed to send worker: " +:+ TaskType task), [])
  else
    match unmarshalBroadcast (TaskBody task) with
    | Err err =>
        (Some (Wrapf err ("error unmarshalling broadcast: " +:+ TaskBody task)), [])
    | Ok broadcast => CreateBroadcastBatches ro env broadcast
    end.

(** [handleSendBroadcastBatch]. *)
Definition handleSendBroadcastBatch (env : Env) (task : Task)
  : option string * list effect :=
  (* decode our task body *)
  if negb (String.eqb (TaskType task) SendBroadcastBatchType) then
    (Some ("unknown event type passed to send worker: " +:+ TaskType task), [])
  else
    match unmarshalBatch (TaskBody task) with
    | Err err =>
        (Some (Wrapf err ("error unmarshalling broadcast: " +:+ TaskBody task)), [])
    | Ok broadcast =>
        (* try to send the batch *)
        SendBroadcastBatch env broadcast
    end.
End Handlers.

(** The tasks a run put on the queue: [queue.AddTask] serializes the batch
    with [marshal] into the body of a task of the given type and org. *)
Definition queuedTasks (marshal : BroadcastBatch -> string)
    (effs : list effect) : list Task :=
  omap (fun e =>
          match e with
          | QueuedTask _ ty org b _ =>
              Some {| TaskType := ty; task_OrgID := org; TaskBody := marshal b |}
          | _ => None
          end) effs.

End Handlers.

Module BroadcastSpec2.
Import Broadcasts BroadcastSpec.

(** The contacts of some batches, batch after batch. *)
Definition contactsOf (batches : list (Queue * BroadcastBatch))
  : list ContactID :=
  concat (batch_ContactIDs <$> batches.*2).

(** The contacts of all batches handed to the task queue, batch after
    batch. *)
Definition allBatchContacts (effs : list effect) : list ContactID :=
  contactsOf (queuedBatches effs).

(** The batches that are on the task queue after a run: those handed to it
    that it took.  What the queue answered to a call is what [AddTask]
    answers to the arguments of the call. *)
Definition acceptedBatches (env : Env) (effs : list effect)
  : list (Queue * BroadcastBatch) :=
  omap (fun e =>
          match e with
          | QueuedTask q ty org b p =>
              match AddTask env q ty org b p with
              | None => Some (q, b)
              | Some _ => None
              end
          | _ => None
          end) effs.

(** The batches the task queue refused: the fan-out only logs them. *)
Definition refusedBatches (env : Env) (effs : list effect)
  : list (Queue * BroadcastBatch) :=
  omap (fun e =>
          match e with
          | QueuedTask q ty org b p =>
              match AddTask env q ty org b p with
              | None => None
              | Some _ => Some (q, b)
              end
          | _ => None
          end) effs.

(** Whether the queue takes the batch task of [org] for this batch. *)
Definition accepted (env : Env) (org : OrgID) (qb : Queue * BroadcastBatch)
  : bool :=
  match AddTask env qb.1 SendBroadcastBatchType org qb.2 DefaultPriority with
  | None => true
  | Some _ => false
  end.

(** A task queue that takes every task. *)
Definition queueAccepts (env : Env) : Prop :=
  forall q ty org b p, AddTask env q ty org b p = None.

(** The same collaborators, with a group resolution that reports no
    error. *)
Definition withoutGroupError (env : Env) : Env :=
  {| ContactIDsForGroupIDs := fun g => ((ContactIDsForGroupIDs env g).1, None);
     GetOrgAssets := GetOrgAssets env;
     GetSessionAssets := GetSessionAssets env;
     ContactIDsFromURNs := ContactIDsFromURNs env;
     AddTask := AddTask env;
     CreateBroadcastMessages := CreateBroadcastMessages env;
     QueueMessages := QueueMessages env;
     MarkBroadcastSent := MarkBroadcastSent env |}.

(** The same collaborators, with another answer to marking a broadcast as
    sent. *)
Definition withMarkSent (env : Env) (answer : BroadcastID -> option string)
  : Env :=
  {| ContactIDsForGroupIDs := ContactIDsForGroupIDs env;
     GetOrgAssets := GetOrgAssets env;
     GetSessionAssets := GetSessionAssets env;
     ContactIDsFromURNs := ContactIDsFromURNs env;
     AddTask := AddTask env;
     CreateBroadcastMessages := CreateBroadcastMessages env;
     QueueMessages := QueueMessages env;
     MarkBroadcastSent := answer |}.

(** A task of the fan-out as it should be: for the batch handler, of the
    broadcast and its org, at default priority. *)
Definition wellFormedEffect (bcast : Broadcast) (e : effect) : Prop :=
  match e with
  | QueuedTask _ ty org b p =>
      ty = SendBroadcastBatchType /\ org = OrgID_of bcast /\ p = DefaultPriority
      /\ batch_BroadcastID b = BroadcastID_of bcast
      /\ batch_OrgID b = OrgID_of bcast
  | LoggedError msg _ => msg = "error while queuing broadcast batch"%string
  | QueuedToCourier _ => False
  | MarkedBroadcastSent _ => False
  end.

(** The messages a run handed to courier, hand-over after hand-over. *)
Definition courierHandovers (effs : list effect) : list (list Msg) :=
  omap (fun e => match e with QueuedToCourier msgs => Some msgs | _ => None end)
    effs.

(** How often the broadcast [id] is marked as sent when every batch of
    [batches] is sent, one after the other. *)
Definition marksWhenSent (env : Env) (id : BroadcastID)
    (batches : list BroadcastBatch) : nat :=
  sum_list_with (fun b => markedSent id (SendBroadcastBatch env b).2) batches.

End BroadcastSpec2.

Module ScheduleSpec2.
Import GoTime Campaigns ScheduleSpec.
Local Open Scope Z_scope.

(** Every offset of the location is a whole number of minutes (true of
    every zone in use today; false of some local mean times of the
    past). *)
Definition wholeMinuteZone (l : Location) : Prop :=
  first_offset l mod 60 = 0 /\ Forall (fun tr => offset tr mod 60 = 0) (tx l).

(** The four units the scheduler knows. *)
Definition knownUnits : list OffsetUnit :=
  [OffsetMinute; OffsetHour; OffsetDay; OffsetWeek].

End ScheduleSpec2.

(** ** models: scheduling a campaign event for a contact *)
Module CampaignContacts.
Import GoTime Campaigns.
Local Open Scope Z_scope.

(** [Campaign]: the fields of the struct; the events are kept apart, each
    event points back to its campaign. *)
Record Campaign := {
  campaign_ID : Z;
  campaign_UUID : string;
  campaign_Name : string;
  GroupID : Z;
  GroupUUID : string;
  GroupName : string
}.

(** What [Value.QueryValue()] of the flow engine gives for a field value:
    a time for a date field, something else otherwise. *)
Inductive QueryValue :=
  | QueryTime (t : Time)
  | QueryNumber (n : Z)
  | QueryText (s : string)
  | QueryNil.

(** [flows.Contact], by what the scheduler asks of it: the UUIDs of its
    groups, its field values by key (a missing key is the [nil] value) and
    its creation time. *)
Record Contact := {
  Groups : list string;
  Fields : gmap string QueryValue;
  CreatedOn : Time
}.

(** [QualifiesByGroup]: [campaign] is what [e.Campaign()] points to. *)
Definition QualifiesByGroup (campaign : Campaign) (contact : Contact) : bool :=
  existsb (String.eqb (GroupUUID campaign)) (Groups contact).

(** [QualifiesByField]. *)
Definition QualifiesByField (e : CampaignEvent) (contact : Contact) : bool :=
  if String.eqb (RelativeToKey e) CreatedOnKey then true
  else
    match Fields contact !! RelativeToKey e with
    | Some _ => true
    | None => false
    end.

Section ScheduleForContact.
(** How [errors.Wrapf] prints the start and the event id into its
    message. *)
Variable showTime : Time -> string.
Variable showID : Z -> string.

(** [ScheduleForContact]. *)
Definition ScheduleForContact (campaign : Campaign) (e : CampaignEvent)
    (tz : Location) (now : Time) (contact : Contact) : result (option Time) :=
  (* we aren't part of the group, move on *)
  if negb (QualifiesByGroup campaign contact) then Ok None
  else
    let start : option Time :=
      (* created on is a special case *)
      if String.eqb (RelativeToKey e) CreatedOnKey then Some (CreatedOn contact)
      else
        (* everything else is just a normal field *)
        match Fields contact !! RelativeToKey e with
        | None => None                       (* no value? move on *)
        | Some (QueryTime t) => Some t
        | Some _ => None                     (* nil or not a date? move on *)
        end in
    match start with
    | None => Ok None
    | Some start =>
        (* calculate our next fire *)
        match ScheduleForTime e tz now start with
        | Err err =>
            Err ("error calculating offset for start: " +:+ showTime start
                 +:+ " and event: " +:+ showID (ID e) +:+ ": " +:+ err)
        | Ok scheduled => Ok scheduled
        end
    end.
End ScheduleForContact.

(** The start a contact gives an event, if any: its creation time, or the
    value of the event's field when that is a date. *)
Definition startFor (e : CampaignEvent) (contact : Contact) : option Time :=
  if decide (RelativeToKey e = CreatedOnKey) then Some (CreatedOn contact)
  else
    match Fields contact !! RelativeToKey e with
    | Some (QueryTime t) => Some t
    | _ => None
    end.

(** *** A concrete campaign *)

Definition reminders : Campaign :=
  {| campaign_ID := 3; campaign_UUID := "c-3"; campaign_Name := "Reminders";
     GroupID := 12; GroupUUID := "g-12"; GroupName := "Doctors" |}.

(** An event one day after the field [due]. *)
Definition dueEvent : CampaignEvent :=
  {| ID := 4; RelativeToKey := "due"; Offset := 1; Unit := OffsetDay;
     DeliveryHour := NilDeliveryHour; FlowID := 1 |}.

(** A doctor whose field [due] holds a text. *)
Definition textContact : Contact :=
  {| Groups := ["g-12"%string];
     Fields := {[ "due"%string := QueryText "soon" ]};
     CreatedOn := {| unixSec := 1717236000; nsec := 0; loc := UTC |} |}.

End CampaignContacts.

(** ** hooks: the handler that feeds the commit hook *)
Module HookHandlers.
Import Hooks.

(** The debug entry the handler logs. *)
Record debugEntry := {
  log_contact_uuid : string;
  log_session_id : Z;
  log_language : string
}.

(** [handleContactLanguageChanged]: the type assertion panics on any other
    event; the session then holds the event for the commit hook.  The
    result is the sessions, the entry logged and the error returned, always
    [nil]. *)
Definition handleContactLanguageChanged (p : SessionPtr) (session : Session)
    (e : Event) (sessions : Sessions)
  : outcome (Sessions * debugEntry * option string) :=
  match e with
  | ContactLanguageChangedEvent lang =>
      Returns (AddPreCommitEvent p session e sessions,
               {| log_contact_uuid := ContactUUID session;
                  log_session_id := SessionID session;
                  log_language := lang |},
               None)
  | _ => Panics "interface conversion"
  end.

(** Handling the events of a run, in the order they were produced: each
    comes with the pointer of its session, [deref] gives the session a
    pointer points to. *)
Fixpoint handleEvents (deref : SessionPtr -> Session)
    (evs : list (SessionPtr * Event)) (sessions : Sessions) : outcome Sessions :=
  match evs with
  | [] => Returns sessions
  | (p, e) :: rest =>
      match handleContactLanguageChanged p (deref p) e sessions with
      | Panics msg => Panics msg
      | Returns (sessions', _, _) => handleEvents deref rest sessions'
      end
  end.

(** The language values among the events of session [p], in order. *)
Definition languagesOf (p : SessionPtr) (evs : list (SessionPtr * Event))
  : list string :=
  omap (fun pe : SessionPtr * Event =>
          if decide (pe.1 = p) then
            match pe.2 with
            | ContactLanguageChangedEvent lang => Some lang
            | _ => None
            end
          else None) evs.

End HookHandlers.

Module Examples2.
Import Hooks.

(** The session a pointer points to: session [p] of contact [70 + p]. *)
Definition sessionAt (p : SessionPtr) : Session :=
  {| SessionID := Z.pos p; ContactID := 70 + Z.pos p; ContactUUID := "contact" |}.

(** Two sessions changing language, the first one twice. *)
Definition interleavedEvents : list (SessionPtr * Event) :=
  [(1%positive, ContactLanguageChangedEvent "eng");
   (2%positive, ContactLanguageChangedEvent "fra");
   (1%positive, ContactLanguageChangedEvent "kin")].

End Examples2.

(** ** models: the event fire store *)
Module EventFires.
Import GoTime.
Local Open Scope Z_scope.

(** How an event fire was fired. *)
Definition FireResultFired : string := "F"%string.
Definition FireResultSkipped : string := "S"%string.

(** [EventFire]: a single campaign event fire for an event and contact, and
    a row of the table [campaigns_eventfire].  [FiredResult] is a
    [null.String]: the empty string is SQL's NULL. *)
Record EventFire := {
  FireID : Z;
  EventID : Z;
  ContactID : Z;
  Scheduled : Time;
  Fired : option Time;
  FiredResult : string
}.

Record FireDelete := { delete_ContactID : Z; delete_EventID : Z }.

Record FireAdd := { add_ContactID : Z; add_EventID : Z; add_Scheduled : Time }.

(** The database: the rows of [campaigns_eventfire] and the next value of
    its id sequence. *)
Record DB := { table : list EventFire; nextID : Z }.

(** [fired IS NULL]. *)
Definition unfired (r : EventFire) : bool :=
  match Fired r with None => true | Some _ => false end.

(** The statement [deleteEventFires]:
    DELETE FROM campaigns_eventfire WHERE id = ANY($1) AND fired IS NULL. *)
Definition deleteEventFiresSQL (ids : list Z) (db : DB) : DB :=
  {| table :=
       List.filter
         (fun r => negb (existsb (Z.eqb (FireID r)) ids && unfired r))
         (table db);
     nextID := nextID db |}.

(** The statement of [DeleteUnfiredContactEvents]:
    DELETE FROM campaigns_eventfire WHERE contact_id = $1 AND fired IS NULL. *)
Definition deleteUnfiredContactSQL (contactID : Z) (db : DB) : DB :=
  {| table :=
       List.filter (fun r => negb ((ContactID r =? contactID) && unfired r))
         (table db);
     nextID := nextID db |}.

(** The statement [removeUnfiredFiresSQL], its VALUES list filled with
    [removes]: it deletes the rows whose contact and event are those of one
    of the values and whose [fired] is NULL. *)
Definition removeUnfiredFiresSQL (removes : list FireDelete) (db : DB) : DB :=
  {| table :=
       List.filter
         (fun r =>
            negb (existsb (fun f => (ContactID r =? delete_ContactID f)
                                    && (EventID r =? delete_EventID f)) removes
                  && unfired r))
         (table db);
     nextID := nextID db |}.

(** The statement [insertEventFiresSQL], its VALUES list filled with
    [adds]: one new row for each value, with the next ids of the sequence,
    not fired. *)
Fixpoint insertEventFiresSQL (adds : list FireAdd) (db : DB) : DB :=
  match adds with
  | [] => db
  | a :: rest =>
      insertEventFiresSQL rest
        {| table :=
             table db ++ [ {| FireID := nextID db;
                              EventID := add_EventID a;
                              ContactID := add_ContactID a;
                              Scheduled := add_Scheduled a;
                              Fired := None;
                              FiredResult := "" |} ];
           nextID := nextID db + 1 |}
  end.

(** The statement [markEventsFired], its VALUES list filled with
    [updates]: every row whose id is that of one of the values takes its
    [fired] and [fired_result].  Where several values carry the id of a row
    the database uses one of them, here the first; [MarkEventsFired] gives
    all its values the same [fired] and [fired_result]. *)
Definition markEventsFiredSQL (updates : list EventFire) (db : DB) : DB :=
  {| table :=
       (fun r =>
          match List.find (fun u => FireID u =? FireID r) updates with
          | Some u =>
              {| FireID := FireID r; EventID := EventID r;
                 ContactID := ContactID r; Scheduled := Scheduled r;
                 Fired := Fired u; FiredResult := FiredResult u |}
          | None => r
          end) <$> table db;
     nextID := nextID db |}.

(** The query [loadEventFireSQL]: the rows with one of the ids and [fired]
    NULL; [fired_result] is not selected and stays empty in what is
    scanned. *)
Definition loadEventFireSQL (ids : list Z) (db : DB) : list EventFire :=
  (fun r =>
     {| FireID := FireID r; EventID := EventID r; ContactID := ContactID r;
        Scheduled := Scheduled r; Fired := Fired r; FiredResult := "" |})
  <$> List.filter (fun r => existsb (Z.eqb (FireID r)) ids && unfired r)
        (table db).

(** Modelled from the spec: [BulkSQL], which is not part of the sources at
    hand.  "Builds one statement that updates/inserts all rows in a single
    round trip, inside the caller's transaction - either all rows succeed or
    the whole call fails.  Failure is reported as a wrapped error naming the
    label."  [dberr] is what the database answers. *)
Definition BulkSQL {A : Type} (dberr : option string) (label : string)
    (statement : list A -> DB -> DB) (rows : list A) (db : DB)
  : DB * option string :=
  match dberr with
  | Some err => (db, Some (Broadcasts.Wrapf err label))
  | None => (statement rows db, None)
  end.

(** The fires in memory: a pointer to an [EventFire] is its address. *)
Abbreviation Heap := (gmap positive EventFire).

(** The loop of [MarkEventsFired]: set fired on all our values.  A pointer
    that is not in the heap is [nil]. *)
Fixpoint markFired (heap : Heap) (fires : list positive) (fired : Time)
    (result : string) : outcome Heap :=
  match fires with
  | [] => Returns heap
  | f :: rest =>
      match heap !! f with
      | None => Panics "nil pointer dereference"
      | Some r =>
          markFired
            (<[f := {| FireID := FireID r; EventID := EventID r;
                       ContactID := ContactID r; Scheduled := Scheduled r;
                       Fired := Some fired; FiredResult := result |}]> heap)
            rest fired result
      end
  end.

(** [MarkEventsFired]: the fires in memory are updated first, then the
    rows read through the pointers go to the database in one statement. *)
Definition MarkEventsFired (dberr : option string) (db : DB) (heap : Heap)
    (fires : list positive) (fired : Time) (result : string)
  : outcome (Heap * DB * option string) :=
  match markFired heap fires fired result with
  | Panics msg => Panics msg
  | Returns heap' =>
      let updates := omap (fun f => heap' !! f) fires in
      let '(db', err) :=
        BulkSQL dberr "mark events fired" markEventsFiredSQL updates db in
      Returns (heap', db', err)
  end.

(** [DeleteEventFires]. *)
Definition DeleteEventFires (dberr : option string) (db : DB)
    (fires : list EventFire) : DB * option string :=
  (* build our list of ids *)
  let ids := FireID <$> fires in
  match dberr with
  | Some err =>
      (db, Some (Broadcasts.Wrapf err "error deleting fires for inactive event"))
  | None => (deleteEventFiresSQL ids db, None)
  end.

(** [LoadEventFires]: [inErr] is what [sqlx.In] answers when it expands the
    list of ids, [dberr] what the query answers. *)
Definition LoadEventFires (inErr dberr : option string) (db : DB)
    (ids : list Z) : result (list EventFire) :=
  match inErr with
  | Some err => Err (Broadcasts.Wrapf err "error rebinding campaign fire query")
  | None =>
      match dberr with
      | Some err => Err (Broadcasts.Wrapf err "error querying event fires")
      | None => Ok (loadEventFireSQL ids db)
      end
  end.

(** [DeleteUnfiredEventFires]. *)
Definition DeleteUnfiredEventFires (dberr : option string) (db : DB)
    (removes : list FireDelete) : DB * option string :=
  if (length removes =? 0)%nat then (db, None)
  else BulkSQL dberr "removing campaign event fires" removeUnfiredFiresSQL
         removes db.

(** [DeleteUnfiredContactEvents]. *)
Definition DeleteUnfiredContactEvents (dberr : option string) (db : DB)
    (contactID : Z) : DB * option string :=
  match dberr with
  | Some err =>
      (db, Some (Broadcasts.Wrapf err "error deleting unfired contact events"))
  | None => (deleteUnfiredContactSQL contactID db, None)
  end.

(** [AddEventFires]. *)
Definition AddEventFires (dberr : option string) (db : DB)
    (adds : list FireAdd) : DB * option string :=
  if (length adds =? 0)%nat then (db, None)
  else BulkSQL dberr "adding campaign event fires" insertEventFiresSQL adds db.

(** *** Vocabulary *)

(** A fire as [MarkEventsFired] leaves it. *)
Definition markedFire (fired : Time) (result : string) (r : EventFire)
  : EventFire :=
  {| FireID := FireID r; EventID := EventID r; ContactID := ContactID r;
     Scheduled := Scheduled r; Fired := Some fired; FiredResult := result |}.

(** The rows that have been fired: the history. *)
Definition firedRows (db : DB) : list EventFire :=
  List.filter (fun r => negb (unfired r)) (table db).

(** The unfired rows of contact [c] for event [e]. *)
Definition unfiredFor (c e : Z) (db : DB) : list EventFire :=
  List.filter (fun r => (ContactID r =? c) && (EventID r =? e) && unfired r)
    (table db).

(** Fire uniqueness: at most one unfired row for every event and contact. *)
Definition fireUnique (db : DB) : Prop :=
  forall c e, (length (unfiredFor c e db) <= 1)%nat.

(** The (contact, event) pairs of a list of deletions and of additions. *)
Definition deletePairs (removes : list FireDelete) : list (Z * Z) :=
  (fun f => (delete_ContactID f, delete_EventID f)) <$> removes.

Definition addPairs (adds : list FireAdd) : list (Z * Z) :=
  (fun a => (add_ContactID a, add_EventID a)) <$> adds.

(** *** Concrete fires *)

(** An unfired fire of event [e] for contact [c], with id [id], scheduled
    at Unix second [sec]. *)
Definition pendingFire (id e c sec : Z) : EventFire :=
  {| FireID := id; EventID := e; ContactID := c;
     Scheduled := {| unixSec := sec; nsec := 0; loc := UTC |};
     Fired := None; FiredResult := "" |}.

Definition noon : Time := {| unixSec := 1717243200; nsec := 0; loc := UTC |}.

(** Two fires in memory. *)
Definition twoFires : Heap :=
  {[ 1%positive := pendingFire 501 9 77 1717236060;
     2%positive := pendingFire 502 9 78 1717236060 ]}.

(** A table with one fired row and two unfired rows of contact 77. *)
Definition smallDB : DB :=
  {| table := [ markedFire noon FireResultFired (pendingFire 500 8 77 1717000000);
                pendingFire 501 9 77 1717236060;
                pendingFire 502 9 78 1717236060 ];
     nextID := 503 |}.

End EventFires.

(* ===================================================================== *)
(** * Part II: lemmas and theorems *)
(* ===================================================================== *)

(** ** Broadcast fan-out *)
Section BroadcastFacts.
Import Broadcasts BroadcastSpec.

Lemma foldl_add_set (l : list ContactID) (s : gset ContactID) :
  foldl (fun s id => {[id]} ∪ s) s l = list_to_set l ∪ s.
Proof.
  revert s. induction l as [|x l IH]; intros s; simpl.
  - set_solver.
  - rewrite IH. set_solver.
Qed.

(** *** The loop over the resolved addresses *)

Lemma urnLoop_spec (l : list (URN * ContactID)) :
  forall (C : gset ContactID) (R U : gmap ContactID URN),
  exists R' U',
    foldl urnStep (C, R, U) l = (C ∖ ids l, R', U')
    /\ dom R' = dom R ∪ (C ∩ ids l)
    /\ dom U' = dom U ∪ ids l
    /\ (forall c u, U' !! c = Some u -> U !! c = Some u \/ (u, c) ∈ l)
    /\ (forall c u, R' !! c = Some u -> R !! c = Some u \/ (u, c) ∈ l).
Proof.
  induction l as [|[u id] l IH]; intros C R U; simpl.
  - exists R, U. unfold ids; simpl. split; [|repeat split; auto; set_solver].
    f_equal. f_equal. set_solver.
  - case_bool_decide as Hin.
    + destruct (IH (C ∖ {[id]}) (<[id:=u]> R) (<[id:=u]> U))
        as (R' & U' & -> & HR & HU & HUv & HRv).
      exists R', U'. unfold ids in *; simpl. repeat split.
      * f_equal. f_equal. set_solver.
      * rewrite HR, dom_insert_L. apply set_eq; intros x.
        destruct (decide (x = id)); set_solver.
      * rewrite HU, dom_insert_L. set_solver.
      * intros c v Hc. destruct (HUv c v Hc) as [H|H]; [|set_solver].
        apply lookup_insert_Some in H as [[-> ->]|[_ H]]; [set_solver|auto].
      * intros c v Hc. destruct (HRv c v Hc) as [H|H]; [|set_solver].
        apply lookup_insert_Some in H as [[-> ->]|[_ H]]; [set_solver|auto].
    + destruct (IH C R (<[id:=u]> U)) as (R' & U' & -> & HR & HU & HUv & HRv).
      exists R', U'. unfold ids in *; simpl. repeat split.
      * f_equal. f_equal. set_solver.
      * rewrite HR. set_solver.
      * rewrite HU, dom_insert_L. set_solver.
      * intros c v Hc. destruct (HUv c v Hc) as [H|H]; [|set_solver].
        apply lookup_insert_Some in H as [[-> ->]|[_ H]]; [set_solver|auto].
      * intros c v Hc. destruct (HRv c v Hc) as [H|H]; [|set_solver]. auto.
Qed.

Lemma ids_range_map (ro : RangeOrder) (urnMap : gmap URN ContactID) :
  ids (range_map ro urnMap) = urnRecipients urnMap.
Proof.
  unfold ids, urnRecipients. apply set_eq; intros c.
  rewrite elem_of_list_to_set, elem_of_map_img, list_elem_of_fmap.
  split.
  - intros ([u c'] & -> & Hin). exists u.
    rewrite (range_map_perm ro) in Hin. by apply elem_of_map_to_list in Hin.
  - intros [u Hu]. exists (u, c). split; [done|].
    rewrite (range_map_perm ro). by apply elem_of_map_to_list.
Qed.

(** *** Reading the queued batches off the effects *)

Lemma queuedBatches_app (l1 l2 : list effect) :
  queuedBatches (l1 ++ l2) = queuedBatches l1 ++ queuedBatches l2.
Proof. unfold queuedBatches. apply omap_app. Qed.

Lemma queuedBatches_attempt env q org b :
  queuedBatches (attempt env q org b) = [(q, b)].
Proof.
  unfold attempt.
  destruct (AddTask env q SendBroadcastBatchType org b DefaultPriority);
    reflexivity.
Qed.

(** *** The loop that builds up the batches *)

Section BatchLoop.
Variable ro : RangeOrder.
Variable env : Env.
Variable bcast : Broadcast.
Variable q : Queue.
Variable R U : gmap ContactID URN.

Lemma queueBatch_effects isLast st :
  effects (queueBatch ro env bcast q R U isLast st)
  = effects st
    ++ attempt env q (OrgID_of bcast)
         (if isLast
          then terminalBatch bcast (contacts st ++ (range_map ro R).*1) U
          else CreateBatch bcast (contacts st)).
Proof. destruct isLast; reflexivity. Qed.

Lemma batchLoop_spec (l : list ContactID) :
  forall st, (length (contacts st) <= startBatchSize)%nat ->
  exists fulls,
    let st' := foldl (batchStep ro env bcast q R U) st l in
    effects st' = effects st ++ attempts env bcast q fulls
    /\ Forall (fun cs => length cs = startBatchSize) fulls
    /\ concat fulls ++ contacts st' = contacts st ++ l
    /\ (length (contacts st') <= startBatchSize)%nat
    /\ (contacts st ≠ [] \/ l ≠ [] -> contacts st' ≠ []).
Proof.
  induction l as [|c l IH]; intros st Hlen; simpl.
  - exists []. unfold attempts; simpl. rewrite !app_nil_r.
    repeat split; auto. intros [H|H]; done.
  - destruct (length (contacts st) =? startBatchSize)%nat eqn:Hfull.
    + apply Nat.eqb_eq in Hfull.
      set (st1 := batchStep ro env bcast q R U st c).
      assert (Hc1 : contacts st1 = [c])
        by (unfold st1, batchStep; rewrite Hfull; reflexivity).
      assert (He1 : effects st1
                    = effects st ++ attempt env q (OrgID_of bcast)
                                      (CreateBatch bcast (contacts st)))
        by (unfold st1, batchStep; rewrite Hfull; reflexivity).
      destruct (IH st1) as (fulls & He & Hf & Hc & Hl & Hne).
      { rewrite Hc1. unfold startBatchSize. simpl. lia. }
      exists (contacts st :: fulls). cbn zeta in *. fold st1.
      split; [|split; [|split; [|split]]].
      * rewrite He, He1. unfold attempts. simpl. by rewrite <- !app_assoc.
      * by constructor.
      * simpl. rewrite <- app_assoc, Hc, Hc1. done.
      * done.
      * intros _. apply Hne. left. by rewrite Hc1.
    + apply Nat.eqb_neq in Hfull.
      set (st1 := batchStep ro env bcast q R U st c).
      assert (Hc1 : contacts st1 = contacts st ++ [c])
        by (unfold st1, batchStep; rewrite (proj2 (Nat.eqb_neq _ _) Hfull);
            reflexivity).
      assert (He1 : effects st1 = effects st)
        by (unfold st1, batchStep; rewrite (proj2 (Nat.eqb_neq _ _) Hfull);
            reflexivity).
      destruct (IH st1) as (fulls & He & Hf & Hc & Hl & Hne).
      { rewrite Hc1, length_app. simpl. lia. }
      exists fulls. cbn zeta in *. fold st1.
      split; [|split; [|split; [|split]]].
      * by rewrite He, He1.
      * done.
      * rewrite Hc, Hc1, <- app_assoc. done.
      * done.
      * intros _. apply Hne. left. rewrite Hc1. by destruct (contacts st).
Qed.
End BatchLoop.

(** The batches queued do not depend on what the task queue answers. *)
Lemma batchLoop_queue_independent ro env1 env2 bcast q R U
    (l : list ContactID) :
  forall st1 st2,
    contacts st1 = contacts st2 ->
    queuedBatches (effects st1) = queuedBatches (effects st2) ->
    let st1' := foldl (batchStep ro env1 bcast q R U) st1 l in
    let st2' := foldl (batchStep ro env2 bcast q R U) st2 l in
    contacts st1' = contacts st2'
    /\ queuedBatches (effects st1') = queuedBatches (effects st2').
Proof.
  induction l as [|c l IH]; intros st1 st2 Hc He; [done|].
  simpl. apply IH.
  - unfold batchStep. rewrite Hc.
    destruct (length (contacts st2) =? startBatchSize)%nat; simpl; congruence.
  - unfold batchStep, queueBatch. rewrite Hc.
    destruct (length (contacts st2) =? startBatchSize)%nat; simpl; [|done].
    rewrite !queuedBatches_app, He. f_equal.
    apply (eq_trans (queuedBatches_attempt env1 q (OrgID_of bcast) _)).
    symmetry. apply (queuedBatches_attempt env2 q (OrgID_of bcast) _).
Qed.

(** *** The whole fan-out *)

Lemma contactIDs_built (env : Env) (bcast : Broadcast) :
  foldl (fun s id => {[id]} ∪ s)
    (foldl (fun s id => {[id]} ∪ s) ∅ (ContactIDs bcast))
    (ContactIDsForGroupIDs env (GroupIDs bcast)).1
  = targetContacts env bcast.
Proof.
  rewrite !foldl_add_set. unfold targetContacts.
  rewrite list_to_set_app_L. set_solver.
Qed.

(** When the lookups succeed, the run returns [nil] after queueing some
    full batches and then the terminal one. *)
Lemma CreateBroadcastBatches_run (ro : RangeOrder) (env : Env)
    (bcast : Broadcast) (urnMap : gmap URN ContactID) :
  resolvedURNs env bcast = Some urnMap ->
  exists (fulls : list (list ContactID)) (remainder : list ContactID)
         (R U : gmap ContactID URN),
    CreateBroadcastBatches ro env bcast
    = (None,
       attempts env bcast (chosenQueue env bcast) fulls
       ++ attempt env (chosenQueue env bcast) (OrgID_of bcast)
            (terminalBatch bcast (remainder ++ (range_map ro R).*1) U))
    /\ Forall (fun cs => length cs = startBatchSize) fulls
    /\ concat fulls ++ remainder
       = range_set ro (targetContacts env bcast ∖ urnRecipients urnMap)
    /\ (length remainder <= startBatchSize)%nat
    /\ (targetContacts env bcast ∖ urnRecipients urnMap ≠ ∅ -> remainder ≠ [])
    /\ dom R = targetContacts env bcast ∩ urnRecipients urnMap
    /\ dom U = urnRecipients urnMap
    /\ (forall c u, U !! c = Some u -> urnMap !! u = Some c).
Proof.
  intros Hres. unfold resolvedURNs in Hres.
  unfold CreateBroadcastBatches.
  pose proof (contactIDs_built env bcast) as HC.
  destruct (ContactIDsForGroupIDs env (GroupIDs bcast)) as [groupContactIDs gerr].
  simpl in HC. rewrite HC. clear HC.
  destruct (GetOrgAssets env (OrgID_of bcast)) as [org|]; [|done].
  destruct (GetSessionAssets env org) as [sa|]; [|done].
  destruct (ContactIDsFromURNs env org sa (URNs bcast)) as [m|]; [|done].
  injection Hres as ->.
  destruct (urnLoop_spec (range_map ro urnMap) (targetContacts env bcast) ∅ ∅)
    as (R & U & -> & HR & HU & HUv & _).
  rewrite ids_range_map in *. rewrite dom_empty_L in *.
  set (st0 := {| contacts := []; err := None; effects := [] |}).
  destruct (batchLoop_spec ro env bcast (chosenQueue env bcast) R U
              (range_set ro (targetContacts env bcast ∖ urnRecipients urnMap))
              st0) as (fulls & He & Hf & Hc & Hl & Hne).
  { simpl. lia. }
  cbn zeta in *. fold (chosenQueue env bcast).
  exists fulls, (contacts (foldl (batchStep ro env bcast (chosenQueue env bcast) R U) st0
                   (range_set ro (targetContacts env bcast ∖ urnRecipients urnMap)))), R, U.
  split; [|split; [|split; [|split; [|split; [|split; [|split]]]]]].
  - rewrite queueBatch_effects, He. reflexivity.
  - done.
  - by rewrite Hc.
  - done.
  - intros Hnonempty. apply Hne. right. intros Hnil.
    apply Hnonempty. apply set_eq; intros x.
    rewrite <- elem_of_elements, <- (range_set_perm ro), Hnil. set_solver.
  - rewrite HR. set_solver.
  - rewrite HU. set_solver.
  - intros c u Hcu. destruct (HUv c u Hcu) as [H|H]; [done|].
    rewrite (range_map_perm ro) in H. by apply elem_of_map_to_list in H.
Qed.

Lemma CreateBroadcastBatches_queue_independent ro env1 env2 bcast :
  ContactIDsForGroupIDs env1 = ContactIDsForGroupIDs env2 ->
  GetOrgAssets env1 = GetOrgAssets env2 ->
  GetSessionAssets env1 = GetSessionAssets env2 ->
  ContactIDsFromURNs env1 = ContactIDsFromURNs env2 ->
  queuedBatches (CreateBroadcastBatches ro env1 bcast).2
  = queuedBatches (CreateBroadcastBatches ro env2 bcast).2.
Proof.
  intros Hg Ho Hs Hu. unfold CreateBroadcastBatches. rewrite Hg, Ho, Hs, Hu.
  destruct (ContactIDsForGroupIDs env2 (GroupIDs bcast)) as [groupContactIDs gerr].
  destruct (GetOrgAssets env2 (OrgID_of bcast)) as [org|]; [|done].
  destruct (GetSessionAssets env2 org) as [sa|]; [|done].
  destruct (ContactIDsFromURNs env2 org sa (URNs bcast)) as [m|]; [|done].
  match goal with
  | |- context [foldl urnStep ?a ?l] => destruct (foldl urnStep a l) as [[C R] U]
  end.
  match goal with
  | |- context [if ?b then HandlerQueue else BatchQueue] =>
      set (q := if b then HandlerQueue else BatchQueue)
  end.
  set (st0 := {| contacts := []; err := None; effects := [] |}).
  destruct (batchLoop_queue_independent ro env1 env2 bcast q R U
              (range_set ro C) st0 st0 eq_refl eq_refl) as [Hc He].
  cbn zeta in Hc, He. cbn [snd].
  rewrite !queueBatch_effects, !queuedBatches_app, He, Hc.
  f_equal.
  apply (eq_trans (queuedBatches_attempt env1 q (OrgID_of bcast) _)).
  symmetry. apply (queuedBatches_attempt env2 q (OrgID_of bcast) _).
Qed.

(** When one of the lookups fails, its error comes back wrapped and
    nothing has been queued. *)
Lemma CreateBroadcastBatches_load_error (ro : RangeOrder) (env : Env)
    (bcast : Broadcast) :
  resolvedURNs env bcast = None ->
  exists e, CreateBroadcastBatches ro env bcast = (Some e, []).
Proof.
  unfold resolvedURNs, CreateBroadcastBatches.
  destruct (ContactIDsForGroupIDs env (GroupIDs bcast)) as [groupContactIDs gerr].
  destruct (GetOrgAssets env (OrgID_of bcast)) as [org|]; [|eauto].
  destruct (GetSessionAssets env org) as [sa|]; [|eauto].
  destruct (ContactIDsFromURNs env org sa (URNs bcast)) as [m|]; [done|eauto].
Qed.

Lemma attempts_cons env bcast q cs (fulls : list (list ContactID)) :
  attempts env bcast q (cs :: fulls)
  = attempt env q (OrgID_of bcast) (CreateBatch bcast cs)
    ++ attempts env bcast q fulls.
Proof. reflexivity. Qed.

Lemma queuedBatches_attempts env bcast q (fulls : list (list ContactID)) :
  queuedBatches (attempts env bcast q fulls)
  = (fun cs => (q, CreateBatch bcast cs)) <$> fulls.
Proof.
  induction fulls as [|cs fulls IH]; [reflexivity|].
  rewrite attempts_cons, queuedBatches_app, queuedBatches_attempt, IH.
  reflexivity.
Qed.

(** The effects are the attempts on the queued batches, one after the
    other: each task, then its log entry if the queue refused it. *)
Lemma attempts_of_queuedBatches env bcast q (fulls : list (list ContactID)) b :
  let effs := attempts env bcast q fulls ++ attempt env q (OrgID_of bcast) b in
  effs = queuedBatches effs ≫= (fun qb => attempt env qb.1 (OrgID_of bcast) qb.2).
Proof.
  cbn zeta. rewrite queuedBatches_app, queuedBatches_attempt, bind_app.
  f_equal; [|by rewrite bind_cons, app_nil_r].
  rewrite queuedBatches_attempts.
  induction fulls as [|cs fulls IH]; [reflexivity|].
  rewrite attempts_cons, fmap_cons, bind_cons. simpl. by rewrite <- IH.
Qed.

Lemma elem_of_concat_of (x : ContactID) (cs : list ContactID)
    (fulls : list (list ContactID)) :
  cs ∈ fulls -> x ∈ cs -> x ∈ concat fulls.
Proof.
  induction 1 as [cs fulls|cs cs' fulls _ IH]; intros Hx;
    rewrite concat_cons, elem_of_app; auto.
Qed.

Lemma length_concat_full (fulls : list (list ContactID)) :
  Forall (fun cs => length cs = startBatchSize) fulls ->
  length (concat fulls) = (startBatchSize * length fulls)%nat.
Proof.
  induction 1 as [|cs fulls Hcs _ IH]; [reflexivity|].
  rewrite concat_cons, length_app, IH, Hcs, length_cons.
  unfold startBatchSize. lia.
Qed.

Lemma occurrences_not_in (c : ContactID) (l : list ContactID) :
  c ∉ l -> occurrences c l = 0%nat.
Proof.
  unfold occurrences. induction l as [|x l IH]; intros Hc; [reflexivity|].
  rewrite filter_cons. case_decide as Hx.
  - subst. exfalso. apply Hc. by left.
  - apply IH. intros Hin. apply Hc. by right.
Qed.

Lemma occurrences_NoDup (c : ContactID) (l : list ContactID) :
  NoDup l -> c ∈ l -> occurrences c l = 1%nat.
Proof.
  unfold occurrences. induction 1 as [|x l Hx Hnd IH]; intros Hc.
  - by apply elem_of_nil in Hc.
  - rewrite filter_cons. case_decide as Heq.
    + subst. simpl. f_equal. by apply (occurrences_not_in c l).
    + apply IH. apply elem_of_cons in Hc as [->|Hc]; done.
Qed.

Lemma occurrences_app (c : ContactID) (l1 l2 : list ContactID) :
  occurrences c (l1 ++ l2) = (occurrences c l1 + occurrences c l2)%nat.
Proof. unfold occurrences. by rewrite filter_app, length_app. Qed.

(** [range] visits every key of a map once. *)
Lemma range_map_keys (ro : RangeOrder) (R : gmap ContactID URN) :
  NoDup (range_map ro R).*1 /\ (forall c, c ∈ (range_map ro R).*1 <-> c ∈ dom R).
Proof.
  assert (Hp : (range_map ro R).*1 ≡ₚ (map_to_list R).*1)
    by (by rewrite (range_map_perm ro)).
  split.
  - rewrite Hp. apply NoDup_fst_map_to_list.
  - intros c. rewrite Hp, elem_of_dom, list_elem_of_fmap. split.
    + intros ([c' u] & -> & Hin). apply elem_of_map_to_list in Hin. eauto.
    + intros [u Hu]. exists (c, u). split; [done|].
      by apply elem_of_map_to_list.
Qed.

End BroadcastFacts.

(** *** What the task queue took *)
Section QueueFacts.
Import Broadcasts BroadcastSpec BroadcastSpec2.

Lemma acceptedBatches_app env (l1 l2 : list effect) :
  acceptedBatches env (l1 ++ l2) = acceptedBatches env l1 ++ acceptedBatches env l2.
Proof. unfold acceptedBatches. apply omap_app. Qed.

Lemma acceptedBatches_attempt env q org b :
  acceptedBatches env (attempt env q org b)
  = if accepted env org (q, b) then [(q, b)] else [].
Proof.
  unfold attempt, accepted, acceptedBatches. cbn [fst snd omap list_omap].
  destruct (AddTask env q SendBroadcastBatchType org b DefaultPriority);
    reflexivity.
Qed.

(** Of the batches handed over one after the other, the queue holds those it
    took, in the same order: nothing is retried. *)
Lemma acceptedBatches_attempts env org (qbs : list (Queue * BroadcastBatch)) :
  acceptedBatches env (qbs ≫= (fun qb => attempt env qb.1 org qb.2))
  = List.filter (accepted env org) qbs.
Proof.
  induction qbs as [|[q b] qbs IH]; [reflexivity|].
  rewrite bind_cons, acceptedBatches_app, acceptedBatches_attempt, IH.
  cbn [List.filter fst snd]. by destruct (accepted env org (q, b)).
Qed.

(** Every batch handed over is either taken or refused. *)
Lemma accepted_refused_perm env (effs : list effect) :
  acceptedBatches env effs ++ refusedBatches env effs ≡ₚ queuedBatches effs.
Proof.
  induction effs as [|e effs IH]; [reflexivity|].
  unfold acceptedBatches, refusedBatches, queuedBatches in *.
  destruct e as [q ty org b p| | |]; cbn [omap list_omap]; try exact IH.
  destruct (AddTask env q ty org b p).
  - rewrite <- Permutation_middle. by constructor.
  - cbn [app]. by constructor.
Qed.

Lemma acceptedBatches_all env (effs : list effect) :
  queueAccepts env -> acceptedBatches env effs = queuedBatches effs.
Proof.
  intros Hq. unfold acceptedBatches, queuedBatches.
  induction effs as [|e effs IH]; [reflexivity|].
  destruct e as [q ty org b p| | |]; cbn [omap list_omap]; try exact IH.
  by rewrite Hq, IH.
Qed.

Lemma contactsOf_app (l1 l2 : list (Queue * BroadcastBatch)) :
  contactsOf (l1 ++ l2) = contactsOf l1 ++ contactsOf l2.
Proof. unfold contactsOf. by rewrite !fmap_app, concat_app. Qed.

Lemma contactsOf_perm (l1 l2 : list (Queue * BroadcastBatch)) :
  l1 ≡ₚ l2 -> contactsOf l1 ≡ₚ contactsOf l2.
Proof.
  unfold contactsOf. induction 1 as [|x l1 l2 _ IH|x y l|l1 l2 l3 _ IH1 _ IH2].
  - reflexivity.
  - rewrite !fmap_cons. cbn [concat]. by rewrite IH.
  - rewrite !fmap_cons. cbn [concat]. rewrite !app_assoc.
    f_equiv. apply Permutation_app_comm.
  - by rewrite IH1.
Qed.

End QueueFacts.

(** *** The claims about the fan-out *)
Section BroadcastClaims.
Import Broadcasts BroadcastSpec Examples.

(** C1, as the spec states it, fails: a broadcast to three addresses and no
    contact or group has three resolved recipients, more than two, and its
    batch still goes to the handler queue, not to the batch queue. *)
Lemma C1_counterexample_address_only_broadcast :
  totalRecipients (okEnv [] threeAddresses) addressOnlyBroadcast = 3%nat
  /\ (queuedBatches
        (CreateBroadcastBatches canonicalOrder (okEnv [] threeAddresses)
           addressOnlyBroadcast).2).*1
     = [HandlerQueue].
Proof. split; vm_compute; reflexivity. Qed.

(** C1 (amended): every batch that [CreateBroadcastBatches] queues goes to
    the handler queue when the deduplicated set of explicit and
    group-expanded contact ids has at most two members, and to the batch
    queue otherwise; contacts reached only through an address do not count.
    In particular a total of at most two resolved recipients still means the
    handler queue. *)
Theorem C1_queue_follows_contact_count (ro : RangeOrder) (env : Env)
    (bcast : Broadcast) :
  Forall (fun qb : Queue * BroadcastBatch =>
            qb.1 = if (size (targetContacts env bcast) <=? 2)%nat
                   then HandlerQueue else BatchQueue)
    (queuedBatches (CreateBroadcastBatches ro env bcast).2)
  /\ ((totalRecipients env bcast <= 2)%nat ->
      Forall (fun qb : Queue * BroadcastBatch => qb.1 = HandlerQueue)
        (queuedBatches (CreateBroadcastBatches ro env bcast).2)).
Proof.
  assert (Hall : Forall (fun qb : Queue * BroadcastBatch =>
                           qb.1 = chosenQueue env bcast)
                   (queuedBatches (CreateBroadcastBatches ro env bcast).2)).
  { destruct (resolvedURNs env bcast) as [urnMap|] eqn:Hres.
    - destruct (CreateBroadcastBatches_run ro env bcast urnMap Hres)
        as (fulls & remainder & R & U & -> & _).
      simpl. rewrite queuedBatches_app, queuedBatches_attempt,
        queuedBatches_attempts.
      apply Forall_app. split; [|by repeat constructor].
      apply Forall_fmap, Forall_forall. done.
    - destruct (CreateBroadcastBatches_load_error ro env bcast Hres) as [e ->].
      constructor. }
  split; [exact Hall|].
  intros Htotal. eapply Forall_impl; [exact Hall|].
  intros qb ->. unfold chosenQueue.
  assert (Hle : (size (targetContacts env bcast) <= totalRecipients env bcast)%nat)
    by (apply subseteq_size; set_solver).
  destruct (Nat.leb_spec (size (targetContacts env bcast)) 2); [done|lia].
Qed.

(** C3, as the spec states it, fails: when the task queue refuses the
    batch, the refusal is logged and [CreateBroadcastBatches] still returns
    [nil]. *)
Lemma C3_counterexample_queue_down :
  let env := queueDownEnv [5]%Z ∅ in
  let batch := terminalBatch groupBroadcast [5]%Z ∅ in
  AddTask env HandlerQueue SendBroadcastBatchType 1%Z batch DefaultPriority
  = Some "connection refused"%string
  /\ CreateBroadcastBatches canonicalOrder env groupBroadcast
     = (None,
        [QueuedTask HandlerQueue SendBroadcastBatchType 1%Z batch DefaultPriority;
         LoggedError "error while queuing broadcast batch" "connection refused"]).
Proof. split; vm_compute; reflexivity. Qed.

(** C3 (amended): [CreateBroadcastBatches] returns a non-nil error, and
    hands nothing to the queue, when loading the org assets, loading the
    session assets or resolving the addresses fails.  A failure to enqueue
    a batch is not returned: when group resolution and the three lookups
    succeed the function returns [nil], every refused task is followed by
    an error log entry carrying the queue's error, and the batches handed
    to the queue are the same, in the same order, as with a queue that
    accepts everything.  A refused batch is not retried: the batches on the
    queue afterwards are those of them that the queue took. *)
Theorem C3_failures_returned_or_logged (ro : RangeOrder) (env : Env)
    (bcast : Broadcast) :
  (forall e, GetOrgAssets env (OrgID_of bcast) = Err e ->
     CreateBroadcastBatches ro env bcast
     = (Some (Wrapf e "error getting org assets"), []))
  /\ (forall org e,
        GetOrgAssets env (OrgID_of bcast) = Ok org ->
        GetSessionAssets env org = Err e ->
        CreateBroadcastBatches ro env bcast
        = (Some (Wrapf e "error getting session assets"), []))
  /\ (forall org sa e,
        GetOrgAssets env (OrgID_of bcast) = Ok org ->
        GetSessionAssets env org = Ok sa ->
        ContactIDsFromURNs env org sa (URNs bcast) = Err e ->
        CreateBroadcastBatches ro env bcast
        = (Some (Wrapf e "error getting contact ids for urns"), []))
  /\ (forall urnMap,
        (ContactIDsForGroupIDs env (GroupIDs bcast)).2 = None ->
        resolvedURNs env bcast = Some urnMap ->
        let run := CreateBroadcastBatches ro env bcast in
        run.1 = None
        /\ run.2 = queuedBatches run.2
                   ≫= (fun qb =>
                         QueuedTask qb.1 SendBroadcastBatchType (OrgID_of bcast)
                           qb.2 DefaultPriority
                         :: match AddTask env qb.1 SendBroadcastBatchType
                                    (OrgID_of bcast) qb.2 DefaultPriority with
                            | Some e =>
                                [LoggedError "error while queuing broadcast batch" e]
                            | None => []
                            end)
        /\ queuedBatches run.2
           = queuedBatches
               (CreateBroadcastBatches ro
                  {| ContactIDsForGroupIDs := ContactIDsForGroupIDs env;
                     GetOrgAssets := GetOrgAssets env;
                     GetSessionAssets := GetSessionAssets env;
                     ContactIDsFromURNs := ContactIDsFromURNs env;
                     AddTask := fun _ _ _ _ _ => None;
                     CreateBroadcastMessages := CreateBroadcastMessages env;
                     QueueMessages := QueueMessages env;
                     MarkBroadcastSent := MarkBroadcastSent env |}
                  bcast).2
        /\ BroadcastSpec2.acceptedBatches env run.2
           = List.filter (BroadcastSpec2.accepted env (OrgID_of bcast))
               (queuedBatches run.2)).
Proof.
  split; [|split; [|split]].
  - intros e He. unfold CreateBroadcastBatches.
    destruct (ContactIDsForGroupIDs env (GroupIDs bcast)). by rewrite He.
  - intros org e Ho He. unfold CreateBroadcastBatches.
    destruct (ContactIDsForGroupIDs env (GroupIDs bcast)). by rewrite Ho, He.
  - intros org sa e Ho Hs He. unfold CreateBroadcastBatches.
    destruct (ContactIDsForGroupIDs env (GroupIDs bcast)).
    by rewrite Ho, Hs, He.
  - intros urnMap _ Hres. cbn zeta.
    destruct (CreateBroadcastBatches_run ro env bcast urnMap Hres)
      as (fulls & remainder & R & U & Hrun & _).
    assert (Heffs :
      (CreateBroadcastBatches ro env bcast).2
      = queuedBatches (CreateBroadcastBatches ro env bcast).2
        ≫= (fun qb => attempt env qb.1 (OrgID_of bcast) qb.2)).
    { rewrite Hrun. cbn [snd].
      apply (attempts_of_queuedBatches env bcast (chosenQueue env bcast)). }
    split; [by rewrite Hrun|]. split; [exact Heffs|]. split.
    + apply CreateBroadcastBatches_queue_independent; reflexivity.
    + etransitivity;
        [exact (f_equal (BroadcastSpec2.acceptedBatches env) Heffs)|].
      apply acceptedBatches_attempts.
Qed.

(** C5: when the lookups succeed, a contact id that is among the explicit
    or group-expanded contacts and is also the owner of an explicit address
    is in no batch with is-last unset, and occurs exactly once in the contact
    list of the terminal batch, the last one queued and the only one with
    is-last set, whose address map holds an address of that contact. *)
Theorem C5_repeated_contact_in_terminal_batch (ro : RangeOrder) (env : Env)
    (bcast : Broadcast) (urnMap : gmap URN ContactID)
    (c : ContactID) (u : URN) :
  resolvedURNs env bcast = Some urnMap ->
  c ∈ targetContacts env bcast ->
  urnMap !! u = Some c ->
  let batches := (queuedBatches (CreateBroadcastBatches ro env bcast).2).*2 in
  Forall (fun b => IsLast b = false -> occurrences c (batch_ContactIDs b) = 0%nat)
    batches
  /\ exists firsts terminal urns u',
       batches = firsts ++ [terminal]
       /\ Forall (fun b => IsLast b = false) firsts
       /\ IsLast terminal = true
       /\ occurrences c (batch_ContactIDs terminal) = 1%nat
       /\ batch_URNs terminal = Some urns
       /\ urns !! c = Some u'
       /\ urnMap !! u' = Some c.
Proof.
  intros Hres HcC Hu. cbn zeta.
  destruct (CreateBroadcastBatches_run ro env bcast urnMap Hres)
    as (fulls & remainder & R & U & -> & Hf & Hc & Hl & Hne & HR & HU & HUv).
  cbn [snd].
  rewrite queuedBatches_app, queuedBatches_attempt, queuedBatches_attempts.
  rewrite fmap_app, <- list_fmap_compose. simpl.
  assert (Himg : c ∈ urnRecipients urnMap)
    by (apply elem_of_map_img; eauto).
  assert (Hfresh : forall x, x ∈ concat fulls ++ remainder ->
                             x ∈ targetContacts env bcast ∖ urnRecipients urnMap).
  { intros x Hx. rewrite Hc, (range_set_perm ro) in Hx.
    by apply elem_of_elements in Hx. }
  assert (Hnot : c ∉ concat fulls ++ remainder)
    by (intros Hx; apply Hfresh in Hx; set_solver).
  destruct (range_map_keys ro R) as [Hnd Hkeys].
  assert (HcR : c ∈ (range_map ro R).*1) by (apply Hkeys; set_solver).
  assert (HcU : is_Some (U !! c)) by (apply elem_of_dom; set_solver).
  destruct HcU as [u' Hu'].
  split.
  - apply Forall_app. split; [|by repeat constructor].
    apply Forall_fmap, Forall_forall. intros cs Hcs _. simpl.
    apply occurrences_not_in. intros Hin. apply Hnot.
    apply elem_of_app. left. by apply (elem_of_concat_of c cs).
  - eexists _, _, U, u'. split; [reflexivity|].
    split; [by apply Forall_fmap, Forall_forall|].
    split; [reflexivity|]. split; [|split; [reflexivity|by auto]].
    simpl. rewrite occurrences_app.
    rewrite (occurrences_NoDup c (range_map ro R).*1) by done.
    rewrite occurrences_not_in; [done|].
    intros Hin. apply Hnot. apply elem_of_app. by right.
Qed.

(** A group with members 1, 2, 3, contact 1 explicitly, and an address of
    contact 2. *)
Lemma C5_witness_overlap :
  let env := okEnv [1; 2; 3]%Z overlapAddresses in
  resolvedURNs env overlapBroadcast = Some overlapAddresses
  /\ exists firsts terminal urns u',
       (queuedBatches
          (CreateBroadcastBatches canonicalOrder env overlapBroadcast).2).*2
       = firsts ++ [terminal]
       /\ Forall (fun b => IsLast b = false) firsts
       /\ IsLast terminal = true
       /\ occurrences 2%Z (batch_ContactIDs terminal) = 1%nat
       /\ batch_URNs terminal = Some urns
       /\ urns !! 2%Z = Some u'
       /\ overlapAddresses !! u' = Some 2%Z.
Proof.
  split; [reflexivity|].
  apply (C5_repeated_contact_in_terminal_batch canonicalOrder
           (okEnv [1; 2; 3]%Z overlapAddresses) overlapBroadcast
           overlapAddresses 2%Z "tel:+250788000002");
    vm_compute; reflexivity.
Defined.

(** C6: when the lookups succeed, the batches queued are some batches of
    exactly 100 contacts, none flagged is-last and none with an address map,
    followed by one terminal batch flagged is-last.  The contacts of the
    former together with a remainder of at most 100 contacts (empty only if
    there is no non-repeated contact at all) are the deduplicated
    non-repeated contacts, each once; the terminal batch carries that
    remainder, then the repeated contacts, each once, and the address map,
    which maps every address-resolved contact to an address of its own.
    With 250 contacts and no overlap the batches have 100, 100 and 50
    contacts and only the third is flagged is-last. *)
Theorem C6_partition_into_batches (ro : RangeOrder) (env : Env)
    (bcast : Broadcast) (urnMap : gmap URN ContactID) :
  resolvedURNs env bcast = Some urnMap ->
  let batches := (queuedBatches (CreateBroadcastBatches ro env bcast).2).*2 in
  let fresh := targetContacts env bcast ∖ urnRecipients urnMap in
  let repeated := targetContacts env bcast ∩ urnRecipients urnMap in
  (exists fulls terminal remainder rep urns,
     batches = fulls ++ [terminal]
     /\ Forall (fun b => IsLast b = false
                        /\ length (batch_ContactIDs b) = 100%nat
                        /\ batch_URNs b = None) fulls
     /\ IsLast terminal = true
     /\ batch_ContactIDs terminal = remainder ++ rep
     /\ (length remainder <= 100)%nat
     /\ (fresh ≠ ∅ -> remainder ≠ [])
     /\ concat (batch_ContactIDs <$> fulls) ++ remainder ≡ₚ elements fresh
     /\ rep ≡ₚ elements repeated
     /\ batch_URNs terminal = Some urns
     /\ dom urns = urnRecipients urnMap
     /\ (forall c u, urns !! c = Some u -> urnMap !! u = Some c))
  /\ (size (targetContacts env bcast) = 250%nat -> repeated = ∅ ->
      (fun b => (length (batch_ContactIDs b), IsLast b)) <$> batches
      = [(100%nat, false); (100%nat, false); (50%nat, true)]).
Proof.
  intros Hres. cbn zeta.
  destruct (CreateBroadcastBatches_run ro env bcast urnMap Hres)
    as (fulls & remainder & R & U & -> & Hf & Hc & Hl & Hne & HR & HU & HUv).
  cbn [snd].
  rewrite queuedBatches_app, queuedBatches_attempt, queuedBatches_attempts.
  rewrite fmap_app, <- list_fmap_compose. simpl.
  destruct (range_map_keys ro R) as [Hnd Hkeys].
  assert (Hrep : (range_map ro R).*1
                 ≡ₚ elements (targetContacts env bcast ∩ urnRecipients urnMap)).
  { apply NoDup_Permutation; [done|apply NoDup_elements|].
    intros x. rewrite Hkeys, elem_of_elements, HR. done. }
  assert (Hcat : concat (batch_ContactIDs
                           <$> (CreateBatch bcast <$> fulls)) = concat fulls).
  { rewrite <- list_fmap_compose. f_equal. apply list_fmap_id. }
  split.
  - exists (CreateBatch bcast <$> fulls),
           (terminalBatch bcast (remainder ++ (range_map ro R).*1) U),
           remainder, (range_map ro R).*1, U.
    split; [reflexivity|].
    split.
    { apply Forall_fmap. eapply Forall_impl; [exact Hf|].
      intros cs Hcs. simpl. auto. }
    split; [reflexivity|]. split; [reflexivity|].
    split; [exact Hl|]. split; [exact Hne|].
    split; [by rewrite Hcat, Hc, (range_set_perm ro)|].
    split; [exact Hrep|]. split; [reflexivity|]. split; [exact HU|exact HUv].
  - intros Hsize Hnone. rewrite Hnone, elements_empty in Hrep.
    apply Permutation_nil_r in Hrep.
    assert (Hsame : targetContacts env bcast ∖ urnRecipients urnMap
                    = targetContacts env bcast).
    { clear -Hnone. set_solver. }
    assert (Hlen : length (concat fulls ++ remainder) = 250%nat).
    { rewrite Hc, (range_set_perm ro), Hsame. exact Hsize. }
    rewrite length_app, (length_concat_full fulls Hf) in Hlen.
    assert (Hrem : remainder ≠ []).
    { apply Hne. rewrite Hsame. intros Hempty.
      rewrite Hempty, size_empty in Hsize. discriminate Hsize. }
    assert (0 < length remainder)%nat by (destruct remainder; [done|simpl; lia]).
    unfold startBatchSize in *.
    destruct fulls as [|f1 [|f2 [|f3 fulls]]]; simpl in Hlen; try lia.
    apply Forall_cons in Hf as [H1 Hf]. apply Forall_cons in Hf as [H2 _].
    simpl. rewrite Hrep, app_nil_r, H1, H2. repeat f_equal. lia.
Qed.

(** A group of the 250 contacts 1..250 and no address. *)
Lemma C6_witness_250_contacts :
  resolvedURNs (okEnv contacts250 ∅) groupBroadcast = Some ∅
  /\ (fun b => (length (batch_ContactIDs b), IsLast b))
       <$> (queuedBatches
              (CreateBroadcastBatches reverseOrder (okEnv contacts250 ∅)
                 groupBroadcast).2).*2
     = [(100%nat, false); (100%nat, false); (50%nat, true)].
Proof.
  split; [reflexivity|].
  apply (C6_partition_into_batches reverseOrder (okEnv contacts250 ∅)
           groupBroadcast ∅); vm_compute; reflexivity.
Defined.

(** C8: for a batch flagged is-last, [SendBroadcastBatch] marks the
    broadcast as sent exactly once, after everything else it did, whichever
    way its body returned, and it returns the error of the step that failed:
    loading the org assets, loading the session assets, creating the
    messages or queueing them to courier.  For a batch not flagged is-last it
    never marks a broadcast as sent. *)
Theorem C8_last_batch_always_marks_sent (env : Env) (batch : BroadcastBatch) :
  let run := SendBroadcastBatch env batch in
  (IsLast batch = true ->
     markedSent (batch_BroadcastID batch) run.2 = 1%nat
     /\ exists before logged,
          run.2 = before ++ MarkedBroadcastSent (batch_BroadcastID batch) :: logged
          /\ (forall id, markedSent id before = 0%nat))
  /\ (IsLast batch = false -> forall id, markedSent id run.2 = 0%nat)
  /\ (forall e, GetOrgAssets env (batch_OrgID batch) = Err e ->
        run.1 = Some (Wrapf e "error getting org assets"))
  /\ (forall org e,
        GetOrgAssets env (batch_OrgID batch) = Ok org ->
        GetSessionAssets env org = Err e ->
        run.1 = Some (Wrapf e "error getting session assets"))
  /\ (forall org sa e,
        GetOrgAssets env (batch_OrgID batch) = Ok org ->
        GetSessionAssets env org = Ok sa ->
        CreateBroadcastMessages env org sa batch = Err e ->
        run.1 = Some (Wrapf e "error creating broadcast messages"))
  /\ (forall org sa msgs e,
        GetOrgAssets env (batch_OrgID batch) = Ok org ->
        GetSessionAssets env org = Ok sa ->
        CreateBroadcastMessages env org sa batch = Ok msgs ->
        QueueMessages env msgs = Some e ->
        run.1 = Some (Wrapf e "error queuing broadcast messages"))
  /\ (forall org sa msgs,
        GetOrgAssets env (batch_OrgID batch) = Ok org ->
        GetSessionAssets env org = Ok sa ->
        CreateBroadcastMessages env org sa batch = Ok msgs ->
        QueueMessages env msgs = None ->
        run.1 = None).
Proof.
  cbn zeta. unfold SendBroadcastBatch.
  split; [|split; [|split; [|split; [|split; [|split]]]]].
  - intros ->. cbn [snd fst].
    set (id := batch_BroadcastID batch).
    assert (Hbody : forall i,
      markedSent i
        (match GetOrgAssets env (batch_OrgID batch) with
         | Ok org =>
             match GetSessionAssets env org with
             | Ok sa =>
                 match CreateBroadcastMessages env org sa batch with
                 | Ok msgs =>
                     match QueueMessages env msgs with
                     | Some err =>
                         (Some (Wrapf err "error queuing broadcast messages"),
                          [QueuedToCourier msgs])
                     | None => (None, [QueuedToCourier msgs])
                     end
                 | Err err =>
                     (Some (Wrapf err "error creating broadcast messages"), [])
                 end
             | Err err => (Some (Wrapf err "error getting session assets"), [])
             end
         | Err err => (Some (Wrapf err "error getting org assets"), [])
         end).2 = 0%nat).
    { intros i. destruct (GetOrgAssets env (batch_OrgID batch)) as [org|]; [|done].
      destruct (GetSessionAssets env org) as [sa|]; [|done].
      destruct (CreateBroadcastMessages env org sa batch) as [msgs|]; [|done].
      destruct (QueueMessages env msgs); done. }
    split; [|eauto].
    unfold markedSent in *. rewrite List.filter_app, length_app, Hbody.
    simpl. rewrite Z.eqb_refl.
    destruct (MarkBroadcastSent env id); reflexivity.
  - intros -> id. cbn [snd]. rewrite app_nil_r.
    destruct (GetOrgAssets env (batch_OrgID batch)) as [org|]; [|done].
    destruct (GetSessionAssets env org) as [sa|]; [|done].
    destruct (CreateBroadcastMessages env org sa batch) as [msgs|]; [|done].
    destruct (QueueMessages env msgs); done.
  - intros e ->. reflexivity.
  - intros org e -> ->. reflexivity.
  - intros org sa e -> -> ->. reflexivity.
  - intros org sa msgs e -> -> -> ->. reflexivity.
  - intros org sa msgs -> -> -> ->. reflexivity.
Qed.

End BroadcastClaims.

(** ** The contact-language commit hook *)
Section HookFacts.
Import Hooks HookSpec Examples.

Lemma lastLanguageChange_returns (e : list Event) (lang : string) :
  lastLanguageChange e = Returns lang <-> lastValue e = Some lang.
Proof.
  unfold lastLanguageChange, lastValue. rewrite last_lookup.
  destruct e as [|x e]; [simpl; split; discriminate|].
  replace (Z.of_nat (length (x :: e)) - 1 <? 0)%Z with false
    by (symmetry; apply Z.ltb_ge; simpl; lia).
  replace (Z.to_nat (Z.of_nat (length (x :: e)) - 1)) with (pred (length (x :: e)))
    by (simpl; lia).
  destruct ((x :: e) !! pred (length (x :: e))) as [[l| |]|];
    split; intros H; try discriminate; congruence.
Qed.

Lemma lastLanguageChange_cases (e : list Event) :
  (exists lang, lastLanguageChange e = Returns lang /\ lastValue e = Some lang)
  \/ (exists msg, lastLanguageChange e = Panics msg /\ lastValue e = None).
Proof.
  destruct (lastLanguageChange e) as [lang|msg] eqn:H.
  - left. exists lang. split; [done|]. by apply lastLanguageChange_returns.
  - right. exists msg. split; [done|].
    destruct (lastValue e) as [lang|] eqn:Hl; [|done].
    apply lastLanguageChange_returns in Hl. congruence.
Qed.

(** The loop returns exactly when every list it meets ends with a language
    change, and then with one row for each entry, in order. *)
Lemma buildUpdates_spec (l : list (SessionPtr * (Session * list Event))) :
  forall updates,
    (Forall (fun entry => endsWithLanguageChange entry.2.2) l ->
     buildUpdates l updates = Returns (updates ++ (rowOf <$> l)))
    /\ (forall rows, buildUpdates l updates = Returns rows ->
        Forall (fun entry => endsWithLanguageChange entry.2.2) l).
Proof.
  induction l as [|[p [s e]] l IH]; intros updates; simpl.
  - split; [by rewrite app_nil_r|constructor].
  - destruct (lastLanguageChange_cases e) as [(lang & -> & Hv)|(msg & -> & Hv)].
    + destruct (IH (updates ++ [{| lu_ContactID := ContactID s; lu_Language := lang |}]))
        as [IH1 IH2].
      split.
      * intros Hall. apply Forall_cons in Hall as [_ Hall].
        rewrite (IH1 Hall), <- app_assoc. unfold rowOf at 2. simpl.
        by rewrite Hv.
      * intros rows Hrows. constructor; [|by eapply IH2].
        unfold endsWithLanguageChange. simpl. rewrite Hv. eauto.
    + split; [|discriminate].
      intros Hall. apply Forall_cons in Hall as [[lang Hl] _].
      simpl in Hl. congruence.
Qed.

Lemma sessions_Forall (ro : RangeOrder) (sessions : Sessions)
    (P : list Event -> Prop) :
  Forall (fun entry : SessionPtr * (Session * list Event) => P entry.2.2)
    (range_map ro sessions)
  <-> (forall p s e, sessions !! p = Some (s, e) -> P e).
Proof.
  rewrite Forall_forall. split.
  - intros H p s e Hp. apply (H (p, (s, e))).
    rewrite (range_map_perm ro). by apply elem_of_map_to_list.
  - intros H [p [s e]] Hin. simpl. apply (H p s).
    rewrite (range_map_perm ro) in Hin. by apply elem_of_map_to_list in Hin.
Qed.

Lemma lastValue_languageChanges (langs : list string) (v : string) :
  lastValue (languageChanges (langs ++ [v])) = Some v.
Proof.
  unfold lastValue, languageChanges. rewrite fmap_app.
  change (ContactLanguageChangedEvent <$> [v]) with [ContactLanguageChangedEvent v].
  by rewrite last_snoc.
Qed.

Lemma languageUpdates_returns (ro : RangeOrder) (sessions : Sessions) :
  (forall p s e, sessions !! p = Some (s, e) -> endsWithLanguageChange e) ->
  languageUpdates ro sessions = Returns (rowOf <$> range_map ro sessions).
Proof.
  intros Hpre. unfold languageUpdates.
  apply (proj1 (buildUpdates_spec (range_map ro sessions) [])).
  by apply sessions_Forall.
Qed.

(** C7: if every session of the commit batch accumulated one or more
    language-change events, [Apply] hands [BulkSQL] exactly one row for each
    session (the rows are, up to order, the rows of the sessions), and the
    row of a session whose events carry the values [langs] and then [v]
    updates the session's contact to [v], the last value. *)
Theorem C7_last_language_change_wins
    (BulkSQL : string -> string -> list languageUpdate -> option string)
    (ro : RangeOrder) (sessions : Sessions) :
  (forall p s e, sessions !! p = Some (s, e) ->
     exists langs, langs ≠ [] /\ e = languageChanges langs) ->
  exists rows,
    languageUpdates ro sessions = Returns rows
    /\ Apply BulkSQL ro sessions
       = Returns (BulkSQL "updating contact language" updateContactLanguageSQL rows)
    /\ length rows = size sessions
    /\ rows ≡ₚ rowOf <$> map_to_list sessions
    /\ (forall p s langs v,
          sessions !! p = Some (s, languageChanges (langs ++ [v])) ->
          rowOf (p, (s, languageChanges (langs ++ [v])))
          = {| lu_ContactID := ContactID s; lu_Language := v |}).
Proof.
  intros Hpre.
  assert (Hends : forall p s e, sessions !! p = Some (s, e) ->
                                endsWithLanguageChange e).
  { intros p s e Hp. destruct (Hpre p s e Hp) as (langs & Hne & ->).
    destruct (exists_last Hne) as (langs' & v & ->).
    unfold endsWithLanguageChange. rewrite lastValue_languageChanges. eauto. }
  exists (rowOf <$> range_map ro sessions).
  assert (Hrun := languageUpdates_returns ro sessions Hends).
  split; [exact Hrun|]. split; [unfold Apply; by rewrite Hrun|].
  split; [|split].
  - rewrite length_fmap, (range_map_perm ro). apply length_map_to_list.
  - by rewrite (range_map_perm ro).
  - intros p s langs v _. unfold rowOf. simpl.
    by rewrite lastValue_languageChanges.
Qed.

(** One session that emitted "eng", "fra", "kin": one row, with "kin". *)
Lemma C7_witness_three_changes :
  threeChanges
  = {[ 1%positive := (session1, languageChanges ["eng"; "fra"; "kin"]%string) ]}
  /\ languageUpdates canonicalOrder threeChanges
     = Returns [ {| lu_ContactID := 77; lu_Language := "kin" |} ]
  /\ exists rows,
       languageUpdates canonicalOrder threeChanges = Returns rows
       /\ Apply (fun _ _ _ => None) canonicalOrder threeChanges = Returns None
       /\ length rows = size threeChanges
       /\ rows ≡ₚ rowOf <$> map_to_list threeChanges
       /\ (forall p s langs v,
             threeChanges !! p = Some (s, languageChanges (langs ++ [v])) ->
             rowOf (p, (s, languageChanges (langs ++ [v])))
             = {| lu_ContactID := ContactID s; lu_Language := v |}).
Proof.
  assert (Heq : threeChanges
                = {[ 1%positive := (session1,
                                    languageChanges ["eng"; "fra"; "kin"]%string) ]})
    by (vm_compute; reflexivity).
  split; [exact Heq|]. split; [vm_compute; reflexivity|].
  apply (C7_last_language_change_wins (fun _ _ _ => None) canonicalOrder
           threeChanges).
  intros p s e Hp. rewrite Heq in Hp.
  apply lookup_singleton_Some in Hp as [_ Hp]. injection Hp as <- <-.
  exists ["eng"; "fra"; "kin"]%string. split; [discriminate|reflexivity].
Defined.

(** C10: [Apply] returns, with whatever [BulkSQL] answers, exactly when
    every session in its map has a non-empty event list whose last element
    is a contact-language-changed event.  Outside this precondition it
    panics instead of returning an error: on a session with an empty list
    the index expression faults, on a list that ends with another event the
    type assertion does. *)
Theorem C10_Apply_precondition :
  (forall (BulkSQL : string -> string -> list languageUpdate -> option string)
          (ro : RangeOrder) (sessions : Sessions),
     (forall p s e, sessions !! p = Some (s, e) -> endsWithLanguageChange e)
     <-> exists rows,
           Apply BulkSQL ro sessions
           = Returns (BulkSQL "updating contact language"
                        updateContactLanguageSQL rows))
  /\ (forall BulkSQL ro,
        Apply BulkSQL ro emptyEvents = Panics "index out of range")
  /\ (forall BulkSQL ro,
        Apply BulkSQL ro nameChangeLast = Panics "interface conversion").
Proof.
  split; [|split].
  - intros BulkSQL ro sessions. split.
    + intros Hpre. exists (rowOf <$> range_map ro sessions).
      unfold Apply. by rewrite (languageUpdates_returns ro sessions Hpre).
    + intros [rows Hrun]. apply (sessions_Forall ro).
      unfold Apply, languageUpdates in Hrun.
      destruct (buildUpdates (range_map ro sessions) []) as [rows'|] eqn:Hb;
        [|discriminate].
      by apply (proj2 (buildUpdates_spec (range_map ro sessions) []) rows').
  - intros BulkSQL ro. unfold Apply, languageUpdates.
    assert (Hl : range_map ro emptyEvents = [(1%positive, (session1, []))]).
    { apply Permutation_singleton_r. rewrite (range_map_perm ro).
      unfold emptyEvents. by rewrite map_to_list_singleton. }
    by rewrite Hl.
  - intros BulkSQL ro. unfold Apply, languageUpdates.
    assert (Hl : range_map ro nameChangeLast
                 = [(1%positive, (session1, [ContactLanguageChangedEvent "eng";
                                             ContactNameChangedEvent "Ann"]))]).
    { apply Permutation_singleton_r. rewrite (range_map_perm ro).
      unfold nameChangeLast. by rewrite map_to_list_singleton. }
    by rewrite Hl.
Qed.

End HookFacts.

(** ** Campaign scheduling *)
Section TimeFacts.
Import GoTime ScheduleSpec.
Local Open Scope Z_scope.

(** *** Instants: [Add] and [Truncate] *)

Lemma Add_spec (t : Time) (d : Duration) :
  valid t ->
  instant (Add t d) = instant t + d /\ valid (Add t d) /\ loc (Add t d) = loc t.
Proof.
  unfold valid, instant, Add. intros Hv.
  pose proof (Z.quot_rem' d 1000000000) as Hqr.
  assert (Hr : -1000000000 < Z.rem d 1000000000 < 1000000000).
  { clear. Z.to_euclidean_division_equations. lia. }
  generalize dependent (Z.quot d 1000000000).
  generalize dependent (Z.rem d 1000000000). intros r Hr q Hqr.
  destruct (nsec t + r >=? 1000000000) eqn:E1;
    [|destruct (nsec t + r <? 0) eqn:E2];
    cbn [unixSec nsec loc]; (split; [|split]); try reflexivity; lia.
Qed.

Lemma instant_atInstant (l : Location) (n : Z) :
  instant (atInstant l n) = n /\ valid (atInstant l n).
Proof.
  unfold instant, atInstant, valid. simpl.
  pose proof (Z.div_mod n 1000000000).
  pose proof (Z.mod_pos_bound n 1000000000). lia.
Qed.

(** A valid time is determined by its instant and its location. *)
Lemma time_eq (t u : Time) :
  valid t -> valid u -> instant t = instant u -> loc t = loc u -> t = u.
Proof.
  destruct t as [ts tn tl], u as [us un ul]. unfold valid, instant. simpl.
  intros Ht Hu Hi ->. assert (ts = us) by lia. subst. f_equal. lia.
Qed.

Lemma Truncate_Minute_spec (t : Time) :
  valid t ->
  instant (Truncate t Minute) = 60000000000 * (instant t / 60000000000)
  /\ valid (Truncate t Minute)
  /\ loc (Truncate t Minute) = loc t.
Proof.
  intros Hv. unfold Truncate.
  change (Minute <=? 0) with false. cbn match.
  set (r := ((unixSec t + unixToInternal) * 1000000000 + nsec t) mod Minute).
  assert (Hr : r = instant t mod 60000000000).
  { unfold r, instant.
    change unixToInternal with (1035593280 * 60).
    change Minute with 60000000000.
    replace ((unixSec t + 1035593280 * 60) * 1000000000 + nsec t)
      with (unixSec t * 1000000000 + nsec t + 1035593280 * 60000000000) by lia.
    apply Z.mod_add. lia. }
  destruct (Add_spec t (- r) Hv) as (Hi & Hv' & Hl).
  split; [|done]. rewrite Hi, Hr.
  pose proof (Z.div_mod (instant t) 60000000000). lia.
Qed.

(** *** Rounding to the minute *)

Lemma roundToMinute_spec (t : Time) :
  valid t -> Campaigns.roundToMinute t = roundUpToMinute t.
Proof.
  intros Hv. unfold Campaigns.roundToMinute, roundUpToMinute, onMinuteBoundary.
  unfold Nanosecond_of, Second_of.
  pose proof (Z.mod_pos_bound (abs t) secondsPerMinute eq_refl) as Hs.
  destruct Hv as [Hn0 Hn1].
  destruct (decide (abs t mod secondsPerMinute = 0 /\ nsec t = 0)) as [[H1 H2]|Hnot].
  - rewrite H1, H2. reflexivity.
  - replace ((abs t mod secondsPerMinute >? 0) || (nsec t >? 0)) with true.
    2:{ symmetry. apply orb_true_iff. rewrite !Z.gtb_gt. lia. }
    change (Second * 60) with 60000000000.
    destruct (Add_spec t 60000000000 (conj Hn0 Hn1)) as (Hi & Hv' & Hl).
    destruct (Truncate_Minute_spec _ Hv') as (Hi2 & Hv2 & Hl2).
    destruct (instant_atInstant (loc t) (nextWholeMinute (instant t)))
      as [Hi3 Hv3].
    apply time_eq; [done|done| |by rewrite Hl2, Hl].
    rewrite Hi2, Hi3, Hi. unfold nextWholeMinute.
    replace (instant t + 60000000000) with (instant t + 1 * 60000000000) by lia.
    rewrite Z.div_add by lia. reflexivity.
Qed.

(** What rounding up achieves: the result is at most a minute after the
    time, and if the time was not on a minute boundary the result is a
    later instant on a whole minute. *)
Lemma roundUpToMinute_bounds (t : Time) :
  valid t ->
  valid (roundUpToMinute t)
  /\ loc (roundUpToMinute t) = loc t
  /\ instant t <= instant (roundUpToMinute t) <= instant t + 60000000000
  /\ (~ onMinuteBoundary t ->
      instant t < instant (roundUpToMinute t)
      /\ instant (roundUpToMinute t) mod 60000000000 = 0).
Proof.
  intros Hv. unfold roundUpToMinute.
  destruct (decide (onMinuteBoundary t)) as [Hb|Hb].
  - split; [done|]. split; [done|]. split; [lia|]. intros Hn. by destruct Hn.
  - destruct (instant_atInstant (loc t) (nextWholeMinute (instant t)))
      as [Hi Hv'].
    rewrite Hi. unfold nextWholeMinute.
    pose proof (Z.div_mod (instant t) 60000000000).
    pose proof (Z.mod_pos_bound (instant t) 60000000000).
    split; [done|]. split; [done|]. split; [lia|]. intros _.
    split; [lia|]. rewrite Z.mul_comm. apply Z.mod_mul. lia.
Qed.

(** *** The calendar: dates convert back to the day they came from *)

Lemma allFrom_spec (f : Z -> bool) (fuel : nat) :
  forall a, allFrom fuel a f = true ->
  forall D, a <= D < a + Z.of_nat fuel -> f D = true.
Proof.
  induction fuel as [|k IH]; intros a Hall D HD; [lia|].
  simpl in Hall. apply andb_true_iff in Hall as [Ha Hrest].
  destruct (decide (D = a)) as [->|Hne]; [done|].
  apply (IH (a + 1) Hrest). lia.
Qed.

(** Every day of one 400-year cycle, checked by computation. *)
Lemma dateRoundTrips_cycle :
  allFrom (Z.to_nat 146097) 0 dateRoundTrips = true.
Proof. vm_cast_no_check (eq_refl true). Qed.

Lemma absDate_civilFrom (a : Z) :
  absDate a
  = civilFrom (400 * (a / secondsPerDay / daysPer400Years))
      (a / secondsPerDay
       - daysPer400Years * (a / secondsPerDay / daysPer400Years)).
Proof. reflexivity. Qed.

Lemma isLeap_period (y k : Z) : isLeap (y + 400 * k) = isLeap y.
Proof.
  unfold isLeap.
  assert (H4 : forall z, (Z.rem z 4 =? 0) = (z mod 4 =? 0)).
  { intros z. destruct (Z.eqb_spec (Z.rem z 4) 0), (Z.eqb_spec (z mod 4) 0);
      try reflexivity; exfalso; Z.to_euclidean_division_equations; lia. }
  assert (H100 : forall z, (Z.rem z 100 =? 0) = (z mod 100 =? 0)).
  { intros z. destruct (Z.eqb_spec (Z.rem z 100) 0), (Z.eqb_spec (z mod 100) 0);
      try reflexivity; exfalso; Z.to_euclidean_division_equations; lia. }
  assert (H400 : forall z, (Z.rem z 400 =? 0) = (z mod 400 =? 0)).
  { intros z. destruct (Z.eqb_spec (Z.rem z 400) 0), (Z.eqb_spec (z mod 400) 0);
      try reflexivity; exfalso; Z.to_euclidean_division_equations; lia. }
  rewrite !H4, !H100, !H400.
  replace (y + 400 * k) with (y + (100 * k) * 4) at 1 by lia.
  replace (y + 400 * k) with (y + (4 * k) * 100) at 1 by lia.
  replace (y + 400 * k) with (y + k * 400) by lia.
  rewrite !Z.mod_add by lia. reflexivity.
Qed.

Lemma civilFrom_period (y d k : Z) :
  civilFrom (y + 400 * k) d
  = let '(year, m, dd) := civilFrom y d in (year + 400 * k, m, dd).
Proof.
  unfold civilFrom. cbv zeta.
  set (n1 := d / daysPer100Years - Z.shiftr (d / daysPer100Years) 2).
  set (d1 := d - daysPer100Years * n1).
  set (n2 := d1 / daysPer4Years).
  set (d2 := d1 - daysPer4Years * n2).
  set (n3 := d2 / 365 - Z.shiftr (d2 / 365) 2).
  set (d3 := d2 - 365 * n3).
  replace (y + 400 * k + 100 * n1 + 4 * n2 + n3 + absoluteZeroYear)
    with (y + 100 * n1 + 4 * n2 + n3 + absoluteZeroYear + 400 * k) by lia.
  rewrite isLeap_period.
  set (year := y + 100 * n1 + 4 * n2 + n3 + absoluteZeroYear).
  destruct (isLeap year && (d3 =? 31 + 29 - 1)); [reflexivity|].
  set (day := if isLeap year && (d3 >? 31 + 29 - 1) then d3 - 1 else d3).
  destruct (day >=? daysBefore (day / 31 + 1)); reflexivity.
Qed.

Lemma daysSinceEpoch_period (y m k : Z) :
  daysSinceEpoch (y + 400 * k) m = daysSinceEpoch y m + 146097 * k.
Proof.
  unfold daysSinceEpoch. cbv zeta. rewrite isLeap_period.
  replace (y + 400 * k - absoluteZeroYear)
    with (y - absoluteZeroYear + k * 400) by lia.
  rewrite Z.div_add by lia.
  set (Y := y - absoluteZeroYear).
  replace (Y + k * 400 - 400 * (Y / 400 + k)) with (Y - 400 * (Y / 400)) by lia.
  change daysPer400Years with 146097.
  destruct (isLeap y && (m >=? 3)); lia.
Qed.

(** The date [absDate] computes is well formed and is the date of the day
    it was computed from: [time.Date] maps it back to that day. *)
Lemma absDate_roundtrip (a : Z) :
  let '(y, m, d) := absDate a in
  1 <= m <= 12 /\ 1 <= d <= 31
  /\ daysSinceEpoch y m + (d - 1) = a / secondsPerDay.
Proof.
  set (D := a / secondsPerDay).
  set (q := D / 146097). set (r := D mod 146097).
  assert (HD : D = r + 146097 * q)
    by (unfold q, r; pose proof (Z.div_mod D 146097); lia).
  assert (Hr : 0 <= r < 146097) by (apply Z.mod_pos_bound; lia).
  pose proof (allFrom_spec dateRoundTrips _ 0 dateRoundTrips_cycle r) as Hc.
  specialize (Hc ltac:(lia)). unfold dateRoundTrips in Hc.
  rewrite absDate_civilFrom in *. fold D.
  rewrite Z.div_mul in Hc by (unfold secondsPerDay, secondsPerHour, secondsPerMinute; lia).
  change daysPer400Years with 146097 in *.
  fold q. rewrite (Z.div_small r 146097) in Hc by lia.
  replace (r - 146097 * 0) with r in Hc by lia.
  replace (D - 146097 * q) with r by lia.
  replace (400 * q) with (400 * 0 + 400 * q) by lia.
  rewrite civilFrom_period.
  destruct (civilFrom (400 * 0) r) as [[y m] d].
  rewrite daysSinceEpoch_period.
  rewrite !andb_true_iff, !Z.leb_le, Z.eqb_eq in Hc. lia.
Qed.

(** *** [Date] and [AddDate] on the wall clock *)

Lemma norm_id (hi lo base : Z) :
  0 <= lo < base -> norm hi lo base = (hi, lo).
Proof.
  intros H. unfold norm.
  replace (lo <? 0) with false by (symmetry; apply Z.ltb_ge; lia).
  replace (lo >=? base) with false; [reflexivity|].
  symmetry. rewrite Z.geb_leb. apply Z.leb_gt. lia.
Qed.

(** The seconds between the Unix epoch and the absolute epoch are whole
    days. *)
Lemma epoch_shift : unixToInternal + internalToAbsolute = 106751991073094 * 86400.
Proof. reflexivity. Qed.

Lemma abs_wallSeconds (t : Time) :
  abs t = wallSeconds t + 106751991073094 * 86400.
Proof. unfold abs, wallSeconds. rewrite epoch_shift. reflexivity. Qed.

(** [Date] on fields that need no normalisation, whatever the day. *)
Lemma Date_wall (y m d hh mm ss ns : Z) (l : Location) :
  1 <= m <= 12 -> 0 <= hh < 24 -> 0 <= mm < 60 -> 0 <= ss < 60 ->
  0 <= ns < 1000000000 ->
  Date y m d hh mm ss ns l
  = atWallClock l
      ((daysSinceEpoch y m + (d - 1) - 106751991073094) * 86400
       + (hh * 3600 + mm * 60 + ss)) ns.
Proof.
  intros Hm Hh Hmm Hs Hn. unfold Date.
  rewrite (norm_id y (m - 1) 12) by lia.
  rewrite (norm_id ss ns 1000000000) by lia.
  rewrite (norm_id mm ss 60) by lia.
  rewrite (norm_id hh mm 60) by lia.
  rewrite (norm_id d hh 24) by lia.
  unfold atWallClock. f_equal.
  replace (m - 1 + 1) with m by lia. f_equal.
  change secondsPerDay with 86400. change secondsPerHour with 3600.
  change secondsPerMinute with 60.
  change (absoluteToInternal + internalToUnix) with (- (106751991073094 * 86400)).
  lia.
Qed.

Lemma Clock_spec (t : Time) :
  let '(hh, mm, ss) := Clock t in
  0 <= hh < 24 /\ 0 <= mm < 60 /\ 0 <= ss < 60
  /\ hh * 3600 + mm * 60 + ss = abs t mod 86400.
Proof.
  unfold Clock. cbv zeta.
  change secondsPerDay with 86400. change secondsPerHour with 3600.
  change secondsPerMinute with 60.
  generalize (abs t). intros a.
  Z.to_euclidean_division_equations. lia.
Qed.

(** Adding days with [AddDate] moves the wall clock by whole days. *)
Lemma AddDate_days (t : Time) (n : Z) :
  valid t -> AddDate t 0 0 n = plusCalendarDays t n.
Proof.
  intros Hv. unfold AddDate, Year, Month, Day.
  pose proof (absDate_roundtrip (abs t)) as Hrt.
  pose proof (Clock_spec t) as Hc.
  destruct (Clock t) as [[hh mm] ss].
  destruct (absDate (abs t)) as [[y m] d]. cbn [fst snd].
  destruct Hrt as (Hm & Hd & Hday). destruct Hc as (Hh & Hmm & Hs & Hsum).
  rewrite !Z.add_0_r.
  rewrite Date_wall by (try done; lia).
  unfold plusCalendarDays. f_equal.
  change secondsPerDay with 86400 in Hday.
  pose proof (abs_wallSeconds t) as Ha.
  pose proof (Z.div_mod (abs t) 86400). lia.
Qed.

(** The date depends on the day only. *)
Lemma absDate_same_day (a b : Z) :
  a / 86400 = b / 86400 -> absDate a = absDate b.
Proof.
  intros H. rewrite !absDate_civilFrom. change secondsPerDay with 86400.
  by rewrite H.
Qed.

(** Setting the hour on the date a time shows. *)
Lemma Date_atHour (s : Time) (h : Z) (l : Location) :
  0 <= h <= 23 ->
  Date (Year s) (Month s) (Day s) h 0 0 0 l = atWallClock l (wallAtHour s h) 0.
Proof.
  intros Hh. unfold Year, Month, Day.
  pose proof (absDate_roundtrip (abs s)) as Hrt.
  destruct (absDate (abs s)) as [[y m] d]. cbn [fst snd].
  destruct Hrt as (Hm & Hd & Hday).
  rewrite Date_wall by lia. f_equal. unfold wallAtHour.
  change secondsPerDay with 86400 in Hday.
  pose proof (abs_wallSeconds s) as Ha. rewrite Ha in Hday.
  rewrite Z.div_add in Hday by lia.
  pose proof (Z.div_mod (wallSeconds s) 86400). lia.
Qed.

(** What a time built on an existing wall clock shows. *)
Lemma atWallClock_shows (l : Location) (s : Time) (h : Z) :
  0 <= h <= 23 ->
  wallClockExists l (wallAtHour s h) ->
  let t := atWallClock l (wallAtHour s h) 0 in
  Hour_of t = h /\ Minute_of t = 0 /\ Second_of t = 0 /\ Nanosecond_of t = 0
  /\ dateOf t = dateOf s.
Proof.
  intros Hh Hex. cbn zeta.
  set (t := atWallClock l (wallAtHour s h) 0).
  assert (Ht : abs t = wallAtHour s h + 106751991073094 * 86400).
  { rewrite abs_wallSeconds. f_equal. exact Hex. }
  assert (Hday : abs t = (abs s / 86400) * 86400 + h * 3600).
  { rewrite Ht. unfold wallAtHour. rewrite (abs_wallSeconds s).
    rewrite Z.div_add by lia.
    pose proof (Z.div_mod (wallSeconds s) 86400). lia. }
  unfold Hour_of, Minute_of, Second_of, Nanosecond_of, dateOf, Year, Month, Day.
  change secondsPerDay with 86400. change secondsPerHour with 3600.
  change secondsPerMinute with 60. rewrite Hday.
  assert (Hq : (abs s / 86400 * 86400 + h * 3600) / 86400 = abs s / 86400).
  { generalize (abs s / 86400). intros D.
    Z.to_euclidean_division_equations. lia. }
  split; [|split; [|split; [|split]]].
  - generalize (abs s / 86400). intros D.
    Z.to_euclidean_division_equations. lia.
  - generalize (abs s / 86400). intros D.
    Z.to_euclidean_division_equations. lia.
  - generalize (abs s / 86400). intros D.
    Z.to_euclidean_division_equations. lia.
  - reflexivity.
  - by rewrite (absDate_same_day _ (abs s)) by exact Hq.
Qed.

(** In a fixed zone every wall clock exists. *)
Lemma wallClockExists_FixedZone (off wall : Z) :
  wallClockExists (FixedZone off) wall.
Proof.
  unfold wallClockExists, resolve_zone, zone_offset, lookup, FixedZone. simpl.
  destruct (off =? 0) eqn:H0; [apply Z.eqb_eq in H0; simpl; lia|].
  destruct (wall - off <? alpha); [simpl; lia|].
  destruct (wall - off >=? omega); simpl; lia.
Qed.

End TimeFacts.

(** *** The scheduler *)
Section ScheduleFacts.
Import GoTime Campaigns ScheduleSpec Examples.
Local Open Scope Z_scope.

Lemma Before_instant (t u : Time) :
  valid t -> valid u -> (Before t u = true <-> instant t < instant u).
Proof.
  unfold valid, Before, instant. intros Ht Hu.
  rewrite orb_true_iff, andb_true_iff, !Z.ltb_lt, Z.eqb_eq. lia.
Qed.

Lemma wrap64_id (z : Z) : - 2 ^ 63 <= z < 2 ^ 63 -> wrap64 z = z.
Proof.
  intros H. unfold wrap64.
  rewrite Z.mod_small by lia. lia.
Qed.

Lemma Add_atInstant (t : Time) (d : Duration) :
  valid t -> Add t d = atInstant (loc t) (instant t + d).
Proof.
  intros Hv. destruct (Add_spec t d Hv) as (Hi & Hv' & Hl).
  destruct (instant_atInstant (loc t) (instant t + d)) as [Hi2 Hv2].
  apply time_eq; [done|done|by rewrite Hi, Hi2|done].
Qed.

(** Without overflow the [switch] of the scheduler applies the offset as
    the spec words it. *)
Lemma applyOffset_spec (e : CampaignEvent) (t : Time) :
  valid t -> noOverflow e ->
  applyOffset e t = plusOffset (Unit e) (Offset e) t.
Proof.
  intros Hv (HM & HH & HW). unfold applyOffset, plusOffset.
  destruct (decide (Unit e = OffsetMinute)) as [Hu|Hu].
  { rewrite Hu. simpl. f_equal. unfold dur_mul.
    rewrite wrap64_id by auto. rewrite Add_atInstant by done.
    f_equal. change Minute with 60000000000. lia. }
  replace (String.eqb (Unit e) OffsetMinute) with false
    by (symmetry; by apply String.eqb_neq).
  destruct (decide (Unit e = OffsetHour)) as [Hu2|Hu2].
  { rewrite Hu2. simpl. f_equal. unfold dur_mul.
    rewrite wrap64_id by auto. rewrite Add_atInstant by done.
    f_equal. change Hour with 3600000000000. lia. }
  replace (String.eqb (Unit e) OffsetHour) with false
    by (symmetry; by apply String.eqb_neq).
  destruct (decide (Unit e = OffsetDay)) as [Hu3|Hu3].
  { rewrite Hu3. simpl. f_equal. by apply AddDate_days. }
  replace (String.eqb (Unit e) OffsetDay) with false
    by (symmetry; by apply String.eqb_neq).
  destruct (decide (Unit e = OffsetWeek)) as [Hu4|Hu4].
  { rewrite Hu4. simpl. f_equal. rewrite wrap64_id by auto.
    by apply AddDate_days. }
  replace (String.eqb (Unit e) OffsetWeek) with false
    by (symmetry; by apply String.eqb_neq).
  reflexivity.
Qed.

(** The times the scheduler builds from a valid time are valid. *)
Lemma roundToMinute_valid (t : Time) : valid t -> valid (roundToMinute t).
Proof.
  intros Hv. rewrite roundToMinute_spec by done.
  by destruct (roundUpToMinute_bounds t Hv).
Qed.

Lemma Date_valid (y m d hh mm ss ns : Z) (l : Location) :
  0 <= ns < 1000000000 -> valid (Date y m d hh mm ss ns l).
Proof.
  intros Hn. unfold Date, valid.
  destruct (norm y (m - 1) 12) as [y' m'].
  rewrite (norm_id ss ns 1000000000) by lia.
  destruct (norm mm ss 60) as [mm' ss'].
  destruct (norm hh mm' 60) as [hh' mm''].
  destruct (norm d hh' 24) as [d' hh'']. simpl. lia.
Qed.

Lemma AddDate_valid (t : Time) (y m d : Z) : valid t -> valid (AddDate t y m d).
Proof.
  intros Hv. unfold AddDate. destruct (Clock t) as [[hh mm] ss].
  by apply Date_valid.
Qed.

Lemma applyOffset_valid (e : CampaignEvent) (t t' : Time) :
  valid t -> applyOffset e t = Some t' -> valid t'.
Proof.
  intros Hv. unfold applyOffset.
  destruct (String.eqb (Unit e) OffsetMinute);
    [intros [= <-]; by apply Add_spec|].
  destruct (String.eqb (Unit e) OffsetHour);
    [intros [= <-]; by apply Add_spec|].
  destruct (String.eqb (Unit e) OffsetDay);
    [intros [= <-]; by apply AddDate_valid|].
  destruct (String.eqb (Unit e) OffsetWeek);
    [intros [= <-]; by apply AddDate_valid|discriminate].
Qed.

Lemma applyDeliveryHour_valid (e : CampaignEvent) (tz : Location) (t : Time) :
  valid t -> valid (applyDeliveryHour e tz t).
Proof.
  intros Hv. unfold applyDeliveryHour.
  destruct (negb (DeliveryHour e =? NilDeliveryHour)); [|done].
  apply Date_valid. lia.
Qed.

Lemma scheduledInstant_valid (e : CampaignEvent) (tz : Location)
    (start t : Time) :
  valid start -> scheduledInstant e tz start = Some t -> valid t.
Proof.
  intros Hv. unfold scheduledInstant.
  destruct (applyOffset e (roundToMinute (In start tz))) as [t'|] eqn:Ho;
    [|discriminate].
  intros [= <-]. apply applyDeliveryHour_valid.
  eapply applyOffset_valid; [|exact Ho]. by apply roundToMinute_valid.
Qed.

(** [ScheduleForTime] in terms of the instant it computes. *)
Lemma ScheduleForTime_scheduledInstant (e : CampaignEvent) (tz : Location)
    (now start : Time) :
  ScheduleForTime e tz now start
  = match scheduledInstant e tz start with
    | None => Err ("unknown offset unit: " +:+ Unit e)
    | Some t => if Before t now then Ok None else Ok (Some t)
    end.
Proof.
  unfold ScheduleForTime, scheduledInstant.
  by destruct (applyOffset e (roundToMinute (In start tz))).
Qed.

(** C2, as the spec states it, fails: with offset 0 on a start that is
    already on a minute boundary the computed instant is exactly [now], not
    strictly after it, and [ScheduleForTime] returns it instead of no
    fire. *)
Lemma C2_counterexample_equal_to_now :
  let e := event OffsetMinute 0 NilDeliveryHour in
  let now := utc 1704067200 in
  scheduledInstant e UTC now = Some now
  /\ instant now <= instant now
  /\ ScheduleForTime e UTC now now = Ok (Some now).
Proof. cbv zeta. split; [|split]; [reflexivity|lia|reflexivity]. Qed.

(** C2 (amended): for valid times and a recognised unit, [ScheduleForTime]
    returns no fire exactly when the instant it computes is strictly before
    [now]; when that instant is [now] itself or later it returns the
    instant. *)
Theorem C2_no_fire_only_before_now (e : CampaignEvent) (tz : Location)
    (now start t : Time) :
  valid start -> valid now ->
  scheduledInstant e tz start = Some t ->
  (instant t < instant now -> ScheduleForTime e tz now start = Ok None)
  /\ (instant now <= instant t -> ScheduleForTime e tz now start = Ok (Some t)).
Proof.
  intros Hs Hn Ht. rewrite ScheduleForTime_scheduledInstant, Ht.
  pose proof (scheduledInstant_valid e tz start t Hs Ht) as Hv.
  pose proof (Before_instant t now Hv Hn) as HB.
  destruct (Before t now); split; intros H; try reflexivity.
  - assert (instant t < instant now) by (by apply HB). lia.
  - assert (true = true -> False) as F; [|by destruct F].
    intros _. assert (false = true) by (by apply HB). discriminate.
Qed.

(** The spec's example: one minute after 2024-01-01T00:00:00Z, asked on
    2024-01-05T00:00:00Z, is no fire. *)
Lemma C2_witness_stale_trigger :
  let e := event OffsetMinute 1 NilDeliveryHour in
  let start := utc 1704067200 in
  let now := utc 1704412800 in
  scheduledInstant e UTC start = Some (utc 1704067260)
  /\ ScheduleForTime e UTC now start = Ok None.
Proof.
  cbv zeta. split; [reflexivity|].
  apply (C2_no_fire_only_before_now (event OffsetMinute 1 NilDeliveryHour) UTC
           (utc 1704412800) (utc 1704067200) (utc 1704067260)).
  - unfold valid. simpl. lia.
  - unfold valid. simpl. lia.
  - reflexivity.
  - unfold instant. simpl. lia.
Defined.

(** C4, as the spec states it, fails: an offset of 200,000,000 minutes is
    more nanoseconds than an [int64] holds.  Rounding up and adding the
    offset gives an instant in the year 2404, after [now]; the scheduler
    adds the wrapped product, lands in 1819 and returns no fire. *)
Lemma C4_counterexample_offset_overflow :
  let e := event OffsetMinute 200000000 NilDeliveryHour in
  let start := utc 1704123000 in
  let now := utc 1704067200 in
  plusOffset (Unit e) (Offset e) (roundUpToMinute (In start UTC))
  = Some (utc 13704123000)
  /\ Before (utc 13704123000) now = false
  /\ scheduledInstant e UTC start
     = Some {| unixSec := -4742621074; nsec := 290448384; loc := UTC |}
  /\ ScheduleForTime e UTC now start = Ok None.
Proof. cbv zeta. repeat split; vm_compute; reflexivity. Qed.

(** C4 (amended): for an event with no delivery hour and a unit of minute,
    hour, day or week whose offset does not overflow ([noOverflow]: the
    nanoseconds of a minute or hour offset, and seven times a week offset,
    fit an [int64]), the instant [ScheduleForTime] computes from a valid
    start is the start, converted to the timezone and rounded up to the
    minute, plus the offset in that unit; it is returned unless it is before
    [now]. *)
Theorem C4_rounds_up_then_adds_offset (e : CampaignEvent) (tz : Location)
    (now start : Time) :
  valid start ->
  DeliveryHour e = NilDeliveryHour ->
  noOverflow e ->
  Unit e ∈ [OffsetMinute; OffsetHour; OffsetDay; OffsetWeek] ->
  exists t,
    plusOffset (Unit e) (Offset e) (roundUpToMinute (In start tz)) = Some t
    /\ scheduledInstant e tz start = Some t
    /\ ScheduleForTime e tz now start
       = (if Before t now then Ok None else Ok (Some t)).
Proof.
  intros Hv Hnil Hno Hunit.
  assert (Hvin : valid (In start tz)) by exact Hv.
  assert (Hvr : valid (roundUpToMinute (In start tz)))
    by (by destruct (roundUpToMinute_bounds _ Hvin)).
  assert (Hsome : is_Some (plusOffset (Unit e) (Offset e)
                             (roundUpToMinute (In start tz)))).
  { unfold plusOffset.
    repeat (apply elem_of_cons in Hunit as [->|Hunit]; [by eexists|]).
    by apply elem_of_nil in Hunit. }
  destruct Hsome as [t Ht]. exists t. split; [exact Ht|].
  assert (Hsched : scheduledInstant e tz start = Some t).
  { unfold scheduledInstant.
    rewrite roundToMinute_spec, applyOffset_spec, Ht by done.
    simpl. f_equal. unfold applyDeliveryHour. rewrite Hnil. reflexivity. }
  split; [exact Hsched|].
  by rewrite ScheduleForTime_scheduledInstant, Hsched.
Qed.

(** The spec's example: start 2024-06-01T10:00:30Z, one hour, gives
    2024-06-01T11:01:00Z. *)
Lemma C4_witness_one_hour :
  let e := event OffsetHour 1 NilDeliveryHour in
  let start := utc 1717236030 in
  let now := utc 1704067200 in
  ScheduleForTime e UTC now start = Ok (Some (utc 1717239660))
  /\ exists t,
       plusOffset (Unit e) (Offset e) (roundUpToMinute (In start UTC)) = Some t
       /\ scheduledInstant e UTC start = Some t
       /\ ScheduleForTime e UTC now start
          = (if Before t now then Ok None else Ok (Some t)).
Proof.
  cbv zeta. split; [vm_compute; reflexivity|].
  apply (C4_rounds_up_then_adds_offset (event OffsetHour 1 NilDeliveryHour) UTC
           (utc 1704067200) (utc 1717236030)).
  - unfold valid. simpl. lia.
  - reflexivity.
  - unfold noOverflow. (split; [|split]); intros H; try discriminate H.
    split; vm_compute; congruence.
  - apply elem_of_cons. right. apply elem_of_cons. by left.
Defined.

(** C9, as the spec states it, fails.  In New York the wall clock jumps
    from 02:00 to 03:00 on 2024-03-10: a delivery hour of 2 on that date
    gives 01:00.  And a delivery hour of 24 gives 00:00 of the next day. *)
Lemma C9_counterexample_hour_not_kept :
  (let e := event OffsetDay 1 2 in
   let start := inLoc newYork2024 1710003600 in
   let t := inLoc newYork2024 1710050400 in
   applyOffset e (roundToMinute (In start newYork2024))
   = Some (inLoc newYork2024 1710086400)
   /\ dateOf (inLoc newYork2024 1710086400) = (2024, 3, 10)
   /\ ScheduleForTime e newYork2024 (utc 1704067200) start = Ok (Some t)
   /\ DeliveryHour e = 2 /\ Hour_of t = 1)
  /\ (let e := event OffsetDay 2 24 in
      let start := utc 1704123000 in
      let t := utc 1704326400 in
      applyOffset e (roundToMinute (In start UTC)) = Some (utc 1704295800)
      /\ dateOf (utc 1704295800) = (2024, 1, 3)
      /\ ScheduleForTime e UTC (utc 1704067200) start = Ok (Some t)
      /\ DeliveryHour e = 24 /\ Hour_of t = 0 /\ dateOf t = (2024, 1, 4)).
Proof. cbv zeta. repeat split; vm_compute; reflexivity. Qed.

(** C9 (amended): for an event with a delivery hour [h] between 0 and 23
    and a recognised unit, if the wall-clock time [h]:00 exists in the
    timezone on the date the offset leads to (it always does in a zone with
    one fixed offset; it does not inside the gap of a zone transition), the
    instant [ScheduleForTime] computes shows hour [h], zero minutes, seconds
    and nanoseconds, on that same calendar date; it is returned unless it
    is before [now]. *)
Theorem C9_delivery_hour_on_same_date (e : CampaignEvent) (tz : Location)
    (now start pre : Time) :
  0 <= DeliveryHour e <= 23 ->
  applyOffset e (roundToMinute (In start tz)) = Some pre ->
  wallClockExists tz (wallAtHour pre (DeliveryHour e)) ->
  exists t,
    scheduledInstant e tz start = Some t
    /\ ScheduleForTime e tz now start
       = (if Before t now then Ok None else Ok (Some t))
    /\ Hour_of t = DeliveryHour e
    /\ Minute_of t = 0 /\ Second_of t = 0 /\ Nanosecond_of t = 0
    /\ dateOf t = dateOf pre.
Proof.
  intros Hh Hpre Hex.
  exists (atWallClock tz (wallAtHour pre (DeliveryHour e)) 0).
  assert (Hsched : scheduledInstant e tz start
                   = Some (atWallClock tz (wallAtHour pre (DeliveryHour e)) 0)).
  { unfold scheduledInstant. rewrite Hpre. simpl. f_equal.
    unfold applyDeliveryHour.
    replace (DeliveryHour e =? NilDeliveryHour) with false
      by (symmetry; apply Z.eqb_neq; unfold NilDeliveryHour; lia).
    by apply Date_atHour. }
  split; [exact Hsched|].
  split; [by rewrite ScheduleForTime_scheduledInstant, Hsched|].
  exact (atWallClock_shows tz pre (DeliveryHour e) Hh Hex).
Qed.

(** The spec's example: start 2024-01-01T15:30:00Z in UTC, two days,
    delivery hour 9, gives 2024-01-03T09:00:00Z. *)
Lemma C9_witness_two_days_at_nine :
  let e := event OffsetDay 2 9 in
  let start := utc 1704123000 in
  let now := utc 1704067200 in
  ScheduleForTime e UTC now start = Ok (Some (utc 1704272400))
  /\ dateOf (utc 1704272400) = (2024, 1, 3)
  /\ exists t,
       scheduledInstant e UTC start = Some t
       /\ ScheduleForTime e UTC now start
          = (if Before t now then Ok None else Ok (Some t))
       /\ Hour_of t = 9
       /\ Minute_of t = 0 /\ Second_of t = 0 /\ Nanosecond_of t = 0
       /\ dateOf t = dateOf (utc 1704295800).
Proof.
  cbv zeta. split; [vm_compute; reflexivity|].
  split; [vm_compute; reflexivity|].
  apply (C9_delivery_hour_on_same_date (event OffsetDay 2 9) UTC
           (utc 1704067200) (utc 1704123000) (utc 1704295800)).
  - simpl. lia.
  - vm_compute. reflexivity.
  - apply (wallClockExists_FixedZone 0).
Defined.

End ScheduleFacts.

(* ===================================================================== *)
(** * Part II, continued: further properties of the code *)
(* ===================================================================== *)

(** ** Broadcast fan-out and sending *)
Section BroadcastMore.
Import Broadcasts BroadcastSpec BroadcastSpec2 Handlers Examples.

(** When the lookups succeed, the contact lists of the batches handed to
    the task queue, taken together, hold every explicit or group-expanded
    contact exactly once and nothing else. *)
Lemma handed_contacts_partition (ro : RangeOrder) (env : Env)
    (bcast : Broadcast) (urnMap : gmap URN ContactID) :
  resolvedURNs env bcast = Some urnMap ->
  allBatchContacts (CreateBroadcastBatches ro env bcast).2
  ≡ₚ elements (targetContacts env bcast).
Proof.
  intros Hres. unfold allBatchContacts, contactsOf.
  destruct (CreateBroadcastBatches_run ro env bcast urnMap Hres)
    as (fulls & remainder & R & U & -> & Hf & Hc & Hl & Hne & HR & HU & HUv).
  cbn [snd].
  rewrite queuedBatches_app, queuedBatches_attempt, queuedBatches_attempts.
  rewrite !fmap_app, <- !list_fmap_compose, concat_app. simpl.
  rewrite app_nil_r.
  replace (concat ((batch_ContactIDs ∘ snd
                      ∘ (fun cs => (chosenQueue env bcast, CreateBatch bcast cs)))
                     <$> fulls))
    with (concat fulls)
    by (f_equal; symmetry; apply list_fmap_id).
  rewrite app_assoc, Hc, (range_set_perm ro).
  destruct (range_map_keys ro R) as [Hnd Hkeys].
  assert (Hrep : (range_map ro R).*1
                 ≡ₚ elements (targetContacts env bcast ∩ urnRecipients urnMap)).
  { apply NoDup_Permutation; [done|apply NoDup_elements|].
    intros x. rewrite Hkeys, elem_of_elements, HR. done. }
  rewrite Hrep, <- elements_disj_union by set_solver.
  f_equiv. intros x.
  destruct (decide (x ∈ urnRecipients urnMap)); set_solver.
Qed.

(** X1: when the lookups succeed, every explicit or group-expanded contact
    is in the contact list of exactly one batch handed to the task queue,
    and nothing else is: the contacts of the batches the queue took and
    those of the batches it refused are, together, each such contact once.
    So no such contact is queued twice, a contact reached only through an
    address is in no contact list, and a recipient is lost exactly when the
    queue refused its batch; with a queue that takes every task the batches
    on the queue hold every such contact exactly once. *)
Theorem X1_each_target_contact_in_exactly_one_batch (ro : RangeOrder)
    (env : Env) (bcast : Broadcast) (urnMap : gmap URN ContactID) :
  resolvedURNs env bcast = Some urnMap ->
  let effs := (CreateBroadcastBatches ro env bcast).2 in
  contactsOf (acceptedBatches env effs) ++ contactsOf (refusedBatches env effs)
  ≡ₚ elements (targetContacts env bcast)
  /\ NoDup (contactsOf (acceptedBatches env effs))
  /\ (forall c, c ∈ targetContacts env bcast ->
        c ∉ contactsOf (acceptedBatches env effs)
        <-> c ∈ contactsOf (refusedBatches env effs))
  /\ (queueAccepts env ->
      contactsOf (acceptedBatches env effs) ≡ₚ elements (targetContacts env bcast)).
Proof.
  intros Hres effs.
  assert (Hall : contactsOf (acceptedBatches env effs)
                 ++ contactsOf (refusedBatches env effs)
                 ≡ₚ elements (targetContacts env bcast)).
  { rewrite <- contactsOf_app, (contactsOf_perm _ _ (accepted_refused_perm env effs)).
    exact (handed_contacts_partition ro env bcast urnMap Hres). }
  assert (Hnd : NoDup (contactsOf (acceptedBatches env effs)
                       ++ contactsOf (refusedBatches env effs)))
    by (rewrite Hall; apply NoDup_elements).
  apply NoDup_app in Hnd as (Hnda & Hdisj & _).
  split; [exact Hall|]. split; [exact Hnda|]. split.
  - intros c Hc. apply elem_of_elements in Hc. rewrite <- Hall in Hc.
    apply elem_of_app in Hc as [Ha|Hr].
    + split; [done|]. intros Hr. by destruct (Hdisj c Ha).
    + split; [done|]. intros _ Ha. by destruct (Hdisj c Ha).
  - intros Hq. rewrite (acceptedBatches_all env effs Hq).
    exact (handed_contacts_partition ro env bcast urnMap Hres).
Qed.

(** A group of three, one of them also reached by an address, and a queue
    that takes every task. *)
Lemma X1_witness_overlap :
  resolvedURNs (okEnv [1; 2; 3]%Z overlapAddresses) overlapBroadcast
  = Some overlapAddresses
  /\ contactsOf
       (acceptedBatches (okEnv [1; 2; 3]%Z overlapAddresses)
          (CreateBroadcastBatches canonicalOrder
             (okEnv [1; 2; 3]%Z overlapAddresses) overlapBroadcast).2)
     ≡ₚ elements (targetContacts (okEnv [1; 2; 3]%Z overlapAddresses)
                    overlapBroadcast).
Proof.
  split; [reflexivity|].
  refine (proj2 (proj2 (proj2
            (X1_each_target_contact_in_exactly_one_batch canonicalOrder
               (okEnv [1; 2; 3]%Z overlapAddresses) overlapBroadcast
               overlapAddresses eq_refl))) _).
  intros q ty org b p. reflexivity.
Defined.

(** X2: when the lookups succeed, the number of batches queued is 1 if
    there is no non-repeated contact, and otherwise the number of
    non-repeated contacts divided by 100, rounded up: there is never an
    extra, empty terminal batch after full ones. *)
Theorem X2_number_of_batches (ro : RangeOrder) (env : Env)
    (bcast : Broadcast) (urnMap : gmap URN ContactID) :
  resolvedURNs env bcast = Some urnMap ->
  let fresh := targetContacts env bcast ∖ urnRecipients urnMap in
  length (queuedBatches (CreateBroadcastBatches ro env bcast).2)
  = if decide (fresh = ∅) then 1%nat else ((size fresh + 99) / 100)%nat.
Proof.
  intros Hres. cbn zeta.
  destruct (CreateBroadcastBatches_run ro env bcast urnMap Hres)
    as (fulls & remainder & R & U & -> & Hf & Hc & Hl & Hne & _).
  cbn [snd].
  rewrite queuedBatches_app, queuedBatches_attempt, queuedBatches_attempts.
  rewrite length_app, length_fmap. cbn [length].
  assert (Hlen : (startBatchSize * length fulls + length remainder
                  = size (targetContacts env bcast ∖ urnRecipients urnMap))%nat).
  { rewrite <- (length_concat_full fulls Hf), <- length_app, Hc,
      (range_set_perm ro). reflexivity. }
  unfold startBatchSize in *.
  destruct (decide (targetContacts env bcast ∖ urnRecipients urnMap = ∅))
    as [Hempty|Hnonempty].
  - rewrite Hempty, size_empty in Hlen. lia.
  - specialize (Hne Hnonempty).
    assert (0 < length remainder)%nat by (destruct remainder; [done|simpl; lia]).
    generalize dependent (size (targetContacts env bcast ∖ urnRecipients urnMap)).
    intros n Hn. clear -Hl H Hn.
    assert (Hq : ((n + 99) / 100 = length fulls + 1)%nat).
    { symmetry. apply (Nat.div_unique _ _ _ (length remainder - 1)); lia. }
    lia.
Qed.

(** 250 contacts make three batches. *)
Lemma X2_witness_250_contacts :
  resolvedURNs (okEnv contacts250 ∅) groupBroadcast = Some ∅
  /\ length (queuedBatches
               (CreateBroadcastBatches reverseOrder (okEnv contacts250 ∅)
                  groupBroadcast).2) = 3%nat.
Proof.
  split; [reflexivity|].
  rewrite (X2_number_of_batches reverseOrder (okEnv contacts250 ∅)
             groupBroadcast ∅ eq_refl).
  vm_compute. reflexivity.
Defined.

(** X3: an error reported by the group resolution has no influence on what
    [CreateBroadcastBatches] does: it returns and queues exactly what it
    would with the same ids and no error.  (Line 54 assigns the error and
    nothing reads it.) *)
Theorem X3_group_resolution_error_is_dropped (ro : RangeOrder) (env : Env)
    (bcast : Broadcast) :
  CreateBroadcastBatches ro env bcast
  = CreateBroadcastBatches ro (withoutGroupError env) bcast.
Proof.
  unfold CreateBroadcastBatches, withoutGroupError. cbn [ContactIDsForGroupIDs
    GetOrgAssets GetSessionAssets ContactIDsFromURNs AddTask].
  destruct (ContactIDsForGroupIDs env (GroupIDs bcast)) as [ids' gerr].
  cbn [fst].
  destruct (GetOrgAssets env (OrgID_of bcast)) as [org|]; [|done].
  destruct (GetSessionAssets env org) as [sa|]; [|done].
  destruct (ContactIDsFromURNs env org sa (URNs bcast)) as [m|]; [|done].
  reflexivity.
Qed.

(** Everything the fan-out does is queueing batch tasks and logging queue
    errors. *)
Lemma fan_out_effects_wellFormed (ro : RangeOrder) (env : Env)
    (bcast : Broadcast) :
  Forall (wellFormedEffect bcast) (CreateBroadcastBatches ro env bcast).2.
Proof.
  destruct (resolvedURNs env bcast) as [urnMap|] eqn:Hres.
  - destruct (CreateBroadcastBatches_run ro env bcast urnMap Hres)
      as (fulls & remainder & R & U & -> & _).
    cbn [snd].
    assert (Hatt : forall q b,
              batch_BroadcastID b = BroadcastID_of bcast ->
              batch_OrgID b = OrgID_of bcast ->
              Forall (wellFormedEffect bcast) (attempt env q (OrgID_of bcast) b)).
    { intros q b Hb Ho. unfold attempt.
      destruct (AddTask env q SendBroadcastBatchType (OrgID_of bcast) b
                  DefaultPriority); repeat constructor; simpl; auto. }
    apply Forall_app. split; [|by apply Hatt].
    induction fulls as [|cs fulls IH]; [constructor|].
    rewrite attempts_cons. apply Forall_app. split; [by apply Hatt|exact IH].
  - destruct (CreateBroadcastBatches_load_error ro env bcast Hres) as [e ->].
    constructor.
Qed.

(** X4: whatever the collaborators answer, everything
    [CreateBroadcastBatches] does is queueing tasks for the batch handler
    (type send_broadcast_batch, default priority, the broadcast's org, each
    batch naming the broadcast and its org) and logging queue errors: it
    never marks a broadcast as sent and never hands anything to courier. *)
Theorem X4_fan_out_only_queues_batch_tasks (ro : RangeOrder) (env : Env)
    (bcast : Broadcast) :
  let effs := (CreateBroadcastBatches ro env bcast).2 in
  Forall (wellFormedEffect bcast) effs
  /\ (forall id, markedSent id effs = 0%nat)
  /\ courierHandovers effs = [].
Proof.
  cbn zeta. pose proof (fan_out_effects_wellFormed ro env bcast) as Hwf.
  split; [exact Hwf|].
  induction Hwf as [|e effs He _ [IH1 IH2]]; [done|].
  destruct e; simpl in He; try done; split; try intros id;
    unfold markedSent, courierHandovers in *; simpl; auto.
Qed.

Lemma batch_handler_on_tasks (marshal : BroadcastBatch -> string)
    (unmarshalBatch : string -> result BroadcastBatch) (worker : Env)
    (bcast : Broadcast) (effs : list effect) :
  Forall (wellFormedEffect bcast) effs ->
  (forall b, b ∈ (queuedBatches effs).*2 -> unmarshalBatch (marshal b) = Ok b) ->
  handleSendBroadcastBatch unmarshalBatch worker <$> queuedTasks marshal effs
  = SendBroadcastBatch worker <$> (queuedBatches effs).*2.
Proof.
  induction 1 as [|e effs He _ IH]; intros Hround; [reflexivity|].
  destruct e as [q ty org b p| | |]; try (apply IH; exact Hround).
  destruct He as (-> & _).
  change (handleSendBroadcastBatch unmarshalBatch worker
            {| TaskType := SendBroadcastBatchType; task_OrgID := org;
               TaskBody := marshal b |}
          :: (handleSendBroadcastBatch unmarshalBatch worker
                <$> queuedTasks marshal effs)
          = SendBroadcastBatch worker b
            :: (SendBroadcastBatch worker <$> (queuedBatches effs).*2)).
  change ((queuedBatches (QueuedTask q SendBroadcastBatchType org b p :: effs)).*2)
    with (b :: (queuedBatches effs).*2) in Hround.
  f_equal.
  - unfold handleSendBroadcastBatch. cbn [TaskType TaskBody].
    rewrite Hround by (by left). reflexivity.
  - apply IH. intros b' Hb'. apply Hround. by right.
Qed.

(** X5: [handleSendBroadcastBatch] accepts what the fan-out produces.  If
    decoding undoes the queue's encoding of the batches queued, every task
    queued by [CreateBroadcastBatches] is handled by sending exactly the
    batch that was queued; and a task of any other type is refused with an
    error and without any effect, whatever its body. *)
Theorem X5_batch_handler_accepts_fan_out_tasks
    (marshal : BroadcastBatch -> string)
    (unmarshalBatch : string -> result BroadcastBatch)
    (ro : RangeOrder) (env worker : Env) (bcast : Broadcast) :
  (forall b, b ∈ (queuedBatches (CreateBroadcastBatches ro env bcast).2).*2 ->
             unmarshalBatch (marshal b) = Ok b) ->
  handleSendBroadcastBatch unmarshalBatch worker
    <$> queuedTasks marshal (CreateBroadcastBatches ro env bcast).2
  = SendBroadcastBatch worker
    <$> (queuedBatches (CreateBroadcastBatches ro env bcast).2).*2
  /\ (forall task, TaskType task ≠ SendBroadcastBatchType ->
        handleSendBroadcastBatch unmarshalBatch worker task
        = (Some ("unknown event type passed to send worker: " +:+ TaskType task),
           [])).
Proof.
  intros Hround. split.
  - apply (batch_handler_on_tasks marshal unmarshalBatch worker bcast);
      [apply fan_out_effects_wellFormed|exact Hround].
  - intros task Hty. unfold handleSendBroadcastBatch.
    by rewrite (proj2 (String.eqb_neq _ _) Hty).
Qed.

(** A broadcast to one contact: its one task, decoded, is sent and marks
    the broadcast as sent. *)
Lemma X5_witness_single_batch :
  let batch := terminalBatch groupBroadcast [5]%Z ∅ in
  let marshal := fun _ : BroadcastBatch => "{}"%string in
  let unmarshal := fun _ : string => Ok batch in
  let effs :=
    (CreateBroadcastBatches canonicalOrder (okEnv [5]%Z ∅) groupBroadcast).2 in
  (queuedBatches effs).*2 = [batch]
  /\ handleSendBroadcastBatch unmarshal (okEnv [] ∅) <$> queuedTasks marshal effs
     = SendBroadcastBatch (okEnv [] ∅) <$> (queuedBatches effs).*2.
Proof.
  cbv zeta.
  assert (Hq : (queuedBatches
                  (CreateBroadcastBatches canonicalOrder (okEnv [5]%Z ∅)
                     groupBroadcast).2).*2
               = [terminalBatch groupBroadcast [5]%Z ∅])
    by (vm_compute; reflexivity).
  split; [exact Hq|].
  refine (proj1 (X5_batch_handler_accepts_fan_out_tasks
                   (fun _ => "{}"%string)
                   (fun _ => Ok (terminalBatch groupBroadcast [5]%Z ∅))
                   canonicalOrder (okEnv [5]%Z ∅) (okEnv [] ∅) groupBroadcast _)).
  intros b Hb. rewrite Hq in Hb. apply list_elem_of_singleton in Hb. by subst.
Defined.

(** X6: [SendBroadcastBatch] hands messages to courier at most once, and
    only the messages that [CreateBroadcastMessages] returned after the org
    assets and the session assets were loaded: when any of these three steps
    fails, nothing reaches courier. *)
Theorem X6_courier_gets_only_created_messages (env : Env)
    (batch : BroadcastBatch) :
  let handovers := courierHandovers (SendBroadcastBatch env batch).2 in
  handovers = []
  \/ exists org sa msgs,
       GetOrgAssets env (batch_OrgID batch) = Ok org
       /\ GetSessionAssets env org = Ok sa
       /\ CreateBroadcastMessages env org sa batch = Ok msgs
       /\ handovers = [msgs].
Proof.
  cbn zeta. unfold SendBroadcastBatch.
  assert (Hdef : forall l,
            courierHandovers
              (l ++ (if IsLast batch
                     then MarkedBroadcastSent (batch_BroadcastID batch)
                          :: match MarkBroadcastSent env (batch_BroadcastID batch) with
                             | Some err =>
                                 [LoggedError "error marking broadcast as sent" err]
                             | None => []
                             end
                     else []))
            = courierHandovers l).
  { intros l. unfold courierHandovers. rewrite omap_app.
    destruct (IsLast batch); [|by rewrite app_nil_r].
    destruct (MarkBroadcastSent env (batch_BroadcastID batch));
      simpl; by rewrite app_nil_r. }
  cbn [snd]. rewrite Hdef.
  destruct (GetOrgAssets env (batch_OrgID batch)) as [org|] eqn:Ho; [|by left].
  destruct (GetSessionAssets env org) as [sa|] eqn:Hs; [|by left].
  destruct (CreateBroadcastMessages env org sa batch) as [msgs|] eqn:Hm;
    [|by left].
  right. exists org, sa, msgs.
  destruct (QueueMessages env msgs); repeat split; done.
Qed.

(** X7: what [SendBroadcastBatch] returns does not depend on whether marking
    the broadcast as sent works; a failure of that step on a terminal batch
    is the last thing logged and is never returned. *)
Theorem X7_mark_sent_failure_is_only_logged (env : Env)
    (batch : BroadcastBatch) (answer : BroadcastID -> option string) :
  (SendBroadcastBatch (withMarkSent env answer) batch).1
  = (SendBroadcastBatch env batch).1
  /\ (forall err,
        IsLast batch = true ->
        MarkBroadcastSent env (batch_BroadcastID batch) = Some err ->
        last (SendBroadcastBatch env batch).2
        = Some (LoggedError "error marking broadcast as sent" err)).
Proof.
  split; [reflexivity|].
  intros err Hlast Hfail. unfold SendBroadcastBatch. cbn [snd].
  rewrite Hlast, Hfail.
  match goal with
  | |- last (?l ++ [?a; ?b]) = _ =>
      change (l ++ [a; b]) with (l ++ [a] ++ [b]); by rewrite app_assoc, last_snoc
  end.
Qed.

(** X8: sending every batch that is on the queue after
    [CreateBroadcastBatches] marks the broadcast as sent exactly once in all
    when the queue took the terminal batch, and never otherwise, whatever
    happens while sending.  A terminal batch is handed to the queue exactly
    when the lookups of the fan-out succeed; so with a queue that takes
    every task the broadcast is marked as sent once when they do and never
    when they fail, and a broadcast whose terminal batch the queue refused
    is never marked as sent. *)
Theorem X8_marked_sent_once_if_terminal_batch_accepted (ro : RangeOrder)
    (env worker : Env) (bcast : Broadcast) :
  let effs := (CreateBroadcastBatches ro env bcast).2 in
  let marks :=
    marksWhenSent worker (BroadcastID_of bcast) (acceptedBatches env effs).*2 in
  marks = match last (queuedBatches effs) with
          | Some terminal =>
              if accepted env (OrgID_of bcast) terminal then 1%nat else 0%nat
          | None => 0%nat
          end
  /\ (forall terminal, last (queuedBatches effs) = Some terminal ->
        IsLast terminal.2 = true)
  /\ (is_Some (last (queuedBatches effs)) <-> is_Some (resolvedURNs env bcast))
  /\ (queueAccepts env ->
      marks = if resolvedURNs env bcast then 1%nat else 0%nat).
Proof.
  assert (Hmark : forall b,
            batch_BroadcastID b = BroadcastID_of bcast ->
            markedSent (BroadcastID_of bcast) (SendBroadcastBatch worker b).2
            = if IsLast b then 1%nat else 0%nat).
  { intros b Hb. unfold SendBroadcastBatch, markedSent. cbn [snd].
    rewrite List.filter_app, length_app.
    assert (Hbody : forall l : option string * list effect,
              (l.2 = [] \/ exists msgs, l.2 = [QueuedToCourier msgs]) ->
              length (List.filter (isMarkedSent (BroadcastID_of bcast)) l.2) = 0%nat).
    { intros l [->|[msgs ->]]; reflexivity. }
    rewrite Hbody.
    - destruct (IsLast b); [|reflexivity]. simpl. rewrite Hb, Z.eqb_refl.
      destruct (MarkBroadcastSent worker (BroadcastID_of bcast)); reflexivity.
    - destruct (GetOrgAssets worker (batch_OrgID b)) as [org|]; [|by left].
      destruct (GetSessionAssets worker org) as [sa|]; [|by left].
      destruct (CreateBroadcastMessages worker org sa b) as [msgs|]; [|by left].
      destruct (QueueMessages worker msgs); right; eauto. }
  assert (Hzero : forall q (fulls : list (list ContactID)),
            sum_list_with
              (fun b => markedSent (BroadcastID_of bcast)
                          (SendBroadcastBatch worker b).2)
              (List.filter (accepted env (OrgID_of bcast))
                 ((fun cs => (q, CreateBatch bcast cs)) <$> fulls)).*2
            = 0%nat).
  { intros q fulls. induction fulls as [|cs fulls IH]; [reflexivity|].
    rewrite fmap_cons. cbn [List.filter].
    destruct (accepted env (OrgID_of bcast) (q, CreateBatch bcast cs)); [|exact IH].
    rewrite fmap_cons. cbn [sum_list_with snd]. rewrite IH.
    by rewrite (Hmark (CreateBatch bcast cs)). }
  cbn zeta. unfold marksWhenSent.
  destruct (resolvedURNs env bcast) as [urnMap|] eqn:Hres.
  - destruct (CreateBroadcastBatches_run ro env bcast urnMap Hres)
      as (fulls & remainder & R & U & -> & _).
    cbn [snd].
    set (terminal := terminalBatch bcast (remainder ++ (range_map ro R).*1) U).
    rewrite queuedBatches_app, queuedBatches_attempt, queuedBatches_attempts.
    rewrite last_snoc.
    assert (Hmarks :
      sum_list_with
        (fun b => markedSent (BroadcastID_of bcast) (SendBroadcastBatch worker b).2)
        (acceptedBatches env
           (attempts env bcast (chosenQueue env bcast) fulls
            ++ attempt env (chosenQueue env bcast) (OrgID_of bcast) terminal)).*2
      = if accepted env (OrgID_of bcast) (chosenQueue env bcast, terminal)
        then 1%nat else 0%nat).
    { rewrite (attempts_of_queuedBatches env bcast (chosenQueue env bcast) fulls
                 terminal) at 1.
      rewrite acceptedBatches_attempts.
      rewrite queuedBatches_app, queuedBatches_attempt, queuedBatches_attempts.
      rewrite List.filter_app, fmap_app, sum_list_with_app, Hzero.
      cbn [List.filter].
      destruct (accepted env (OrgID_of bcast) (chosenQueue env bcast, terminal));
        [|reflexivity].
      cbn [fmap list_fmap sum_list_with snd].
      by rewrite (Hmark terminal). }
    split; [exact Hmarks|]. split; [by intros t [= <-]|].
    split; [split; eauto|].
    intros Hq. rewrite Hmarks. unfold accepted. by rewrite Hq.
  - destruct (CreateBroadcastBatches_load_error ro env bcast Hres) as [e ->].
    cbn. split; [reflexivity|]. split; [discriminate|].
    split; [split; intros [x Hx]; discriminate Hx|]. reflexivity.
Qed.

(** The queue is down: the terminal batch is refused, nothing is on the
    queue and the broadcast is never marked as sent. *)
Lemma X8_witness_queue_down :
  acceptedBatches (queueDownEnv [5]%Z ∅)
    (CreateBroadcastBatches canonicalOrder (queueDownEnv [5]%Z ∅) groupBroadcast).2
  = []
  /\ marksWhenSent (okEnv [] ∅) (BroadcastID_of groupBroadcast)
       (acceptedBatches (queueDownEnv [5]%Z ∅)
          (CreateBroadcastBatches canonicalOrder (queueDownEnv [5]%Z ∅)
             groupBroadcast).2).*2
     = 0%nat.
Proof.
  split; [reflexivity|].
  exact (proj1 (X8_marked_sent_once_if_terminal_batch_accepted canonicalOrder
                  (queueDownEnv [5]%Z ∅) (okEnv [] ∅) groupBroadcast)).
Defined.

(** X9: whatever task [handleSendBroadcast] is given, everything it does
    is queueing batch tasks of the broadcast decoded from the task's body
    (and logging queue errors); it does nothing at all, and returns an
    error, when the task is of another type or its body does not decode. *)
Theorem X9_broadcast_handler_effects (unmarshal : string -> result Broadcast)
    (ro : RangeOrder) (env : Env) (task : Task) :
  let run := handleSendBroadcast unmarshal ro env task in
  (run.2 = [] /\ is_Some run.1
   /\ (TaskType task ≠ SendBroadcastType
       \/ exists e, unmarshal (TaskBody task) = Err e))
  \/ (exists bcast,
        TaskType task = SendBroadcastType
        /\ unmarshal (TaskBody task) = Ok bcast
        /\ run = CreateBroadcastBatches ro env bcast
        /\ Forall (wellFormedEffect bcast) run.2).
Proof.
  cbn zeta. unfold handleSendBroadcast.
  destruct (String.eqb_spec (TaskType task) SendBroadcastType) as [Hty|Hty];
    cbn [negb].
  - destruct (unmarshal (TaskBody task)) as [bcast|e] eqn:Hdec.
    + right. exists bcast. repeat split; try done.
      apply fan_out_effects_wellFormed.
    + left. repeat split; eauto.
  - left. repeat split; eauto.
Qed.

End BroadcastMore.

(** ** Campaign scheduling *)
Section ScheduleMore.
Import GoTime Campaigns ScheduleSpec ScheduleSpec2 Examples.
Local Open Scope Z_scope.

Lemma applyOffset_known (e : CampaignEvent) (t : Time) :
  (Unit e ∈ knownUnits -> is_Some (applyOffset e t))
  /\ (Unit e ∉ knownUnits -> applyOffset e t = None).
Proof.
  unfold applyOffset, knownUnits.
  destruct (String.eqb_spec (Unit e) OffsetMinute) as [->|H1];
    [split; [eauto|intros H; exfalso; apply H; set_solver]|].
  destruct (String.eqb_spec (Unit e) OffsetHour) as [->|H2];
    [split; [eauto|intros H; exfalso; apply H; set_solver]|].
  destruct (String.eqb_spec (Unit e) OffsetDay) as [->|H3];
    [split; [eauto|intros H; exfalso; apply H; set_solver]|].
  destruct (String.eqb_spec (Unit e) OffsetWeek) as [->|H4];
    [split; [eauto|intros H; exfalso; apply H; set_solver]|].
  split; [|done]. intros Hin. exfalso. set_solver.
Qed.

(** X10: [ScheduleForTime] fails exactly when the unit of the event is none
    of minute, hour, day and week, whatever the times and the timezone, and
    then with the message that names the unit. *)
Theorem X10_error_exactly_on_unknown_unit (e : CampaignEvent) (tz : Location)
    (now start : Time) :
  (Unit e ∈ knownUnits <-> exists r, ScheduleForTime e tz now start = Ok r)
  /\ (Unit e ∉ knownUnits <->
      ScheduleForTime e tz now start = Err ("unknown offset unit: " +:+ Unit e)).
Proof.
  destruct (applyOffset_known e (roundToMinute (In start tz))) as [Hk Hu].
  unfold ScheduleForTime.
  destruct (decide (Unit e ∈ knownUnits)) as [Hin|Hout].
  - destruct (Hk Hin) as [t Ht]. rewrite Ht. split; split; try done.
    + intros _. destruct (Before _ now); eauto.
    + destruct (Before _ now); discriminate.
  - rewrite (Hu Hout). split; split; try done.
    intros [r Hr]. discriminate.
Qed.

(** *** Location and order of the result *)

Lemma loc_Add (t : Time) (d : Duration) : loc (Add t d) = loc t.
Proof.
  unfold Add.
  destruct (nsec t + Z.rem d 1000000000 >=? 1000000000); [reflexivity|].
  destruct (nsec t + Z.rem d 1000000000 <? 0); reflexivity.
Qed.

Lemma loc_Truncate (t : Time) (d : Duration) : loc (Truncate t d) = loc t.
Proof. unfold Truncate. destruct (d <=? 0); [reflexivity|apply loc_Add]. Qed.

Lemma loc_Date (y m d hh mm ss ns : Z) (l : Location) :
  loc (Date y m d hh mm ss ns l) = l.
Proof.
  unfold Date.
  destruct (norm y (m - 1) 12) as [y' m'].
  destruct (norm ss ns 1000000000) as [ss' ns'].
  destruct (norm mm ss' 60) as [mm' ss''].
  destruct (norm hh mm' 60) as [hh' mm''].
  destruct (norm d hh' 24) as [d' hh'']. reflexivity.
Qed.

Lemma loc_AddDate (t : Time) (y m d : Z) : loc (AddDate t y m d) = loc t.
Proof. unfold AddDate. destruct (Clock t) as [[hh mm] ss]. apply loc_Date. Qed.

Lemma loc_roundToMinute (t : Time) : loc (roundToMinute t) = loc t.
Proof.
  unfold roundToMinute.
  destruct ((Second_of t >? 0) || (Nanosecond_of t >? 0)); [|reflexivity].
  by rewrite loc_Truncate, loc_Add.
Qed.

Lemma loc_applyOffset (e : CampaignEvent) (t t' : Time) :
  applyOffset e t = Some t' -> loc t' = loc t.
Proof.
  unfold applyOffset.
  destruct (String.eqb (Unit e) OffsetMinute); [intros [= <-]; apply loc_Add|].
  destruct (String.eqb (Unit e) OffsetHour); [intros [= <-]; apply loc_Add|].
  destruct (String.eqb (Unit e) OffsetDay); [intros [= <-]; apply loc_AddDate|].
  destruct (String.eqb (Unit e) OffsetWeek);
    [intros [= <-]; apply loc_AddDate|discriminate].
Qed.

Lemma loc_scheduledInstant (e : CampaignEvent) (tz : Location) (start t : Time) :
  scheduledInstant e tz start = Some t -> loc t = tz.
Proof.
  unfold scheduledInstant.
  destruct (applyOffset e (roundToMinute (In start tz))) as [t'|] eqn:Ho;
    [|discriminate].
  intros [= <-]. unfold applyDeliveryHour.
  destruct (negb (DeliveryHour e =? NilDeliveryHour)); [apply loc_Date|].
  by rewrite (loc_applyOffset _ _ _ Ho), loc_roundToMinute.
Qed.

(** X11: a time returned by [ScheduleForTime] is presented in the
    campaign's timezone, whatever location the start came in, and is never
    before [now]: for valid times its instant is [now]'s or later. *)
Theorem X11_result_in_timezone_and_not_in_the_past (e : CampaignEvent)
    (tz : Location) (now start t : Time) :
  valid start -> valid now ->
  ScheduleForTime e tz now start = Ok (Some t) ->
  loc t = tz /\ instant now <= instant t.
Proof.
  intros Hs Hn. rewrite ScheduleForTime_scheduledInstant.
  destruct (scheduledInstant e tz start) as [t'|] eqn:Hsched; [|discriminate].
  destruct (Before t' now) eqn:HB; [discriminate|]. intros [= <-].
  split; [by eapply loc_scheduledInstant|].
  pose proof (scheduledInstant_valid e tz start t' Hs Hsched) as Hv.
  pose proof (Before_instant t' now Hv Hn) as Hiff.
  destruct (Z.lt_ge_cases (instant t') (instant now)) as [Hlt|Hge]; [|lia].
  apply Hiff in Hlt. congruence.
Qed.

(** A start in New York, scheduled for a campaign in UTC. *)
Lemma X11_witness_other_location :
  let e := event OffsetHour 1 NilDeliveryHour in
  let start := inLoc newYork2024 1717236000 in
  let now := utc 1704067200 in
  ScheduleForTime e UTC now start = Ok (Some (utc 1717239600))
  /\ loc (utc 1717239600) = UTC
  /\ instant now <= instant (utc 1717239600).
Proof.
  cbv zeta. split; [vm_compute; reflexivity|].
  apply (X11_result_in_timezone_and_not_in_the_past
           (event OffsetHour 1 NilDeliveryHour) UTC (utc 1704067200)
           (inLoc newYork2024 1717236000) (utc 1717239600)).
  - unfold valid. simpl. lia.
  - unfold valid. simpl. lia.
  - vm_compute. reflexivity.
Defined.

(** *** Whole seconds *)

Lemma nsec_roundUpToMinute (t : Time) : nsec (roundUpToMinute t) = 0.
Proof.
  unfold roundUpToMinute.
  destruct (decide (onMinuteBoundary t)) as [[_ Hn]|_]; [exact Hn|].
  unfold atInstant, nextWholeMinute. cbn [nsec].
  replace (60000000000 * (instant t / 60000000000 + 1))
    with ((60 * (instant t / 60000000000 + 1)) * 1000000000) by lia.
  apply Z.mod_mul. lia.
Qed.

Lemma nsec_plusOffset (u : OffsetUnit) (n : Z) (t t' : Time) :
  nsec t = 0 -> plusOffset u n t = Some t' -> nsec t' = 0.
Proof.
  intros Hn. unfold plusOffset.
  assert (Hk : forall k, (instant t + n * (k * 1000000000)) mod 1000000000 = 0).
  { intros k. unfold instant. rewrite Hn.
    replace (unixSec t * 1000000000 + 0 + n * (k * 1000000000))
      with ((unixSec t + n * k) * 1000000000) by lia.
    apply Z.mod_mul. lia. }
  destruct (decide (u = OffsetMinute));
    [intros [= <-]; exact (Hk 60)|].
  destruct (decide (u = OffsetHour));
    [intros [= <-]; exact (Hk 3600)|].
  destruct (decide (u = OffsetDay)); [intros [= <-]; exact Hn|].
  destruct (decide (u = OffsetWeek)); [intros [= <-]; exact Hn|discriminate].
Qed.

Lemma nsec_Date_zero (y m d hh : Z) (l : Location) :
  nsec (Date y m d hh 0 0 0 l) = 0.
Proof.
  unfold Date.
  destruct (norm y (m - 1) 12) as [y' m'].
  rewrite (norm_id 0 0 1000000000) by lia.
  rewrite (norm_id 0 0 60) by lia.
  rewrite (norm_id hh 0 60) by lia.
  destruct (norm d hh 24) as [d' hh']. reflexivity.
Qed.

(** X12: when the offset does not overflow, the instant [ScheduleForTime]
    computes from a valid start never has a sub-second component, with or
    without a delivery hour: fires fall on whole seconds. *)
Theorem X12_scheduled_on_whole_second (e : CampaignEvent) (tz : Location)
    (start t : Time) :
  valid start -> noOverflow e ->
  scheduledInstant e tz start = Some t ->
  Nanosecond_of t = 0.
Proof.
  intros Hv Hno. unfold scheduledInstant.
  assert (Hvin : valid (In start tz)) by exact Hv.
  rewrite roundToMinute_spec by done.
  rewrite applyOffset_spec
    by (try done; by destruct (roundUpToMinute_bounds _ Hvin)).
  destruct (plusOffset (Unit e) (Offset e) (roundUpToMinute (In start tz)))
    as [t'|] eqn:Hp; [|discriminate].
  intros [= <-]. unfold applyDeliveryHour, Nanosecond_of.
  destruct (negb (DeliveryHour e =? NilDeliveryHour)); [apply nsec_Date_zero|].
  eapply nsec_plusOffset; [|exact Hp]. apply nsec_roundUpToMinute.
Qed.

(** A start with half a second on it. *)
Lemma X12_witness_half_second :
  let e := event OffsetDay 3 NilDeliveryHour in
  let start := {| unixSec := 1717236030; nsec := 500000000; loc := UTC |} in
  scheduledInstant e UTC start = Some (utc 1717495260)
  /\ Nanosecond_of (utc 1717495260) = 0.
Proof.
  cbv zeta. split; [vm_compute; reflexivity|].
  apply (X12_scheduled_on_whole_second (event OffsetDay 3 NilDeliveryHour) UTC
           {| unixSec := 1717236030; nsec := 500000000; loc := UTC |}
           (utc 1717495260)).
  - unfold valid. simpl. lia.
  - unfold noOverflow. (split; [|split]); intros Hu; discriminate Hu.
  - vm_compute. reflexivity.
Defined.

(** *** Zones with whole-minute offsets *)

Lemma lookup_tx_whole (txs : list zoneTrans) (sec : Z) :
  Forall (fun tr => offset tr mod 60 = 0) txs ->
  forall cur_off cur_start, cur_off mod 60 = 0 ->
  (lookup_tx txs sec cur_off cur_start).1.1 mod 60 = 0.
Proof.
  induction 1 as [|tr txs Htr _ IH]; intros cur_off cur_start Hcur; simpl.
  - exact Hcur.
  - destruct (sec <? when tr); [exact Hcur|]. by apply IH.
Qed.

Lemma zone_offset_whole (l : Location) (sec : Z) :
  wholeMinuteZone l -> zone_offset l sec mod 60 = 0.
Proof.
  intros [H0 Htx]. unfold zone_offset, lookup. by apply lookup_tx_whole.
Qed.

(** In such a zone the wall clock is on a minute boundary exactly when the
    instant is a whole minute. *)
Lemma onMinuteBoundary_instant (t : Time) :
  wholeMinuteZone (loc t) -> valid t ->
  (onMinuteBoundary t <-> instant t mod 60000000000 = 0).
Proof.
  intros Hz Hv. unfold onMinuteBoundary, Second_of, Nanosecond_of, instant.
  rewrite abs_wallSeconds. unfold wallSeconds.
  pose proof (zone_offset_whole (loc t) (unixSec t) Hz) as Ho.
  change secondsPerMinute with 60. unfold valid in Hv.
  generalize dependent (zone_offset (loc t) (unixSec t)). intros off Ho.
  generalize dependent (nsec t). intros ns Hv.
  generalize (unixSec t). intros u.
  split; [intros [H1 H2]|intros H]; Z.to_euclidean_division_equations; lia.
Qed.

(** X13: in a timezone whose offsets are whole minutes, rounding a valid
    time to the minute gives a time on a minute boundary of the wall clock,
    and rounding again changes nothing: scheduling from an already
    scheduled time does not drift. *)
Theorem X13_rounding_is_idempotent (t : Time) :
  wholeMinuteZone (loc t) -> valid t ->
  onMinuteBoundary (roundToMinute t)
  /\ roundToMinute (roundToMinute t) = roundToMinute t.
Proof.
  intros Hz Hv.
  destruct (roundUpToMinute_bounds t Hv) as (Hv' & Hl & _ & Hnext).
  assert (Hb : onMinuteBoundary (roundUpToMinute t)).
  { apply onMinuteBoundary_instant; [by rewrite Hl|done|].
    destruct (decide (onMinuteBoundary t)) as [Hon|Hoff].
    - unfold roundUpToMinute. rewrite decide_True by done.
      by apply onMinuteBoundary_instant.
    - by apply Hnext. }
  rewrite roundToMinute_spec by done. split; [exact Hb|].
  rewrite roundToMinute_spec by done.
  unfold roundUpToMinute at 1. by rewrite decide_True.
Qed.

(** 06:00:30 in New York (10:00:30 UTC) rounds to 06:01:00, and stays
    there. *)
Lemma X13_witness_new_york :
  let t := inLoc newYork2024 1717236030 in
  roundToMinute t = inLoc newYork2024 1717236060
  /\ onMinuteBoundary (roundToMinute t)
  /\ roundToMinute (roundToMinute t) = roundToMinute t.
Proof.
  cbv zeta. split; [vm_compute; reflexivity|].
  apply (X13_rounding_is_idempotent (inLoc newYork2024 1717236030)).
  - split; [reflexivity|]. repeat constructor.
  - unfold valid. simpl. lia.
Defined.

Lemma instant_roundUpToMinute (t : Time) :
  wholeMinuteZone (loc t) -> valid t ->
  instant (roundUpToMinute t)
  = 60000000000 * ((instant t + 59999999999) / 60000000000).
Proof.
  intros Hz Hv. unfold roundUpToMinute.
  destruct (decide (onMinuteBoundary t)) as [Hon|Hoff].
  - apply onMinuteBoundary_instant in Hon; [|done|done].
    generalize dependent (instant t). intros n Hn.
    Z.to_euclidean_division_equations. lia.
  - assert (Hn : instant t mod 60000000000 ≠ 0)
      by (intros H; apply Hoff; by apply onMinuteBoundary_instant).
    destruct (instant_atInstant (loc t) (nextWholeMinute (instant t))) as [-> _].
    unfold nextWholeMinute.
    generalize dependent (instant t). intros n Hn.
    Z.to_euclidean_division_equations. lia.
Qed.

(** X14: for minute and hour offsets without overflow and without a
    delivery hour, in a timezone whose offsets are whole minutes, a later
    start never gets an earlier fire: the computed instant is monotone in
    the start. *)
Theorem X14_later_start_never_fires_earlier (e : CampaignEvent)
    (tz : Location) (start1 start2 t1 t2 : Time) :
  wholeMinuteZone tz -> valid start1 -> valid start2 ->
  DeliveryHour e = NilDeliveryHour -> noOverflow e ->
  Unit e ∈ [OffsetMinute; OffsetHour] ->
  instant start1 <= instant start2 ->
  scheduledInstant e tz start1 = Some t1 ->
  scheduledInstant e tz start2 = Some t2 ->
  instant t1 <= instant t2.
Proof.
  intros Hz Hv1 Hv2 Hnil Hno Hunit Hle.
  assert (Hsched : forall start, valid start ->
            scheduledInstant e tz start
            = plusOffset (Unit e) (Offset e) (roundUpToMinute (In start tz))).
  { intros start Hv. unfold scheduledInstant.
    assert (Hvin : valid (In start tz)) by exact Hv.
    rewrite roundToMinute_spec by done.
    rewrite applyOffset_spec
      by (try done; by destruct (roundUpToMinute_bounds _ Hvin)).
    unfold applyDeliveryHour. rewrite Hnil. simpl.
    by destruct (plusOffset _ _ _). }
  rewrite (Hsched start1 Hv1), (Hsched start2 Hv2).
  pose proof (instant_roundUpToMinute (In start1 tz) Hz Hv1) as H1.
  pose proof (instant_roundUpToMinute (In start2 tz) Hz Hv2) as H2.
  change (instant (In start1 tz)) with (instant start1) in H1.
  change (instant (In start2 tz)) with (instant start2) in H2.
  assert (Hmono : instant (roundUpToMinute (In start1 tz))
                  <= instant (roundUpToMinute (In start2 tz))).
  { rewrite H1, H2. clear -Hle.
    generalize dependent (instant start1). generalize (instant start2).
    intros b a Hab. Z.to_euclidean_division_equations. lia. }
  unfold plusOffset.
  apply elem_of_cons in Hunit as [->|Hunit].
  - simpl. intros [= <-] [= <-].
    destruct (instant_atInstant tz
                (instant (roundUpToMinute (In start1 tz)) + Offset e * 60000000000))
      as [Hi1 _].
    destruct (instant_atInstant tz
                (instant (roundUpToMinute (In start2 tz)) + Offset e * 60000000000))
      as [Hi2 _].
    assert (Hl1 : loc (roundUpToMinute (In start1 tz)) = tz)
      by (by destruct (roundUpToMinute_bounds (In start1 tz) Hv1) as (_ & ? & _)).
    assert (Hl2 : loc (roundUpToMinute (In start2 tz)) = tz)
      by (by destruct (roundUpToMinute_bounds (In start2 tz) Hv2) as (_ & ? & _)).
    rewrite Hl1, Hl2, Hi1, Hi2. lia.
  - apply elem_of_cons in Hunit as [->|Hunit]; [|by apply elem_of_nil in Hunit].
    simpl. intros [= <-] [= <-].
    destruct (instant_atInstant tz
                (instant (roundUpToMinute (In start1 tz)) + Offset e * 3600000000000))
      as [Hi1 _].
    destruct (instant_atInstant tz
                (instant (roundUpToMinute (In start2 tz)) + Offset e * 3600000000000))
      as [Hi2 _].
    assert (Hl1 : loc (roundUpToMinute (In start1 tz)) = tz)
      by (by destruct (roundUpToMinute_bounds (In start1 tz) Hv1) as (_ & ? & _)).
    assert (Hl2 : loc (roundUpToMinute (In start2 tz)) = tz)
      by (by destruct (roundUpToMinute_bounds (In start2 tz) Hv2) as (_ & ? & _)).
    rewrite Hl1, Hl2, Hi1, Hi2. lia.
Qed.

(** Two starts twenty seconds apart fall on the same minute. *)
Lemma X14_witness_same_minute :
  let e := event OffsetMinute 5 NilDeliveryHour in
  scheduledInstant e UTC (utc 1717236010) = Some (utc 1717236360)
  /\ scheduledInstant e UTC (utc 1717236030) = Some (utc 1717236360)
  /\ instant (utc 1717236360) <= instant (utc 1717236360).
Proof.
  cbv zeta. split; [vm_compute; reflexivity|].
  split; [vm_compute; reflexivity|].
  apply (X14_later_start_never_fires_earlier
           (event OffsetMinute 5 NilDeliveryHour) UTC
           (utc 1717236010) (utc 1717236030)).
  - split; [reflexivity|constructor].
  - unfold valid. simpl. lia.
  - unfold valid. simpl. lia.
  - reflexivity.
  - unfold noOverflow. (split; [|split]); intros Hu; try discriminate Hu.
    split; vm_compute; congruence.
  - apply elem_of_cons. by left.
  - unfold instant. simpl. lia.
  - vm_compute. reflexivity.
  - vm_compute. reflexivity.
Defined.

(** *** Days in a fixed zone *)

Lemma plusCalendarDays_FixedZone (off : Z) (t : Time) (n : Z) :
  loc t = FixedZone off -> valid t ->
  plusCalendarDays t n
  = atInstant (FixedZone off) (instant t + n * 86400000000000).
Proof.
  intros Hl Hv.
  destruct (instant_atInstant (FixedZone off) (instant t + n * 86400000000000))
    as [Hi Hv'].
  apply time_eq; [exact Hv|exact Hv'| |exact Hl].
  rewrite Hi.
  unfold plusCalendarDays, atWallClock, wallSeconds, instant.
  cbn [unixSec nsec]. rewrite Hl.
  assert (Hoff : forall s, zone_offset (FixedZone off) s = off) by reflexivity.
  rewrite Hoff.
  pose proof (wallClockExists_FixedZone off (unixSec t + off + 86400 * n)) as Hex.
  unfold wallClockExists in Hex. rewrite Hoff in Hex. lia.
Qed.

(** X15: in a timezone with one fixed offset, a day offset of [n] without a
    delivery hour moves the rounded start by exactly [n] times 24 hours, and
    a week offset of [n] (without overflow) by exactly [7 n] times 24
    hours. *)
Theorem X15_days_in_fixed_zone_are_24_hours (e : CampaignEvent) (off : Z)
    (start : Time) :
  valid start -> DeliveryHour e = NilDeliveryHour -> noOverflow e ->
  Unit e ∈ [OffsetDay; OffsetWeek] ->
  scheduledInstant e (FixedZone off) start
  = Some (atInstant (FixedZone off)
            (instant (roundUpToMinute (In start (FixedZone off)))
             + (if decide (Unit e = OffsetWeek) then 7 * Offset e else Offset e)
               * 86400000000000)).
Proof.
  intros Hv Hnil Hno Hunit. unfold scheduledInstant.
  assert (Hvin : valid (In start (FixedZone off))) by exact Hv.
  destruct (roundUpToMinute_bounds _ Hvin) as (Hvr & Hlr & _).
  rewrite roundToMinute_spec by done.
  rewrite applyOffset_spec by done.
  unfold applyDeliveryHour. rewrite Hnil. cbn [Z.eqb negb].
  unfold plusOffset.
  apply elem_of_cons in Hunit as [Hu|Hunit].
  - rewrite Hu. simpl. f_equal.
    by rewrite (plusCalendarDays_FixedZone off) by done.
  - apply elem_of_cons in Hunit as [Hu|Hunit]; [|by apply elem_of_nil in Hunit].
    rewrite Hu. simpl. f_equal.
    rewrite (plusCalendarDays_FixedZone off) by done.
    f_equal. lia.
Qed.

(** Two weeks after 2024-06-01T10:00:30Z is 2024-06-15T10:01:00Z. *)
Lemma X15_witness_two_weeks :
  let e := event OffsetWeek 2 NilDeliveryHour in
  scheduledInstant e (FixedZone 0) (utc 1717236030)
  = Some (atInstant (FixedZone 0) (1717236060000000000 + 14 * 86400000000000)).
Proof.
  cbv zeta.
  rewrite (X15_days_in_fixed_zone_are_24_hours
             (event OffsetWeek 2 NilDeliveryHour) 0 (utc 1717236030)).
  - vm_compute. reflexivity.
  - unfold valid. simpl. lia.
  - reflexivity.
  - unfold noOverflow. (split; [|split]); intros Hu; try discriminate Hu.
    split; vm_compute; congruence.
  - apply elem_of_cons. right. apply elem_of_cons. by left.
Defined.

End ScheduleMore.

(** ** Scheduling for a contact *)
Section ContactMore.
Import GoTime Campaigns CampaignContacts ScheduleSpec ScheduleSpec2 Examples.
Local Open Scope Z_scope.

Lemma startFor_qualifies (e : CampaignEvent) (contact : Contact) (start : Time) :
  startFor e contact = Some start -> QualifiesByField e contact = true.
Proof.
  unfold startFor, QualifiesByField.
  destruct (decide (RelativeToKey e = CreatedOnKey)) as [->|Hne]; [done|].
  rewrite (proj2 (String.eqb_neq _ _) Hne).
  by destruct (Fields contact !! RelativeToKey e) as [[]|].
Qed.

Lemma ScheduleForContact_run (showTime : Time -> string) (showID : Z -> string)
    (campaign : Campaign) (e : CampaignEvent) (tz : Location) (now : Time)
    (contact : Contact) :
  ScheduleForContact showTime showID campaign e tz now contact
  = if negb (QualifiesByGroup campaign contact) then Ok None
    else match startFor e contact with
         | None => Ok None
         | Some start =>
             match ScheduleForTime e tz now start with
             | Err err =>
                 Err ("error calculating offset for start: " +:+ showTime start
                      +:+ " and event: " +:+ showID (ID e) +:+ ": " +:+ err)
             | Ok scheduled => Ok scheduled
             end
         end.
Proof.
  assert (Hstart :
    (if String.eqb (RelativeToKey e) CreatedOnKey then Some (CreatedOn contact)
     else match Fields contact !! RelativeToKey e with
          | Some (QueryTime t) => Some t
          | _ => None
          end) = startFor e contact).
  { unfold startFor.
    destruct (String.eqb_spec (RelativeToKey e) CreatedOnKey) as [He|He].
    - by rewrite decide_True.
    - by rewrite decide_False. }
  unfold ScheduleForContact. rewrite <- Hstart.
  destruct (negb (QualifiesByGroup campaign contact)); [reflexivity|].
  destruct (String.eqb (RelativeToKey e) CreatedOnKey); [reflexivity|].
  by destruct (Fields contact !! RelativeToKey e) as [[]|].
Qed.

Lemma ScheduleForTime_cases (e : CampaignEvent) (tz : Location) (now start : Time) :
  (Unit e ∈ knownUnits /\ exists r, ScheduleForTime e tz now start = Ok r)
  \/ (Unit e ∉ knownUnits
      /\ ScheduleForTime e tz now start = Err ("unknown offset unit: " +:+ Unit e)).
Proof.
  unfold ScheduleForTime.
  destruct (decide (Unit e ∈ knownUnits)) as [Hin|Hout].
  - left. split; [exact Hin|].
    destruct (proj1 (applyOffset_known e (roundToMinute (In start tz))) Hin)
      as [t ->].
    destruct (Before _ now); eauto.
  - right. split; [exact Hout|].
    by rewrite (proj2 (applyOffset_known e (roundToMinute (In start tz))) Hout).
Qed.

(** X16: [ScheduleForContact] gives a fire time exactly when the contact is
    in the campaign's group, has a start for the event (its creation time,
    or a date in the event's field) and [ScheduleForTime] gives that time
    for this start; so a fire implies that the contact qualifies by group
    and by field.  A contact outside the group, or without a date in the
    field, gets no fire and no error, even when the event's unit is
    unknown. *)
Theorem X16_fire_only_for_qualifying_contact
    (showTime : Time -> string) (showID : Z -> string)
    (campaign : Campaign) (e : CampaignEvent) (tz : Location) (now : Time)
    (contact : Contact) :
  (forall t,
     ScheduleForContact showTime showID campaign e tz now contact = Ok (Some t)
     <-> QualifiesByGroup campaign contact = true
         /\ exists start, startFor e contact = Some start
                          /\ ScheduleForTime e tz now start = Ok (Some t))
  /\ (forall t,
        ScheduleForContact showTime showID campaign e tz now contact = Ok (Some t)
        -> QualifiesByGroup campaign contact = true
           /\ QualifiesByField e contact = true)
  /\ (QualifiesByGroup campaign contact = false \/ startFor e contact = None ->
      ScheduleForContact showTime showID campaign e tz now contact = Ok None).
Proof.
  pose proof (ScheduleForContact_run showTime showID campaign e tz now contact)
    as Hrun.
  assert (Hiff : forall t,
     ScheduleForContact showTime showID campaign e tz now contact = Ok (Some t)
     <-> QualifiesByGroup campaign contact = true
         /\ exists start, startFor e contact = Some start
                          /\ ScheduleForTime e tz now start = Ok (Some t)).
  { intros t. rewrite Hrun.
    destruct (QualifiesByGroup campaign contact); cbn [negb].
    - destruct (startFor e contact) as [start|].
      + destruct (ScheduleForTime e tz now start) as [r|err] eqn:Hs.
        * split; [intros [= ->]; eauto|].
          intros (_ & start' & [= <-] & Hs'). congruence.
        * split; [discriminate|].
          intros (_ & start' & [= <-] & Hs'). congruence.
      + split; [discriminate|]. intros (_ & start' & Hs' & _). discriminate.
    - split; [discriminate|]. intros [Hf _]. discriminate. }
  split; [exact Hiff|]. split.
  - intros t Ht. apply Hiff in Ht as (Hg & start & Hs & _).
    split; [exact Hg|]. by eapply startFor_qualifies.
  - rewrite Hrun. intros [->| ->]; [reflexivity|].
    by destruct (negb (QualifiesByGroup campaign contact)).
Qed.

(** X24: [ScheduleForContact] fails exactly when the contact is in the
    campaign's group, has a start for the event and the event's unit is
    unknown; the message then names the start, the event and the unit.  So
    an event with an unknown unit is no error for the contacts it does not
    concern. *)
Theorem X24_contact_error_exactly_on_unknown_unit
    (showTime : Time -> string) (showID : Z -> string)
    (campaign : Campaign) (e : CampaignEvent) (tz : Location) (now : Time)
    (contact : Contact) (msg : string) :
  ScheduleForContact showTime showID campaign e tz now contact = Err msg
  <-> QualifiesByGroup campaign contact = true
      /\ Unit e ∉ knownUnits
      /\ exists start,
           startFor e contact = Some start
           /\ msg = "error calculating offset for start: " +:+ showTime start
                    +:+ " and event: " +:+ showID (ID e)
                    +:+ ": " +:+ "unknown offset unit: " +:+ Unit e.
Proof.
  rewrite ScheduleForContact_run.
  destruct (QualifiesByGroup campaign contact); cbn [negb].
  - destruct (startFor e contact) as [start|].
    + destruct (ScheduleForTime_cases e tz now start)
        as [(Hin & r & ->)|(Hout & ->)].
      * split; [discriminate|]. by intros (_ & Hout & _).
      * split.
        -- intros [= <-]. split; [done|]. split; [exact Hout|]. by exists start.
        -- intros (_ & _ & start' & [= <-] & ->). reflexivity.
    + split; [discriminate|]. intros (_ & _ & start' & Hs & _). discriminate Hs.
  - split; [discriminate|]. intros (Hf & _). discriminate Hf.
Qed.

(** X25: qualifying by field is not enough for a fire.  A contact whose
    field holds a value that is not a date qualifies by field, and gets
    neither a fire nor an error from [ScheduleForContact], in the group or
    not, whatever the event's unit. *)
Theorem X25_field_that_is_not_a_date
    (showTime : Time -> string) (showID : Z -> string)
    (campaign : Campaign) (e : CampaignEvent) (tz : Location) (now : Time)
    (contact : Contact) (v : QueryValue) :
  RelativeToKey e <> CreatedOnKey ->
  Fields contact !! RelativeToKey e = Some v ->
  (forall t, v <> QueryTime t) ->
  QualifiesByField e contact = true
  /\ ScheduleForContact showTime showID campaign e tz now contact = Ok None.
Proof.
  intros Hkey Hv Hdate. split.
  - unfold QualifiesByField. rewrite Hv. by destruct (String.eqb _ _).
  - rewrite ScheduleForContact_run.
    destruct (negb (QualifiesByGroup campaign contact)); [reflexivity|].
    unfold startFor. rewrite decide_False by exact Hkey. rewrite Hv.
    destruct v as [t| | |]; try reflexivity. by destruct (Hdate t).
Qed.

(** A doctor whose field holds a text qualifies by group and by field, and
    gets no fire. *)
Lemma X25_witness_text_in_date_field :
  QualifiesByGroup reminders textContact = true
  /\ QualifiesByField dueEvent textContact = true
  /\ ScheduleForContact (fun _ => "t"%string) (fun _ => "4"%string) reminders
       dueEvent UTC (utc 1717236000) textContact = Ok None.
Proof.
  split; [reflexivity|].
  apply (X25_field_that_is_not_a_date (fun _ => "t"%string) (fun _ => "4"%string)
           reminders dueEvent UTC (utc 1717236000) textContact (QueryText "soon")).
  - discriminate.
  - reflexivity.
  - intros t. discriminate.
Defined.

End ContactMore.

(** ** The commit hook and its handler *)
Section HookMore.
Import Hooks HookSpec HookHandlers Examples Examples2.

(** X17: only the last event of a session matters to [Apply].  If every
    session's list ends with a contact-language-changed event, whatever the
    number and the kind of the events before it, [Apply] hands [BulkSQL]
    one row for each session, carrying the session's contact and the value
    of that last event, and returns what [BulkSQL] answers. *)
Theorem X17_only_the_last_event_counts
    (BulkSQL : string -> string -> list languageUpdate -> option string)
    (ro : RangeOrder) (sessions : Sessions) :
  (forall p s e, sessions !! p = Some (s, e) ->
     exists before lang, e = before ++ [ContactLanguageChangedEvent lang]) ->
  exists rows,
    Apply BulkSQL ro sessions
    = Returns (BulkSQL "updating contact language" updateContactLanguageSQL rows)
    /\ length rows = size sessions
    /\ (forall p s before lang,
          sessions !! p = Some (s, before ++ [ContactLanguageChangedEvent lang]) ->
          {| lu_ContactID := ContactID s; lu_Language := lang |} ∈ rows)
    /\ (forall row, row ∈ rows ->
          exists p s before,
            sessions !! p
            = Some (s, before ++ [ContactLanguageChangedEvent (lu_Language row)])
            /\ lu_ContactID row = ContactID s).
Proof.
  intros Hpre.
  assert (Hlast : forall before lang,
            lastValue (before ++ [ContactLanguageChangedEvent lang]) = Some lang).
  { intros before lang. unfold lastValue. by rewrite last_snoc. }
  assert (Hends : forall p s e, sessions !! p = Some (s, e) ->
                                endsWithLanguageChange e).
  { intros p s e Hp. destruct (Hpre p s e Hp) as (before & lang & ->).
    unfold endsWithLanguageChange. rewrite Hlast. eauto. }
  exists (rowOf <$> range_map ro sessions).
  split; [unfold Apply; by rewrite (languageUpdates_returns ro sessions Hends)|].
  split; [rewrite length_fmap, (range_map_perm ro); apply length_map_to_list|].
  split.
  - intros p s before lang Hp. apply list_elem_of_fmap.
    exists (p, (s, before ++ [ContactLanguageChangedEvent lang])). split.
    + unfold rowOf. simpl. by rewrite Hlast.
    + rewrite (range_map_perm ro). by apply elem_of_map_to_list.
  - intros row Hrow. apply list_elem_of_fmap in Hrow as ([p [s e]] & -> & Hin).
    rewrite (range_map_perm ro) in Hin. apply elem_of_map_to_list in Hin.
    destruct (Hpre p s e Hin) as (before & lang & ->).
    exists p, s, before. unfold rowOf. simpl. rewrite Hlast. simpl. auto.
Qed.

(** A name change followed by a language change: one row, for the language
    change. *)
Lemma X17_witness_mixed_events :
  Apply (fun _ _ _ => None) canonicalOrder mixedEvents = Returns None
  /\ languageUpdates canonicalOrder mixedEvents
     = Returns [ {| lu_ContactID := 77; lu_Language := "fra" |} ]
  /\ exists rows,
       Apply (fun _ _ _ => None) canonicalOrder mixedEvents = Returns None
       /\ length rows = size mixedEvents
       /\ (forall p s before lang,
             mixedEvents !! p
             = Some (s, before ++ [ContactLanguageChangedEvent lang]) ->
             {| lu_ContactID := ContactID s; lu_Language := lang |} ∈ rows)
       /\ (forall row, row ∈ rows ->
             exists p s before,
               mixedEvents !! p
               = Some (s, before ++ [ContactLanguageChangedEvent (lu_Language row)])
               /\ lu_ContactID row = ContactID s).
Proof.
  split; [vm_compute; reflexivity|]. split; [vm_compute; reflexivity|].
  apply (X17_only_the_last_event_counts (fun _ _ _ => None) canonicalOrder
           mixedEvents).
  intros p s e Hp. unfold mixedEvents in Hp.
  apply lookup_singleton_Some in Hp as [_ Hp]. injection Hp as <- <-.
  by exists [ContactNameChangedEvent "Ann"], "fra"%string.
Defined.

Lemma languagesOf_cons (p p0 : SessionPtr) (lang : string)
    (evs : list (SessionPtr * Event)) :
  languagesOf p ((p0, ContactLanguageChangedEvent lang) :: evs)
  = if decide (p0 = p) then lang :: languagesOf p evs else languagesOf p evs.
Proof. unfold languagesOf. simpl. by destruct (decide (p0 = p)). Qed.

(** What handling a run of events leaves in the sessions. *)
Lemma handleEvents_spec (deref : SessionPtr -> Session)
    (evs : list (SessionPtr * Event)) :
  forall sessions sessions',
    handleEvents deref evs sessions = Returns sessions' ->
    forall p,
      sessions' !! p
      = match languagesOf p evs with
        | [] => sessions !! p
        | langs =>
            Some (deref p,
                  (default (deref p, []) (sessions !! p)).2 ++ languageChanges langs)
        end.
Proof.
  induction evs as [|[p0 e] evs IH]; intros sessions sessions' Hrun p.
  - simpl in Hrun. by injection Hrun as <-.
  - simpl in Hrun. destruct e as [lang| |]; try discriminate Hrun.
    simpl in Hrun. rewrite (IH _ _ Hrun p). clear IH Hrun.
    rewrite languagesOf_cons. unfold AddPreCommitEvent.
    destruct (decide (p0 = p)) as [->|Hne].
    + rewrite lookup_insert_eq. cbn [default snd].
      destruct (languagesOf p evs) as [|l ls].
      * reflexivity.
      * f_equal. f_equal. unfold id. cbn [snd].
        rewrite <- app_assoc. reflexivity.
    + rewrite lookup_insert_ne by done. reflexivity.
Qed.

Lemma handleEvents_returns (deref : SessionPtr -> Session)
    (evs : list (SessionPtr * Event)) :
  forall sessions,
    Forall (fun pe : SessionPtr * Event =>
              exists lang, pe.2 = ContactLanguageChangedEvent lang) evs
    <-> exists sessions', handleEvents deref evs sessions = Returns sessions'.
Proof.
  induction evs as [|[p0 e] evs IH]; intros sessions.
  - split; [eauto|constructor].
  - simpl. destruct e as [lang| |]; simpl.
    + rewrite Forall_cons,
        <- (IH (AddPreCommitEvent p0 (deref p0)
                  (ContactLanguageChangedEvent lang) sessions)).
      split; [by intros [_ H]|eauto].
    + split; [intros H; apply Forall_cons in H as [[l Hl] _]; discriminate Hl|].
      intros [s' Hs]. discriminate Hs.
    + split; [intros H; apply Forall_cons in H as [[l Hl] _]; discriminate Hl|].
      intros [s' Hs]. discriminate Hs.
Qed.

(** X18: the handler establishes what the commit hook needs.  Handling a
    run of events from no sessions at all returns exactly when every event
    is a contact-language change (it panics on any other event); every
    session then holds, in order, the changes handled for it; so [Apply] on
    the result never panics, and hands [BulkSQL] one row per session, with
    the last language handled for it. *)
Theorem X18_handler_establishes_hook_precondition
    (deref : SessionPtr -> Session) (evs : list (SessionPtr * Event)) :
  (Forall (fun pe : SessionPtr * Event =>
             exists lang, pe.2 = ContactLanguageChangedEvent lang) evs
   <-> exists sessions, handleEvents deref evs ∅ = Returns sessions)
  /\ (forall sessions, handleEvents deref evs ∅ = Returns sessions ->
        (forall p,
           sessions !! p
           = match languagesOf p evs with
             | [] => None
             | langs => Some (deref p, languageChanges langs)
             end)
        /\ forall BulkSQL ro,
             exists rows,
               Apply BulkSQL ro sessions
               = Returns (BulkSQL "updating contact language"
                            updateContactLanguageSQL rows)
               /\ length rows = size sessions
               /\ forall p langs lang,
                    languagesOf p evs = langs ++ [lang] ->
                    {| lu_ContactID := ContactID (deref p); lu_Language := lang |}
                    ∈ rows).
Proof.
  split; [apply handleEvents_returns|].
  intros sessions Hrun.
  assert (Hlook : forall p,
            sessions !! p
            = match languagesOf p evs with
              | [] => None
              | langs => Some (deref p, languageChanges langs)
              end).
  { intros p. rewrite (handleEvents_spec deref evs ∅ sessions Hrun p).
    rewrite lookup_empty. by destruct (languagesOf p evs). }
  split; [exact Hlook|]. intros BulkSQL ro.
  assert (Hends : forall p s e, sessions !! p = Some (s, e) ->
                                endsWithLanguageChange e).
  { intros p s e Hp. rewrite Hlook in Hp.
    destruct (languagesOf p evs) as [|l ls] eqn:Hl; [discriminate|].
    destruct (exists_last (l:=l :: ls) ltac:(discriminate)) as (ls' & v & Heq).
    rewrite Heq in Hp. injection Hp as <- <-.
    unfold endsWithLanguageChange. rewrite lastValue_languageChanges. eauto. }
  exists (rowOf <$> range_map ro sessions).
  split; [unfold Apply; by rewrite (languageUpdates_returns ro sessions Hends)|].
  split; [rewrite length_fmap, (range_map_perm ro); apply length_map_to_list|].
  intros p langs lang Hl. apply list_elem_of_fmap.
  exists (p, (deref p, languageChanges (langs ++ [lang]))). split.
  - unfold rowOf. simpl. by rewrite lastValue_languageChanges.
  - rewrite (range_map_perm ro). apply elem_of_map_to_list.
    rewrite Hlook, Hl. by destruct langs.
Qed.

(** Session 1 changes to "eng" and later to "kin", session 2 to "fra": two
    rows, "kin" for contact 71 and "fra" for contact 72. *)
Lemma X18_witness_two_sessions :
  exists sessions,
    handleEvents sessionAt interleavedEvents ∅ = Returns sessions
    /\ languageUpdates canonicalOrder sessions
       = Returns [ {| lu_ContactID := 72; lu_Language := "fra" |};
                   {| lu_ContactID := 71; lu_Language := "kin" |} ].
Proof.
  destruct (proj1 (proj1 (X18_handler_establishes_hook_precondition
                            sessionAt interleavedEvents)))
    as [sessions Hrun].
  { repeat constructor; simpl; eauto. }
  exists sessions. split; [exact Hrun|].
  vm_compute in Hrun. injection Hrun as <-. vm_compute. reflexivity.
Defined.

End HookMore.

(** ** The event fire store *)
Section FireStoreMore.
Import GoTime EventFires.
Local Open Scope Z_scope.

(** *** Marking fires in memory *)

Lemma markFired_spec (fires : list positive) (fired : Time) (result : string) :
  forall heap : Heap,
    (forall f, f ∈ fires -> is_Some (heap !! f)) ->
    exists heap' : Heap,
      markFired heap fires fired result = Returns heap'
      /\ forall f,
           heap' !! f
           = (fun r => if bool_decide (f ∈ fires) then markedFire fired result r else r)
             <$> heap !! f.
Proof.
  induction fires as [|f0 fires IH]; intros heap Hvalid.
  - exists heap. split; [reflexivity|]. intros f.
    rewrite bool_decide_eq_false_2 by set_solver.
    by destruct (heap !! f).
  - destruct (Hvalid f0 ltac:(by left)) as [r0 Hr0]. simpl. rewrite Hr0.
    destruct (IH (<[f0 := markedFire fired result r0]> heap)) as (heap' & Hrun & Hl).
    { intros f Hf. destruct (decide (f = f0)) as [->|Hne].
      - rewrite lookup_insert_eq. eauto.
      - rewrite lookup_insert_ne by done. apply Hvalid. by right. }
    exists heap'. split; [exact Hrun|]. intros f. rewrite Hl.
    destruct (decide (f = f0)) as [->|Hne].
    + rewrite lookup_insert_eq, Hr0. simpl.
      rewrite (bool_decide_eq_true_2 (f0 ∈ f0 :: fires)) by (by left).
      by destruct (bool_decide (f0 ∈ fires)).
    + rewrite lookup_insert_ne by done.
      destruct (heap !! f) as [r|]; [|reflexivity]. simpl.
      destruct (decide (f ∈ fires)) as [Hin|Hout].
      * rewrite !bool_decide_eq_true_2; [done|by right|done].
      * rewrite !bool_decide_eq_false_2; [done| |done].
        intros Hin. apply elem_of_cons in Hin as [?|?]; done.
Qed.

(** X19: [MarkEventsFired] on fires that are all in memory returns, and
    afterwards every fire of the list carries the fired time and the result
    while its id, event, contact and scheduled time are as before; fires not
    in the list are untouched.  This holds whether or not the database
    accepted the update: on a database error the error comes back, the table
    is unchanged and the fires in memory are marked all the same. *)
Theorem X19_mark_fired_in_memory (dberr : option string) (db : DB)
    (heap : Heap) (fires : list positive) (fired : Time) (result : string) :
  (forall f, f ∈ fires -> is_Some (heap !! f)) ->
  exists (heap' : Heap) db' err,
    MarkEventsFired dberr db heap fires fired result = Returns (heap', db', err)
    /\ (forall f r, heap !! f = Some r ->
          heap' !! f
          = Some (if bool_decide (f ∈ fires) then markedFire fired result r else r))
    /\ dom heap' = dom heap
    /\ (err = None <-> dberr = None)
    /\ (forall e, dberr = Some e -> db' = db).
Proof.
  intros Hvalid.
  destruct (markFired_spec fires fired result heap Hvalid) as (heap' & Hrun & Hl).
  unfold MarkEventsFired. rewrite Hrun. unfold BulkSQL.
  destruct dberr as [e|].
  - eexists heap', db, _. split; [reflexivity|].
    split; [intros f r Hr; by rewrite Hl, Hr|].
    split.
    { apply set_eq. intros f. rewrite !elem_of_dom, Hl.
      by destruct (heap !! f) as [r|]; simpl; split; intros [x Hx]; eauto. }
    split; [split; discriminate|]. by intros e' _.
  - eexists heap', _, None. split; [reflexivity|].
    split; [intros f r Hr; by rewrite Hl, Hr|].
    split.
    { apply set_eq. intros f. rewrite !elem_of_dom, Hl.
      by destruct (heap !! f) as [r|]; simpl; split; intros [x Hx]; eauto. }
    split; [done|]. intros e' He. discriminate He.
Qed.

(** The database is down: the fire in the list is marked in memory all the
    same, the other one is not. *)
Lemma X19_witness_database_down :
  exists (heap' : Heap) db' err,
    MarkEventsFired (Some "connection refused"%string) smallDB twoFires
      [1%positive] noon FireResultFired
    = Returns (heap', db', err)
    /\ heap' !! 1%positive
       = Some (markedFire noon FireResultFired (pendingFire 501 9 77 1717236060))
    /\ heap' !! 2%positive = Some (pendingFire 502 9 78 1717236060)
    /\ db' = smallDB
    /\ is_Some err.
Proof.
  destruct (X19_mark_fired_in_memory (Some "connection refused"%string) smallDB
              twoFires [1%positive] noon FireResultFired)
    as (heap' & db' & err & Hrun & Hl & _ & Herr & Hdb).
  { intros f Hf. apply list_elem_of_singleton in Hf as ->.
    unfold twoFires. rewrite lookup_insert_eq. eauto. }
  exists heap', db', err. split; [exact Hrun|].
  split; [by rewrite (Hl 1%positive _ eq_refl)|].
  split; [by rewrite (Hl 2%positive _ eq_refl)|].
  split; [by eapply Hdb|].
  destruct err; [eauto|]. by destruct (proj1 Herr eq_refl).
Defined.

(** *** The fired history *)

Lemma filter_fired_delete (P : EventFire -> bool) (t : list EventFire) :
  List.filter (fun r => negb (unfired r))
    (List.filter (fun r => negb (P r && unfired r)) t)
  = List.filter (fun r => negb (unfired r)) t.
Proof.
  induction t as [|r t IH]; [reflexivity|]. simpl.
  destruct (unfired r) eqn:Hu; simpl.
  - destruct (P r); simpl; rewrite ?Hu; simpl; exact IH.
  - rewrite andb_false_r. simpl. rewrite Hu. simpl. by rewrite IH.
Qed.

Lemma insertEventFiresSQL_table (adds : list FireAdd) :
  forall db,
    exists new,
      table (insertEventFiresSQL adds db) = table db ++ new
      /\ Forall2 (fun a r =>
                    EventID r = add_EventID a /\ ContactID r = add_ContactID a
                    /\ Scheduled r = add_Scheduled a /\ Fired r = None) adds new.
Proof.
  induction adds as [|a adds IH]; intros db; simpl.
  - exists []. by rewrite app_nil_r.
  - destruct (IH {| table := table db ++ [ {| FireID := nextID db;
                                               EventID := add_EventID a;
                                               ContactID := add_ContactID a;
                                               Scheduled := add_Scheduled a;
                                               Fired := None;
                                               FiredResult := "" |} ];
                    nextID := nextID db + 1 |}) as (new & Ht & Hnew).
    eexists (_ :: new). rewrite Ht. cbn [table]. rewrite <- app_assoc.
    split; [reflexivity|]. constructor; [by repeat split|exact Hnew].
Qed.

(** X20: the fired history is immutable.  None of [DeleteEventFires],
    [DeleteUnfiredContactEvents], [DeleteUnfiredEventFires] and
    [AddEventFires] removes, changes or adds a fired row, whatever their
    arguments and whatever the database answers. *)
Theorem X20_fired_history_is_kept (dberr : option string) (db : DB) :
  (forall fires, firedRows (DeleteEventFires dberr db fires).1 = firedRows db)
  /\ (forall contactID,
        firedRows (DeleteUnfiredContactEvents dberr db contactID).1 = firedRows db)
  /\ (forall removes,
        firedRows (DeleteUnfiredEventFires dberr db removes).1 = firedRows db)
  /\ (forall adds, firedRows (AddEventFires dberr db adds).1 = firedRows db).
Proof.
  split; [|split; [|split]].
  - intros fires. unfold DeleteEventFires. destruct dberr; [reflexivity|].
    apply filter_fired_delete.
  - intros c. unfold DeleteUnfiredContactEvents. destruct dberr; [reflexivity|].
    apply (filter_fired_delete (fun r => ContactID r =? c)).
  - intros removes. unfold DeleteUnfiredEventFires, BulkSQL.
    destruct (length removes =? 0)%nat; [reflexivity|].
    destruct dberr; [reflexivity|]. apply filter_fired_delete.
  - intros adds. unfold AddEventFires, BulkSQL.
    destruct (length adds =? 0)%nat; [reflexivity|].
    destruct dberr; [reflexivity|]. cbn [fst]. unfold firedRows.
    destruct (insertEventFiresSQL_table adds db) as (new & -> & Hnew).
    rewrite List.filter_app.
    replace (List.filter (fun r => negb (unfired r)) new) with (@nil EventFire);
      [by rewrite app_nil_r|].
    clear -Hnew. induction Hnew as [|a r adds new (_ & _ & _ & Hf) _ IH];
      [reflexivity|].
    simpl. unfold unfired at 1. rewrite Hf. simpl. exact IH.
Qed.

(** X21: when the database accepts it, [DeleteUnfiredContactEvents] leaves
    no unfired row of the contact, for any event, and keeps every row of
    every other contact; when the database refuses, the table is unchanged
    and the error comes back wrapped. *)
Theorem X21_delete_unfired_contact_events (db : DB) (contactID : Z) :
  (let db' := (DeleteUnfiredContactEvents None db contactID).1 in
   (forall e, unfiredFor contactID e db' = [])
   /\ List.filter (fun r => negb (ContactID r =? contactID)) (table db')
      = List.filter (fun r => negb (ContactID r =? contactID)) (table db)
   /\ (DeleteUnfiredContactEvents None db contactID).2 = None)
  /\ (forall err,
        DeleteUnfiredContactEvents (Some err) db contactID
        = (db, Some (Broadcasts.Wrapf err "error deleting unfired contact events"))).
Proof.
  split; [|reflexivity]. cbn zeta. unfold DeleteUnfiredContactEvents.
  cbn [fst snd]. unfold unfiredFor, deleteUnfiredContactSQL. cbn [table].
  split; [|split; [|reflexivity]].
  - intros e. induction (table db) as [|r t IH]; [reflexivity|]. simpl.
    destruct (ContactID r =? contactID) eqn:Hc; simpl.
    + destruct (unfired r) eqn:Hu; simpl; [exact IH|].
      rewrite Hc, Hu, andb_false_r. exact IH.
    + rewrite Hc. simpl. exact IH.
  - induction (table db) as [|r t IH]; [reflexivity|]. simpl.
    destruct (ContactID r =? contactID) eqn:Hc; simpl.
    + destruct (unfired r); simpl; rewrite ?Hc; simpl; exact IH.
    + rewrite Hc. simpl. by rewrite IH.
Qed.

(** *** Replacing the fires of a contact and event *)

Lemma DeleteUnfiredEventFires_table (removes : list FireDelete) (db : DB) :
  table (DeleteUnfiredEventFires None db removes).1
  = table (removeUnfiredFiresSQL removes db).
Proof.
  destruct removes as [|f removes]; [|reflexivity]. simpl.
  induction (table db) as [|r t IH]; [reflexivity|]. simpl. by rewrite <- IH.
Qed.

Lemma AddEventFires_table (adds : list FireAdd) (db : DB) :
  exists new,
    table (AddEventFires None db adds).1 = table db ++ new
    /\ Forall2 (fun a r =>
                  EventID r = add_EventID a /\ ContactID r = add_ContactID a
                  /\ Scheduled r = add_Scheduled a /\ Fired r = None) adds new.
Proof.
  destruct adds as [|a adds].
  - exists []. simpl. by rewrite app_nil_r.
  - apply insertEventFiresSQL_table.
Qed.

Lemma unfiredFor_removed (removes : list FireDelete) (db : DB) (c e : Z) :
  (c, e) ∈ deletePairs removes ->
  unfiredFor c e {| table := table (removeUnfiredFiresSQL removes db);
                    nextID := nextID db |} = [].
Proof.
  intros Hin. unfold unfiredFor, removeUnfiredFiresSQL. cbn [table].
  induction (table db) as [|r t IH]; [reflexivity|]. simpl.
  destruct (existsb _ removes && unfired r) eqn:Hdel; simpl; [exact IH|].
  destruct ((ContactID r =? c) && (EventID r =? e) && unfired r) eqn:Hsel;
    [|exact IH].
  exfalso. apply andb_prop in Hsel as [Hsel Hu]. apply andb_prop in Hsel as [Hc He].
  rewrite Hu, andb_true_r in Hdel.
  apply Z.eqb_eq in Hc, He.
  apply list_elem_of_fmap in Hin as (f & Hf & Hfin). injection Hf as Hfc Hfe.
  assert (existsb (fun f => (ContactID r =? delete_ContactID f)
                            && (EventID r =? delete_EventID f)) removes = true)
    as Hex; [|by rewrite Hex in Hdel].
  apply existsb_exists. exists f. split; [by apply list_elem_of_In|].
  by rewrite Hc, He, <- Hfc, <- Hfe, !Z.eqb_refl.
Qed.

Lemma unfiredFor_kept (removes : list FireDelete) (db : DB) (c e : Z) :
  (length (unfiredFor c e {| table := table (removeUnfiredFiresSQL removes db);
                             nextID := nextID db |})
   <= length (unfiredFor c e db))%nat.
Proof.
  unfold unfiredFor, removeUnfiredFiresSQL. cbn [table].
  induction (table db) as [|r t IH]; [reflexivity|]. simpl.
  destruct (negb _); simpl;
    destruct ((ContactID r =? c) && (EventID r =? e) && unfired r); simpl; lia.
Qed.

Lemma new_rows_for (c e : Z) (adds : list FireAdd) (new : list EventFire) :
  Forall2 (fun a r =>
             EventID r = add_EventID a /\ ContactID r = add_ContactID a
             /\ Scheduled r = add_Scheduled a /\ Fired r = None) adds new ->
  NoDup (addPairs adds) ->
  let rows :=
    List.filter (fun r => (ContactID r =? c) && (EventID r =? e) && unfired r) new in
  ((c, e) ∉ addPairs adds -> rows = [])
  /\ (forall a, a ∈ adds -> add_ContactID a = c -> add_EventID a = e ->
        exists r, rows = [r] /\ Scheduled r = add_Scheduled a).
Proof.
  intros Hnew. induction Hnew as [|a r adds new (He & Hc & Hs & Hf) _ IH];
    intros Hnd rows.
  - split; [reflexivity|]. intros a Ha. by apply elem_of_nil in Ha.
  - unfold addPairs in Hnd. rewrite fmap_cons in Hnd.
    apply NoDup_cons in Hnd as [Hnotin Hnd].
    destruct (IH Hnd) as [IHout IHin]. clear IH.
    assert (unfired r = true) as Hu by (unfold unfired; by rewrite Hf).
    subst rows. cbn [List.filter]. rewrite Hu, Hc, He, andb_true_r.
    destruct ((add_ContactID a =? c) && (add_EventID a =? e)) eqn:Hsel.
    + apply andb_prop in Hsel as [Hc' He']. apply Z.eqb_eq in Hc', He'.
      subst c e. rewrite (IHout Hnotin). cbn iota.
      split; [intros Hout; exfalso; apply Hout; unfold addPairs;
              rewrite fmap_cons; by left|].
      intros a' Ha' Hc' He'. apply elem_of_cons in Ha' as [->|Ha'].
      * by exists r.
      * exfalso. apply Hnotin. apply list_elem_of_fmap. exists a'.
        by rewrite Hc', He'.
    + split.
      * intros Hout. apply IHout. intros Hin. apply Hout. unfold addPairs.
        rewrite fmap_cons. by right.
      * intros a' Ha' Hc' He'. apply elem_of_cons in Ha' as [->|Ha'].
        { rewrite Hc', He', !Z.eqb_refl in Hsel. discriminate Hsel. }
        by apply IHin.
Qed.

(** X22: replacing fires keeps them unique.  On a table with at most one
    unfired row for every contact and event, [DeleteUnfiredEventFires]
    followed by [AddEventFires] (both accepted by the database), where the
    additions are for distinct pairs that are all among the deleted ones,
    again leaves at most one unfired row for every contact and event, and
    exactly one, with the new scheduled time, for every addition. *)
Theorem X22_replacing_fires_keeps_them_unique (db : DB)
    (removes : list FireDelete) (adds : list FireAdd) :
  fireUnique db ->
  NoDup (addPairs adds) ->
  (forall p, p ∈ addPairs adds -> p ∈ deletePairs removes) ->
  let db1 := (DeleteUnfiredEventFires None db removes).1 in
  let db2 := (AddEventFires None db1 adds).1 in
  fireUnique db2
  /\ (forall a, a ∈ adds ->
        exists r, unfiredFor (add_ContactID a) (add_EventID a) db2 = [r]
                  /\ Scheduled r = add_Scheduled a).
Proof.
  intros Huniq Hnd Hsub. cbv zeta.
  set (db1 := (DeleteUnfiredEventFires None db removes).1).
  set (db2 := (AddEventFires None db1 adds).1).
  destruct (AddEventFires_table adds db1) as (new & Ht2 & Hnew).
  assert (forall c e,
             unfiredFor c e db2
             = unfiredFor c e {| table := table (removeUnfiredFiresSQL removes db);
                                 nextID := nextID db |}
               ++ List.filter (fun r => (ContactID r =? c) && (EventID r =? e)
                                        && unfired r) new) as Hsplit.
  { intros c e. unfold unfiredFor. fold db2 in Ht2. rewrite Ht2. cbn [table].
    unfold db1. rewrite DeleteUnfiredEventFires_table.
    by rewrite List.filter_app. }
  split.
  - intros c e. rewrite Hsplit, length_app.
    destruct (new_rows_for c e adds new Hnew Hnd) as [Hout Hin].
    destruct (decide ((c, e) ∈ addPairs adds)) as [Hadd|Hnone].
    + rewrite (unfiredFor_removed removes db c e (Hsub _ Hadd)).
      apply list_elem_of_fmap in Hadd as (a & Ha & Hain). inversion Ha; subst.
      destruct (Hin a Hain eq_refl eq_refl) as (r & -> & _). simpl. lia.
    + rewrite (Hout Hnone). simpl. rewrite Nat.add_0_r.
      etransitivity; [apply unfiredFor_kept|apply Huniq].
  - intros a Ha. rewrite Hsplit.
    rewrite (unfiredFor_removed removes db).
    + destruct (new_rows_for (add_ContactID a) (add_EventID a) adds new Hnew Hnd)
        as [_ Hin].
      destruct (Hin a Ha eq_refl eq_refl) as (r & -> & Hs). by exists r.
    + apply Hsub. apply list_elem_of_fmap. by exists a.
Qed.

(** The unfired fire of contact 77 for event 9 is replaced by one for
    noon. *)
Lemma X22_witness_reschedule :
  exists r,
    unfiredFor 77 9
      (AddEventFires None
         (DeleteUnfiredEventFires None smallDB
            [ {| delete_ContactID := 77; delete_EventID := 9 |} ]).1
         [ {| add_ContactID := 77; add_EventID := 9; add_Scheduled := noon |} ]).1
    = [r]
    /\ Scheduled r = noon.
Proof.
  refine (proj2 (X22_replacing_fires_keeps_them_unique smallDB
            [ {| delete_ContactID := 77; delete_EventID := 9 |} ]
            [ {| add_ContactID := 77; add_EventID := 9; add_Scheduled := noon |} ]
            _ _ _)
            {| add_ContactID := 77; add_EventID := 9; add_Scheduled := noon |} _).
  - intros c e. unfold unfiredFor. cbn -[Z.eqb].
    rewrite !andb_false_r, !andb_true_r.
    destruct (77 =? c) eqn:H77; destruct (78 =? c) eqn:H78;
      destruct (9 =? e); cbn -[Z.eqb]; lia.
  - apply NoDup_singleton.
  - intros p Hp. exact Hp.
  - by left.
Defined.

(** *** Loading after marking *)

Lemma markFired_valid (fires : list positive) (fired : Time) (result : string) :
  forall heap heap' : Heap,
    markFired heap fires fired result = Returns heap' ->
    forall f, f ∈ fires -> is_Some (heap !! f).
Proof.
  induction fires as [|f0 fires IH]; intros heap heap' Hrun f Hf.
  - by apply elem_of_nil in Hf.
  - simpl in Hrun. destruct (heap !! f0) as [r0|] eqn:Hr0; [|discriminate Hrun].
    apply elem_of_cons in Hf as [->|Hf]; [eauto|].
    specialize (IH _ _ Hrun f Hf).
    destruct (decide (f = f0)) as [->|Hne]; [eauto|].
    by rewrite lookup_insert_ne in IH.
Qed.

(** X23: marked fires are not loaded again.  After [MarkEventsFired] has
    returned without error, [LoadEventFires] on the new table, for any ids,
    returns only rows that are not fired and whose id was asked for, and none
    of them has the id of a fire that was marked. *)
Theorem X23_marked_fires_are_not_loaded_again (db db' : DB) (heap heap' : Heap)
    (fires : list positive) (fired : Time) (result : string) (ids : list Z)
    (loaded : list EventFire) :
  MarkEventsFired None db heap fires fired result = Returns (heap', db', None) ->
  LoadEventFires None None db' ids = Ok loaded ->
  forall r, r ∈ loaded ->
    FireID r ∈ ids
    /\ Fired r = None
    /\ (forall f r0, f ∈ fires -> heap !! f = Some r0 -> FireID r0 <> FireID r).
Proof.
  intros Hmark Hload r Hr. unfold MarkEventsFired in Hmark.
  destruct (markFired heap fires fired result) as [heap1|msg] eqn:Hrun;
    [|discriminate Hmark].
  pose proof (markFired_valid _ _ _ _ _ Hrun) as Hvalid.
  destruct (markFired_spec fires fired result heap Hvalid) as (heap2 & Hrun2 & Hl).
  rewrite Hrun in Hrun2. inversion Hrun2; subst heap2. clear Hrun2.
  unfold BulkSQL in Hmark. inversion Hmark; subst heap1 db'. clear Hmark.
  unfold LoadEventFires in Hload. inversion Hload; subst loaded. clear Hload.
  unfold loadEventFireSQL in Hr.
  apply list_elem_of_fmap in Hr as (r1 & -> & Hr1). cbn [FireID Fired].
  apply list_elem_of_In, filter_In in Hr1 as [Hr1 Hsel].
  apply andb_prop in Hsel as [Hid Hunf].
  split; [|split].
  - apply existsb_exists in Hid as (i & Hi & Heq). apply Z.eqb_eq in Heq.
    rewrite Heq. by apply list_elem_of_In.
  - unfold unfired in Hunf. by destruct (Fired r1).
  - intros f r0 Hf Hr0 Heq.
    unfold markEventsFiredSQL in Hr1. cbn [table] in Hr1.
    apply list_elem_of_In, list_elem_of_fmap in Hr1 as (r2 & -> & _).
    set (updates := omap (fun f => heap' !! f) fires) in *.
    assert (forall u, u ∈ updates -> exists t, Fired u = Some t) as Hfired.
    { intros u Hu. apply list_elem_of_omap in Hu as (g & Hg & Hgu).
      rewrite Hl in Hgu. rewrite bool_decide_eq_true_2 in Hgu by done.
      destruct (heap !! g); [|discriminate Hgu]. inversion Hgu. by eexists. }
    assert (markedFire fired result r0 ∈ updates) as Hin.
    { apply list_elem_of_omap. exists f. split; [done|].
      rewrite Hl, Hr0. simpl. by rewrite bool_decide_eq_true_2. }
    destruct (List.find (fun u => FireID u =? FireID r2) updates) as [u|] eqn:Hfind.
    + apply find_some in Hfind as [Hu _]. apply list_elem_of_In in Hu.
      destruct (Hfired u Hu) as [t Ht]. cbn [Fired] in Hunf.
      unfold unfired in Hunf. cbn [Fired] in Hunf. by rewrite Ht in Hunf.
    + apply list_elem_of_In in Hin. apply (find_none _ _ Hfind) in Hin.
      cbn [FireID markedFire] in Hin. apply Z.eqb_neq in Hin. by apply Hin.
Qed.

(** Fire 501 is marked; asking for 501 and 502 afterwards gives 502 only. *)
Lemma X23_witness_load_after_mark :
  LoadEventFires None None
    (markEventsFiredSQL
       [markedFire noon FireResultFired (pendingFire 501 9 77 1717236060)] smallDB)
    [501; 502]
  = Ok [pendingFire 502 9 78 1717236060]
  /\ FireID (pendingFire 502 9 78 1717236060) ∈ [501; 502]
  /\ Fired (pendingFire 502 9 78 1717236060) = None
  /\ 501 <> FireID (pendingFire 502 9 78 1717236060).
Proof.
  split; [reflexivity|].
  destruct (X23_marked_fires_are_not_loaded_again smallDB
              (markEventsFiredSQL
                 [markedFire noon FireResultFired (pendingFire 501 9 77 1717236060)]
                 smallDB)
              twoFires
              (<[1%positive := markedFire noon FireResultFired
                                 (pendingFire 501 9 77 1717236060)]> twoFires)
              [1%positive] noon FireResultFired [501; 502]
              [pendingFire 502 9 78 1717236060] eq_refl eq_refl
              (pendingFire 502 9 78 1717236060) ltac:(by left))
    as (Hid & Hf & Hne).
  split; [exact Hid|]. split; [exact Hf|].
  exact (Hne 1%positive (pendingFire 501 9 77 1717236060) ltac:(by left) eq_refl).
Defined.

End FireStoreMore.
